(** * A chained symbol table (symtab.c) and the word counter built on it
      (main.c): shallow embedding and properties

    The table of symtab.c is a fixed array of bucket heads; every bucket is a
    singly linked chain of entries kept in ascending key order.  main.c reads
    the words of its input files, counts them in one such table and reports
    the most frequent ones.  The embedding below follows the C text function
    by function.

    Conventions of the embedding.
    - Target: LP64 (pointers are 64-bit words, [int] and [unsigned int] are
      32-bit, plain [char] is signed), the conversions between integer and
      pointer types being the ones GCC defines (truncation, sign extension).
    - A pointer is its address, a [Z]; [NULL] is [0].
    - A C string is the [string] of its bytes before the terminating NUL.
    - Memory is explicit: entry nodes and key buffers live in two finite maps
      indexed by address; [malloc] hands out the addresses [brk], [brk+1], ...
      and fails when the next answer of the allocation oracle is [false].
    - Behaviour that C leaves undefined (reading through NULL, reading a slot
      outside the bucket array, ...) is a [Fault]. *)

From stdpp Require Import base gmap list strings sorting.
From Stdlib Require Import ZArith Ascii.

Local Open Scope Z_scope.
#[local] Set Warnings "-clear-no-such-hyp".

Module Symtab.

(** ** Machine integers *)

Definition NULL : Z := 0.

Definition u32 (x : Z) : Z := x mod 2 ^ 32.

(** unsigned int -> int, and pointer -> int (keeps the low 32 bits) *)
Definition int_of_uint (x : Z) : Z :=
  let y := u32 x in if y <? 2 ^ 31 then y else y - 2 ^ 32.

Definition int_of_ptr (p : Z) : Z := int_of_uint p.

(** int -> pointer (sign extension to 64 bits) *)
Definition ptr_of_int (i : Z) : Z := i mod 2 ^ 64.

(** plain (signed) char, promoted to int and converted to unsigned int *)
Definition uint_of_char (c : ascii) : Z :=
  let b := Z.of_N (N_of_ascii c) in
  u32 (if b <? 128 then b else b - 256).

(** ** Data *)

Record entry_s := { key : Z; value : Z; next : Z }.

Record hashtable_s := { size : Z; table : list Z }.

(** The field [ht] of the C iterator is the handle of the table the iterator
    was made from; the operations on iterators receive that table. *)
Record hash_elem_it_s := { index : Z; elem : Z }.

Record memory := {
  entries : gmap Z entry_s;
  chars : gmap Z string;
  brk : Z;
  oracle : list bool
}.

Inductive fault := NullDeref | BadPointer | OutOfBounds | Diverges.

Inductive result (A : Type) :=
| Ok (a : A)
| Fault (f : fault).
Arguments Ok {A} a.
Arguments Fault {A} f.

#[global] Instance result_bind : MBind result := fun A B k r =>
  match r with
  | Ok a => k a
  | Fault f => Fault f
  end.

(** ** Memory operations *)

(** The contents of a block that was allocated and not yet written.  C does
    not say what a new block holds: the embedding fills it with a value that
    is no pointer of the program, neither NULL nor an address that malloc
    hands out (these are not negative), so that a field counts as NULL only
    where the code has stored NULL in it. *)
Definition indeterminate : Z := -1.

Definition empty_memory (o : list bool) : memory :=
  {| entries := ∅; chars := ∅; brk := 1; oracle := o |}.

(** [malloc]: the next answer of the oracle decides; an exhausted oracle
    always grants the request. *)
Definition malloc (m : memory) : Z * memory :=
  match oracle m with
  | false :: o =>
      (NULL, {| entries := entries m; chars := chars m; brk := brk m; oracle := o |})
  | _ =>
      (brk m, {| entries := entries m; chars := chars m; brk := brk m + 1;
                 oracle := tail (oracle m) |})
  end.

(** malloc(sizeof(entry_t)) *)
Definition malloc_entry (m : memory) : Z * memory :=
  let '(p, m1) := malloc m in
  if p =? NULL then (p, m1)
  else (p, {| entries := <[p := {| key := indeterminate; value := indeterminate;
                                    next := indeterminate |}]> (entries m1);
              chars := chars m1; brk := brk m1; oracle := oracle m1 |}).

(** malloc of a character buffer *)
Definition malloc_chars (m : memory) : Z * memory :=
  let '(p, m1) := malloc m in
  if p =? NULL then (p, m1)
  else (p, {| entries := entries m1; chars := <[p := EmptyString]> (chars m1);
              brk := brk m1; oracle := oracle m1 |}).

Definition load_entry (m : memory) (p : Z) : result entry_s :=
  if p =? NULL then Fault NullDeref
  else match entries m !! p with
       | Some e => Ok e
       | None => Fault BadPointer
       end.

Definition store_entry (m : memory) (p : Z) (e : entry_s) : memory :=
  {| entries := <[p := e]> (entries m); chars := chars m; brk := brk m;
     oracle := oracle m |}.

(** p->key = k, p->value = v, p->next = n *)
Definition set_key (m : memory) (p k : Z) : result memory :=
  e ← load_entry m p;
  Ok (store_entry m p {| key := k; value := value e; next := next e |}).

Definition set_value (m : memory) (p v : Z) : result memory :=
  e ← load_entry m p;
  Ok (store_entry m p {| key := key e; value := v; next := next e |}).

Definition set_next (m : memory) (p n : Z) : result memory :=
  e ← load_entry m p;
  Ok (store_entry m p {| key := key e; value := value e; next := n |}).

Definition load_string (m : memory) (p : Z) : result string :=
  if p =? NULL then Fault NullDeref
  else match chars m !! p with
       | Some s => Ok s
       | None => Fault BadPointer
       end.

Definition strcpy (m : memory) (dst : Z) (src : string) : result memory :=
  if dst =? NULL then Fault NullDeref
  else match chars m !! dst with
       | Some _ => Ok {| entries := entries m; chars := <[dst := src]> (chars m);
                         brk := brk m; oracle := oracle m |}
       | None => Fault BadPointer
       end.

(** The sign of [strcmp s1 s2]: [Gt] for a positive result, [Eq] for zero,
    [Lt] for a negative one; bytes compare as unsigned char. *)
Definition strcmp (s1 s2 : string) : comparison := String.compare s1 s2.

(** free of a key buffer and of an entry node; free(NULL) does nothing *)
Definition free_chars (m : memory) (p : Z) : result memory :=
  if p =? NULL then Ok m
  else match chars m !! p with
       | Some _ => Ok {| entries := entries m; chars := delete p (chars m);
                         brk := brk m; oracle := oracle m |}
       | None => Fault BadPointer
       end.

Definition free_entry (m : memory) (p : Z) : result memory :=
  if p =? NULL then Ok m
  else match entries m !! p with
       | Some _ => Ok {| entries := delete p (entries m); chars := chars m;
                         brk := brk m; oracle := oracle m |}
       | None => Fault BadPointer
       end.

(** hashtable->table[i] : the bucket array has [length (table h)] slots *)
Definition table_get (h : hashtable_s) (i : Z) : result Z :=
  if i <? 0 then Fault OutOfBounds
  else match table h !! Z.to_nat i with
       | Some p => Ok p
       | None => Fault OutOfBounds
       end.

(** hashtable->table[i] = p *)
Definition table_set (h : hashtable_s) (i : Z) (p : Z) : result hashtable_s :=
  if (i <? 0) || (Z.of_nat (length (table h)) <=? i) then Fault OutOfBounds
  else Ok {| size := size h; table := <[Z.to_nat i := p]> (table h) |}.

(** ** hash *)

(** The loop over the bytes of the string: hash = (hash ^ byte) * p, on
    unsigned int. *)
Fixpoint hash_loop (str : string) (hash : Z) : Z :=
  match str with
  | EmptyString => hash
  | String c str' => hash_loop str' (u32 (Z.lxor hash (uint_of_char c) * 16777619))
  end.

(** The final [%] converts [size] to unsigned int.  With [size] 0 the C
    program divides by zero; symtabCreate makes no such table. *)
Definition hash (hashtable : hashtable_s) (str : string) : Z :=
  let hash := hash_loop str 2166136261 in
  let hash := u32 (hash + u32 (Z.shiftl hash 13)) in
  let hash := Z.lxor hash (Z.shiftr hash 7) in
  let hash := u32 (hash + u32 (Z.shiftl hash 3)) in
  let hash := Z.lxor hash (Z.shiftr hash 17) in
  let hash := u32 (hash + u32 (Z.shiftl hash 5)) in
  hash mod u32 (size hashtable).

(** ** lookup and symtabLookup *)

Definition lookup (hashtable : hashtable_s) (m : memory) (k : string) : result Z :=
  let bin := int_of_uint (hash hashtable k) in
  pair ← table_get hashtable bin;
  if pair =? NULL then Ok NULL
  else
    e ← load_entry m pair;
    if key e =? NULL then Ok NULL
    else
      s ← load_string m (key e);
      match strcmp k s with
      | Eq => Ok (value e)
      | _ => Ok NULL
      end.

(** The result of [lookup] passes through the local [int data]. *)
Definition symtabLookup (h : hashtable_s) (m : memory) (symbol : string) : result Z :=
  p ← lookup h m symbol;
  let data := int_of_ptr p in
  if data =? 0 then Ok NULL else Ok (ptr_of_int data).

(** ** symtabCreate *)

(** for( i = 0; i < sizeHint; i++ ) hashtable->table[i] = NULL; *)
Fixpoint clear_buckets (n : nat) (i : Z) (tbl : list Z) : list Z :=
  match n with
  | O => tbl
  | S n' => clear_buckets n' (i + 1) (<[Z.to_nat i := NULL]> tbl)
  end.

(** [None] is the NULL handle. *)
Definition symtabCreate (sizeHint : Z) (m : memory) : option hashtable_s * memory :=
  if sizeHint <? 1 then (None, m)
  else
    let '(hashtable, m1) := malloc m in
    if hashtable =? NULL then (None, m1)
    else
      let '(tbl, m2) := malloc m1 in
      if tbl =? NULL then (None, m2)
      else
        let fresh := replicate (Z.to_nat sizeHint) indeterminate in
        (Some {| size := sizeHint;
                 table := clear_buckets (Z.to_nat sizeHint) 0 fresh |}, m2).

(** ** symtabInstall *)

(** while( next != NULL && next->key != NULL && strcmp( symbol, next->key ) > 0 )
      { last = next; next = next->next; }
    The result is the pair (last, next) at loop exit. *)
Fixpoint install_scan (fuel : nat) (m : memory) (symbol : string)
    (last nxt : Z) : result (Z * Z) :=
  match fuel with
  | O => Fault Diverges
  | S fuel' =>
      if nxt =? NULL then Ok (last, nxt)
      else
        e ← load_entry m nxt;
        if key e =? NULL then Ok (last, nxt)
        else
          s ← load_string m (key e);
          match strcmp symbol s with
          | Gt => install_scan fuel' m symbol nxt (next e)
          | _ => Ok (last, nxt)
          end
  end.

(** next != NULL && next->key != NULL && strcmp( symbol, next->key ) == 0 *)
Definition install_found (m : memory) (symbol : string) (nxt : Z) : result bool :=
  if nxt =? NULL then Ok false
  else
    e ← load_entry m nxt;
    if key e =? NULL then Ok false
    else
      s ← load_string m (key e);
      match strcmp symbol s with
      | Eq => Ok true
      | _ => Ok false
      end.

(** A walk along a chain that visits more nodes than were ever allocated is
    inside a cycle and never ends: [brk] bounds the scan. *)
Definition scan_fuel (m : memory) : nat := Z.to_nat (brk m).

(** The result is (return value, table, memory). *)
Definition symtabInstall (hashtable : hashtable_s) (m : memory)
    (symbol : string) (data : Z) : result (Z * hashtable_s * memory) :=
  let bin := int_of_uint (hash hashtable symbol) in
  nxt ← table_get hashtable bin;
  '(last, nxt) ← install_scan (scan_fuel m) m symbol NULL nxt;
  found ← install_found m symbol nxt;
  if found : bool then
    m ← set_value m nxt data;
    Ok (1, hashtable, m)
  else
    let '(newpair, m) := malloc_entry m in
    if newpair =? NULL then Ok (0, hashtable, m)
    else
      m ← set_next m newpair NULL;
      m ← set_value m newpair data;
      let '(k, m) := malloc_chars m in
      m ← set_key m newpair k;
      m ← strcpy m k symbol;
      head ← table_get hashtable bin;
      if nxt =? head then
        m ← set_next m newpair nxt;
        hashtable ← table_set hashtable bin newpair;
        Ok (1, hashtable, m)
      else if nxt =? NULL then
        m ← set_next m last newpair;
        Ok (1, hashtable, m)
      else
        m ← set_next m newpair nxt;
        m ← set_next m last newpair;
        Ok (1, hashtable, m).

(** ** Iterators *)

(** do { if (elem != NULL && elem->key != NULL) break;
         else { index++; elem = table[index]; }
    } while (index < size - 1);
    The result is the pair (index, elem) at loop exit. *)
Fixpoint skip_empty (fuel : nat) (h : hashtable_s) (m : memory)
    (idx el : Z) : result (Z * Z) :=
  match fuel with
  | O => Fault Diverges
  | S fuel' =>
      stop ← (if el =? NULL then Ok false
              else e ← load_entry m el; Ok (negb (key e =? NULL)));
      if stop : bool then Ok (idx, el)
      else
        let idx := u32 (idx + 1) in
        el ← table_get h idx;
        if idx <? u32 (size h - 1) then skip_empty fuel' h m idx el
        else Ok (idx, el)
  end.

(** Every pass of the loop that goes on has read a slot of the array at an
    index one higher (or has wrapped around to 0, once). *)
Definition skip_fuel (h : hashtable_s) : nat := S (S (length (table h))).

(** [None] is the NULL handle. *)
Definition symtabCreateIterator (hashtable : hashtable_s) (m : memory)
    : result (option hash_elem_it_s * memory) :=
  let '(iterator, m) := malloc m in
  if iterator =? NULL then Ok (None, m)
  else
    el ← table_get hashtable 0;
    '(idx, el) ← skip_empty (skip_fuel hashtable) hashtable m 0 el;
    let '(sentinel, m) := malloc_entry m in
    m ← set_next m sentinel el;
    Ok (Some {| index := idx; elem := sentinel |}, m).

(** The result is (returned key pointer, iterator, contents of *returnData);
    [returnData] is the contents of the output slot before the call. *)
Definition symtabNext (h : hashtable_s) (m : memory) (it : hash_elem_it_s)
    (returnData : Z) : result (Z * hash_elem_it_s * Z) :=
  e ← load_entry m (elem it);
  let finish (it : hash_elem_it_s) : result (Z * hash_elem_it_s * Z) :=
    if elem it =? NULL then Ok (NULL, it, returnData)
    else
      e ← load_entry m (elem it);
      Ok (key e, it, value e) in
  if negb (next e =? NULL) then
    finish {| index := index it; elem := next e |}
  else
    let idx := u32 (index it + 1) in
    if idx >=? u32 (size h) then Ok (NULL, {| index := idx; elem := elem it |}, returnData)
    else
      el ← table_get h idx;
      '(idx, el) ← skip_empty (skip_fuel h) h m idx el;
      finish {| index := idx; elem := el |}.

(** ** symtabDelete *)

(** for (int i=0; i<=hashtable->size; i++)
      { iterate = hashtable->table[i]; if (iterate->key != NULL) free(iterate->key); }
    [n] counts the passes left; the result is (memory, iterate) at loop exit. *)
Fixpoint delete_loop (n : nat) (h : hashtable_s) (m : memory)
    (i iterate : Z) : result (memory * Z) :=
  match n with
  | O => Ok (m, iterate)
  | S n' =>
      iterate ← table_get h i;
      e ← load_entry m iterate;
      m ← (if key e =? NULL then Ok m else free_chars m (key e));
      delete_loop n' h m (i + 1) iterate
  end.

Definition symtabDelete (hashtable : hashtable_s) (m : memory) : result memory :=
  '(m, iterate) ← delete_loop (Z.to_nat (size hashtable + 1)) hashtable m 0 NULL;
  free_entry m iterate.

(** ** Running the interface *)

(** [iterate n h m it]: up to [n] calls of symtabNext, stopping at the first
    NULL; the keys are read back from their buffers.  The result is the list
    of pairs returned and whether the end was reported. *)
Fixpoint iterate (n : nat) (h : hashtable_s) (m : memory) (it : hash_elem_it_s)
    : result (list (string * Z) * bool) :=
  match n with
  | O => Ok ([], false)
  | S n' =>
      '(k, it, data) ← symtabNext h m it 0;
      if k =? NULL then Ok ([], true)
      else
        s ← load_string m k;
        '(rest, fin) ← iterate n' h m it;
        Ok ((s, data) :: rest, fin)
  end.

(** ** Scenarios *)

(** Installing a list of (key, value) pairs, first to last. *)
Fixpoint install_all (h : hashtable_s) (m : memory) (kvs : list (string * Z))
    : result (hashtable_s * memory) :=
  match kvs with
  | [] => Ok (h, m)
  | (k, v) :: kvs' =>
      '(_, h, m) ← symtabInstall h m k v;
      install_all h m kvs'
  end.

(** A table of the given capacity with the pairs installed, all requests to
    malloc being granted. *)
Definition build (sizeHint : Z) (kvs : list (string * Z))
    : result (hashtable_s * memory) :=
  match symtabCreate sizeHint (empty_memory []) with
  | (Some h, m) => install_all h m kvs
  | (None, _) => Fault NullDeref
  end.

(** A new iterator on a table, then up to [n] calls of symtabNext. *)
Definition iterate_table (n : nat) (st : result (hashtable_s * memory))
    : result (list (string * Z) * bool) :=
  '(h, m) ← st;
  '(oit, m) ← symtabCreateIterator h m;
  match oit with
  | Some it => iterate n h m it
  | None => Fault NullDeref
  end.

(** The results of [n] successive calls of symtabNext (output slot initially
    [slot]), as (key pointer, contents of the slot); a fault ends the list. *)
Fixpoint next_calls (n : nat) (h : hashtable_s) (m : memory)
    (it : hash_elem_it_s) (slot : Z) : list (result (Z * Z)) :=
  match n with
  | O => []
  | S n' =>
      match symtabNext h m it slot with
      | Ok (k, it', slot') => Ok (k, slot') :: next_calls n' h m it' slot'
      | Fault f => [Fault f]
      end
  end.

Definition next_calls_table (n : nat) (slot : Z)
    (st : result (hashtable_s * memory)) : result (list (result (Z * Z))) :=
  '(h, m) ← st;
  '(oit, m) ← symtabCreateIterator h m;
  match oit with
  | Some it => Ok (next_calls n h m it slot)
  | None => Fault NullDeref
  end.

Definition delete_table (st : result (hashtable_s * memory)) : result memory :=
  '(h, m) ← st; symtabDelete h m.

Definition iterator_table (st : result (hashtable_s * memory))
    : result (option hash_elem_it_s * memory) :=
  '(h, m) ← st; symtabCreateIterator h m.

(** The numbers of entry nodes and of key buffers that are allocated. *)
Definition live_blocks (m : memory) : nat * nat :=
  (length (map_to_list (entries m)), length (map_to_list (chars m))).

(** The state in a result, for use where the result is known to be [Ok]. *)
Definition state_of (st : result (hashtable_s * memory)) : hashtable_s * memory :=
  match st with
  | Ok s => s
  | Fault _ => ({| size := 0; table := [] |}, empty_memory [])
  end.

(** Concrete states: the table of capacity 1 as symtabCreate leaves it (with
    the answers [o] of the oracle still to come), and the same table after
    the installation of ("a", 1). *)
Definition one_bucket : hashtable_s := {| size := 1; table := [NULL] |}.

Definition fresh_memory (o : list bool) : memory :=
  {| entries := ∅; chars := ∅; brk := 3; oracle := o |}.

Definition table_a : hashtable_s := {| size := 1; table := [3] |}.

Definition memory_a : memory :=
  {| entries := {[ 3 := {| key := 4; value := 1; next := NULL |} ]};
     chars := {[ 4 := "a"%string ]}; brk := 5; oracle := [] |}.

(** The table of capacity 2 after the installation of ("c", 3), then of
    ("a", 1), which goes before "c" in the chain of bucket 1, then of
    ("b", 2) in bucket 0, and then of ("a", 7), a key that is there. *)
Definition table_2c : hashtable_s := {| size := 2; table := [NULL; 3] |}.

Definition memory_2c : memory :=
  {| entries := {[ 3 := {| key := 4; value := 3; next := NULL |} ]};
     chars := {[ 4 := "c"%string ]}; brk := 5; oracle := [] |}.

Definition table_2ca : hashtable_s := {| size := 2; table := [NULL; 5] |}.

Definition memory_2ca : memory :=
  {| entries := {[ 3 := {| key := 4; value := 3; next := NULL |};
                   5 := {| key := 6; value := 1; next := 3 |} ]};
     chars := {[ 4 := "c"%string; 6 := "a"%string ]}; brk := 7; oracle := [] |}.

Definition table_2cab : hashtable_s := {| size := 2; table := [7; 5] |}.

Definition memory_2cab : memory :=
  {| entries := {[ 3 := {| key := 4; value := 3; next := NULL |};
                   5 := {| key := 6; value := 1; next := 3 |};
                   7 := {| key := 8; value := 2; next := NULL |} ]};
     chars := {[ 4 := "c"%string; 6 := "a"%string; 8 := "b"%string ]};
     brk := 9; oracle := [] |}.

Definition memory_2caba : memory :=
  {| entries := {[ 3 := {| key := 4; value := 3; next := NULL |};
                   5 := {| key := 6; value := 7; next := 3 |};
                   7 := {| key := 8; value := 2; next := NULL |} ]};
     chars := {[ 4 := "c"%string; 6 := "a"%string; 8 := "b"%string ]};
     brk := 9; oracle := [] |}.

(** The empty table of capacity 2 with one iterator made. *)
Definition two_buckets : hashtable_s := {| size := 2; table := [NULL; NULL] |}.

Definition memory_iterator : memory :=
  {| entries := {[ 4 := {| key := indeterminate; value := indeterminate;
                          next := NULL |} ]};
     chars := ∅; brk := 5; oracle := [] |}.

(** ** The contents of a table *)

(** A node of a chain: its address, the bytes of its key, its value. *)
Record node := { n_addr : Z; n_key : string; n_value : Z }.

(** [lseg es cs p q b]: following the next fields from [p] one meets the nodes
    [b], in this order, and then arrives at [q]. *)
Fixpoint lseg (es : gmap Z entry_s) (cs : gmap Z string) (p q : Z)
    (b : list node) : Prop :=
  match b with
  | [] => p = q
  | n :: b' =>
      p = n_addr n ∧ p ≠ NULL ∧
      ∃ e, es !! p = Some e ∧ key e ≠ NULL ∧ cs !! key e = Some (n_key n) ∧
           value e = n_value n ∧ lseg es cs (next e) q b'
  end.

Definition chain (m : memory) (p : Z) (b : list node) : Prop :=
  lseg (entries m) (chars m) p NULL b.

(** The nodes met from [p], computed. *)
Fixpoint walk (fuel : nat) (m : memory) (p : Z) : list node :=
  match fuel with
  | O => []
  | S fuel' =>
      match load_entry m p with
      | Ok e =>
          match load_string m (key e) with
          | Ok s => {| n_addr := p; n_key := s; n_value := value e |}
                    :: walk fuel' m (next e)
          | Fault _ => []
          end
      | Fault _ => []
      end
  end.

(** The chains of all buckets, in the order of the bucket array. *)
Definition contents (h : hashtable_s) (m : memory) : list (list node) :=
  walk (scan_fuel m) m <$> table h.

Definition key_lt (s1 s2 : string) : Prop := strcmp s1 s2 = Lt.

(** Keys strictly ascending. *)
Definition ascending (b : list node) : Prop :=
  StronglySorted key_lt (n_key <$> b).

(** The representation invariant: [bs] are the chains of the buckets. *)
Record table_inv (h : hashtable_s) (m : memory) (bs : list (list node)) : Prop := {
  inv_size : 1 ≤ size h < 2 ^ 31;
  inv_length : length (table h) = Z.to_nat (size h);
  inv_entries : ∀ a e, entries m !! a = Some e → 0 < a < brk m;
  inv_chars : ∀ a s, chars m !! a = Some s → 0 < a < brk m;
  inv_brk : 0 < brk m;
  inv_chain : Forall2 (chain m) (table h) bs;
  inv_nodup : NoDup (n_addr <$> concat bs);
  inv_sorted : Forall ascending bs;
  inv_hash : ∀ i b n, bs !! i = Some b → n ∈ b → hash h (n_key n) = Z.of_nat i
}.

(** The states of a table that the interface produces, with the keys whose
    installation succeeded (latest first). *)
Inductive reachable : list string → hashtable_s → memory → Prop :=
| reach_create sizeHint o h m :
    - 2 ^ 31 ≤ sizeHint < 2 ^ 31 →
    symtabCreate sizeHint (empty_memory o) = (Some h, m) →
    reachable [] h m
| reach_install ks h m symbol data r h' m' :
    reachable ks h m →
    symtabInstall h m symbol data = Ok (r, h', m') →
    reachable (if r =? 1 then symbol :: ks else ks) h' m'
| reach_iterator ks h m it m' :
    reachable ks h m →
    symtabCreateIterator h m = Ok (it, m') →
    reachable ks h m'.

(** The iterators of a table that the interface produces: made by
    symtabCreateIterator, advanced by symtabNext, and kept while further
    iterators are made or further keys are installed. *)
Inductive iter_reachable : hashtable_s → memory → hash_elem_it_s → Prop :=
| iter_created ks h m it m' :
    reachable ks h m →
    symtabCreateIterator h m = Ok (Some it, m') →
    iter_reachable h m' it
| iter_advanced h m it returnData k it' out :
    iter_reachable h m it →
    symtabNext h m it returnData = Ok (k, it', out) →
    iter_reachable h m it'
| iter_other h m it it2 m' :
    iter_reachable h m it →
    symtabCreateIterator h m = Ok (it2, m') →
    iter_reachable h m' it
| iter_installed h m it symbol data r h' m' :
    iter_reachable h m it →
    symtabInstall h m symbol data = Ok (r, h', m') →
    iter_reachable h' m' it.

(** [p] is NULL or the address of a node of the table. *)
Definition linked (bs : list (list node)) (p : Z) : Prop :=
  p = NULL ∨ p ∈ n_addr <$> concat bs.

(** The cursor of an iterator is NULL or a node whose successor is linked. *)
Definition iter_inv (m : memory) (bs : list (list node)) (it : hash_elem_it_s) : Prop :=
  elem it = NULL ∨ ∃ e, entries m !! elem it = Some e ∧ linked bs (next e).

(** The first [n] requests to malloc are granted. *)
Definition granted (n : nat) (m : memory) : Prop :=
  Forall (λ b : bool, b = true) (take n (oracle m)).

(** Where the scan of symtabInstall stops: the nodes passed, the rest. *)
Fixpoint scan_split (symbol : string) (b : list node) : list node * list node :=
  match b with
  | [] => ([], [])
  | n :: b' =>
      match strcmp symbol (n_key n) with
      | Gt => let '(pre, post) := scan_split symbol b' in (n :: pre, post)
      | _ => ([], b)
      end
  end.

Definition set_node_value (data : Z) (n : node) : node :=
  {| n_addr := n_addr n; n_key := n_key n; n_value := data |}.

(** The two pointers and the test at the exit of the scan. *)
Definition head_addr (b : list node) : Z := from_option n_addr NULL (head b).

Definition last_addr (lst : Z) (b : list node) : Z :=
  from_option n_addr lst (last b).

Definition found_in (symbol : string) (b : list node) : bool :=
  match b with
  | n :: _ => match strcmp symbol (n_key n) with Eq => true | _ => false end
  | [] => false
  end.

(** The four outcomes of symtabInstall on a table that satisfies the
    invariant. *)
Inductive install_outcome (h : hashtable_s) (m : memory) (bs : list (list node))
    (symbol : string) (data : Z) : result (Z * hashtable_s * memory) → Prop :=
| outcome_update b pre n post e :
    bs !! Z.to_nat (hash h symbol) = Some b →
    scan_split symbol b = (pre, n :: post) →
    n_key n = symbol →
    entries m !! n_addr n = Some e →
    table_inv h (store_entry m (n_addr n)
                   {| key := key e; value := data; next := next e |})
      (<[Z.to_nat (hash h symbol) := pre ++ set_node_value data n :: post]> bs) →
    install_outcome h m bs symbol data
      (Ok (1, h, store_entry m (n_addr n)
                   {| key := key e; value := data; next := next e |}))
| outcome_insert b pre post h' m' :
    bs !! Z.to_nat (hash h symbol) = Some b →
    scan_split symbol b = (pre, post) →
    symbol ∉ n_key <$> b →
    granted 2 m →
    table_inv h' m'
      (<[Z.to_nat (hash h symbol) :=
           pre ++ {| n_addr := brk m; n_key := symbol; n_value := data |} :: post]> bs) →
    (∀ a e, entries m !! a = Some e → a ∉ n_addr <$> b →
            entries m' !! a = Some e) →
    install_outcome h m bs symbol data (Ok (1, h', m'))
| outcome_nomem b o :
    bs !! Z.to_nat (hash h symbol) = Some b →
    symbol ∉ n_key <$> b →
    oracle m = false :: o →
    install_outcome h m bs symbol data
      (Ok (0, h, {| entries := entries m; chars := chars m; brk := brk m;
                    oracle := o |}))
| outcome_nokey b :
    bs !! Z.to_nat (hash h symbol) = Some b →
    symbol ∉ n_key <$> b →
    head (oracle m) ≠ Some false →
    head (tail (oracle m)) = Some false →
    install_outcome h m bs symbol data (Fault NullDeref).

(** What [lookup] is to return: the value of the head of the selected chain
    when the key of the head is the candidate, NULL otherwise. *)
Definition head_value (k : string) (b : list node) : Z :=
  match b with
  | n :: _ => if decide (n_key n = k) then n_value n else NULL
  | [] => NULL
  end.

(** The (key, value) pairs of a list of nodes. *)
Definition pairs (b : list node) : list (string * Z) :=
  (λ n, (n_key n, n_value n)) <$> b.

(** ** The table as a finite map *)

(** The map from keys to values that the chains of a table hold. *)
Definition table_map (h : hashtable_s) (m : memory) : gmap string Z :=
  list_to_map (pairs (concat (contents h m))).

(** A complete iteration runs past the bucket array when the last bucket is
    empty and is either the only bucket or preceded by a non-empty one. *)
Definition overrun (bs : list (list node)) : bool :=
  match last bs with
  | Some [] =>
      match bs !! (length bs - 2)%nat with
      | Some (_ :: _) => true
      | _ => bool_decide (length bs = 1%nat)
      end
  | _ => false
  end.

(** The table of capacity 2 after the installation of ("a", 1), then of
    ("c", 3), then of ("b", 2): "a" and "c" share bucket 1, "b" has
    bucket 0. *)
Definition table_2a : hashtable_s := {| size := 2; table := [NULL; 3] |}.

Definition memory_2a : memory :=
  {| entries := {[ 3 := {| key := 4; value := 1; next := NULL |} ]};
     chars := {[ 4 := "a"%string ]}; brk := 5; oracle := [] |}.

Definition memory_2ac : memory :=
  {| entries := {[ 3 := {| key := 4; value := 1; next := 5 |};
                   5 := {| key := 6; value := 3; next := NULL |} ]};
     chars := {[ 4 := "a"%string; 6 := "c"%string ]}; brk := 7; oracle := [] |}.

Definition table_2acb : hashtable_s := {| size := 2; table := [7; 3] |}.

Definition memory_2acb : memory :=
  {| entries := {[ 3 := {| key := 4; value := 1; next := 5 |};
                   5 := {| key := 6; value := 3; next := NULL |};
                   7 := {| key := 8; value := 2; next := NULL |} ]};
     chars := {[ 4 := "a"%string; 6 := "c"%string; 8 := "b"%string ]};
     brk := 9; oracle := [] |}.

(** [memory_2ac] with one iterator made. *)
Definition memory_2ac_iterator : memory :=
  {| entries := {[ 3 := {| key := 4; value := 1; next := 5 |};
                   5 := {| key := 6; value := 3; next := NULL |};
                   8 := {| key := indeterminate; value := indeterminate; next := 3 |} ]};
     chars := {[ 4 := "a"%string; 6 := "c"%string ]}; brk := 9; oracle := [] |}.

(** * The word counter (main.c) *)

(** main.c runs on the same memory as the table.  Besides the faults of the
    table, a run of its functions can end in the overflow of an [int], in the
    read of a byte of a local array that was never written, or in a call of
    exit. *)
Inductive stop :=
| Undefined (f : fault)
| IntOverflow
| Uninitialised
| Exit (status : Z) (message : string).

Inductive run (A : Type) :=
| Done (a : A)
| Stop (s : stop).
Arguments Done {A} a.
Arguments Stop {A} s.

#[global] Instance run_bind : MBind run := fun A B k r =>
  match r with
  | Done a => k a
  | Stop s => Stop s
  end.

(** A call into symtab.c. *)
Definition lift {A} (r : result A) : run A :=
  match r with
  | Ok a => Done a
  | Fault f => Stop (Undefined f)
  end.

Definition MAX_WORD : Z := 50.
Definition MIN_WORD : Z := 6.
Definition TOP_COUNTS : Z := 20.
Definition EOF : Z := -1.

(** An open FILE is the list of its bytes not yet read; getc returns the
    next byte as an unsigned char converted to int, or EOF. *)
Definition getc (fp : list ascii) : Z * list ascii :=
  match fp with
  | [] => (EOF, [])
  | c :: fp' => (Z.of_N (N_of_ascii c), fp')
  end.

(** isalpha and tolower in the C locale, the locale of a program that never
    calls setlocale. *)
Definition isalpha (c : Z) : bool :=
  ((65 <=? c) && (c <=? 90)) || ((97 <=? c) && (c <=? 122)).

Definition tolower (c : Z) : Z :=
  if (65 <=? c) && (c <=? 90) then c + 32 else c.

(** int -> char (signed, 8 bits) and the byte of a char *)
Definition char_of_int (c : Z) : Z := (c + 128) mod 256 - 128.

Definition ascii_of_char (c : Z) : ascii := ascii_of_N (Z.to_N (c mod 256)).

(** i += 1 on an int *)
Definition int_succ (i : Z) : run Z :=
  if i + 1 <? 2 ^ 31 then Done (i + 1) else Stop IntOverflow.

(** A local array of char: a slot holds [None] until it is written. *)
Definition buf_set (buf : list (option Z)) (i v : Z) : run (list (option Z)) :=
  if (i <? 0) || (Z.of_nat (length buf) <=? i) then Stop (Undefined OutOfBounds)
  else Done (<[Z.to_nat i := Some v]> buf).

(** The C string that starts at the first slot of the array, as strlen and
    strcpy read it. *)
Fixpoint buf_string (buf : list (option Z)) : run string :=
  match buf with
  | [] => Stop (Undefined OutOfBounds)
  | None :: _ => Stop Uninitialised
  | Some c :: buf' =>
      if c =? 0 then Done EmptyString
      else s ← buf_string buf'; Done (String (ascii_of_char c) s)
  end.

(** ** getWord *)

(** while (!isalpha(c)) { if (c == EOF) return NULL; c = getc(fp); }
    The result is (c, fp) at the end of the loop; the loop was left by the
    return exactly when that [c] is not a letter. *)
Fixpoint getWord_skip (fuel : nat) (c : Z) (fp : list ascii) : run (Z * list ascii) :=
  match fuel with
  | O => Stop (Undefined Diverges)
  | S fuel' =>
      if negb (isalpha c) then
        if c =? EOF then Done (c, fp)
        else let '(c, fp) := getc fp in getWord_skip fuel' c fp
      else Done (c, fp)
  end.

(** while (isalpha(c))
      { if (i < MAX_WORD) buf[i] = tolower(c); i += 1; c = getc(fp); }
    The result is (buf, i, fp) at loop exit. *)
Fixpoint getWord_read (fuel : nat) (buf : list (option Z)) (i c : Z)
    (fp : list ascii) : run (list (option Z) * Z * list ascii) :=
  match fuel with
  | O => Stop (Undefined Diverges)
  | S fuel' =>
      if isalpha c then
        buf ← (if i <? MAX_WORD then buf_set buf i (char_of_int (tolower c))
               else Done buf);
        i ← int_succ i;
        let '(c, fp) := getc fp in
        getWord_read fuel' buf i c fp
      else Done (buf, i, fp)
  end.

(** The result is (returned pointer, file, memory).  [fuel] bounds the two
    loops and the depth of the recursion. *)
Fixpoint getWord (fuel : nat) (fp : list ascii) (m : memory)
    : run (Z * list ascii * memory) :=
  match fuel with
  | O => Stop (Undefined Diverges)
  | S fuel' =>
      let buf := replicate (Z.to_nat (MAX_WORD + 1)) (None : option Z) in
      let '(c, fp) := getc fp in
      '(c, fp) ← getWord_skip fuel c fp;
      if negb (isalpha c) then Done (NULL, fp, m)
      else
        '(buf, i, fp) ← getWord_read fuel buf 0 c fp;
        if (i <? MIN_WORD) || (i >? MAX_WORD) then getWord fuel' fp m
        else
          buf ← buf_set buf i 0;
          s ← buf_string buf;
          let '(p, m) := malloc_chars m in
          m ← lift (strcpy m p s);
          Done (p, fp, m)
  end.

(** Every loop pass and every recursive call reads a byte or is the last. *)
Definition word_fuel (fp : list ascii) : nat := S (S (length fp)).

(** ** Words, as the header of main.c defines them *)

Definition is_letter (a : ascii) : bool :=
  let n := N_of_ascii a in
  (((65 <=? n) && (n <=? 90)) || ((97 <=? n) && (n <=? 122)))%N.

Definition lower (a : ascii) : ascii :=
  let n := N_of_ascii a in
  if ((65 <=? n) && (n <=? 90))%N then ascii_of_N (n + 32) else a.

(** The letters at the front of the file, and the later maximal runs of
    letters. *)
Fixpoint split_runs (fp : list ascii) : list ascii * list (list ascii) :=
  match fp with
  | [] => ([], [])
  | c :: fp' =>
      let '(w, ws) := split_runs fp' in
      if is_letter c then (c :: w, ws)
      else ([], match w with [] => ws | _ => w :: ws end)
  end.

Definition runs (fp : list ascii) : list (list ascii) :=
  let '(w, ws) := split_runs fp in
  match w with [] => ws | _ => w :: ws end.

Definition word_length_ok (w : list ascii) : bool :=
  (6 <=? length w)%nat && (length w <=? 50)%nat.

(** The words of a file: the maximal runs of letters of six to fifty
    letters, in lower case. *)
Definition words (fp : list ascii) : list string :=
  (λ w, String.string_of_list_ascii (lower <$> w))
    <$> filter (λ w, word_length_ok w = true) (runs fp).

(** ** processFile *)

Definition nl : string := String (ascii_of_nat 10) EmptyString.

(** The body of the loop of processFile for the word that [word] points to,
    the free of the word included.  The count travels as the pointer value
    itself; in [(void * ) (long) oldCount+1] the cast applies to [oldCount]
    and the sum is taken on the pointer, by GCC in bytes. *)
Definition processFile_body (h : hashtable_s) (m : memory) (word : Z)
    : run (hashtable_s * memory) :=
  s ← lift (load_string m word);
  data ← lift (symtabLookup h m s);
  '(h, m) ←
    (if data =? NULL then
       '(r, h, m) ← lift (symtabInstall h m s 1);
       if r =? 0 then
         Stop (Exit (-1) ("symtabInstall failed on initial install - aborting!" +:+ nl))
       else Done (h, m)
     else
       let oldCount := u32 data in
       '(r, h, m) ← lift (symtabInstall h m s (oldCount + 1));
       if r =? 0 then
         Stop (Exit (-1) ("symtabInstall failed on re-install - aborting!" +:+ nl))
       else Done (h, m));
  m ← lift (free_chars m word);
  Done (h, m).

(** while (word != NULL) { ...; free(word); word = getWord(fp); } *)
Fixpoint processFile_loop (fuel : nat) (fp : list ascii) (h : hashtable_s)
    (m : memory) (word : Z) : run (hashtable_s * memory) :=
  match fuel with
  | O => Stop (Undefined Diverges)
  | S fuel' =>
      if word =? NULL then Done (h, m)
      else
        '(h, m) ← processFile_body h m word;
        '(word, fp, m) ← getWord (word_fuel fp) fp m;
        processFile_loop fuel' fp h m word
  end.

(** The files that fopen can open are the keys of [fs].  The result is (the
    text written to stderr, table, memory).  The loop runs once for each
    word of the file, so that the fuel of getWord bounds it as well. *)
Definition processFile (fs : gmap string (list ascii)) (filename : string)
    (h : hashtable_s) (m : memory) : run (list string * hashtable_s * memory) :=
  match fs !! filename with
  | None => Done (["could not open " +:+ filename +:+ ": ignored." +:+ nl], h, m)
  | Some fp =>
      '(word, fp', m) ← getWord (word_fuel fp) fp m;
      '(h, m) ← processFile_loop (word_fuel fp) fp' h m word;
      Done ([], h, m)
  end.

(** ** Counting, as the header of main.c describes it *)

(** One more occurrence of a word. *)
Definition count_one (counts : gmap string Z) (w : string) : gmap string Z :=
  <[w := default 0 (counts !! w) + 1]> counts.

Definition count_words (ws : list string) (counts : gmap string Z) : gmap string Z :=
  foldl count_one counts ws.

(** What the loop body stores for a word when [lookup] returns [v]. *)
Definition next_count (v : Z) : Z := if u32 v =? 0 then 1 else u32 v + 1.

(** The key fields of all entry nodes satisfy [K]. *)
Definition keys_in (K : Z → Prop) (m : memory) : Prop :=
  ∀ a e, entries m !! a = Some e → K (key e).

(** Every key field points below the allocation frontier. *)
Definition keys_bounded (m : memory) : Prop := keys_in (λ k, k < brk m) m.

(** No two keys of [ks] select the same bucket. *)
Definition collision_free (h : hashtable_s) (ks : list string) : Prop :=
  ∀ k1 k2, k1 ∈ ks → k2 ∈ ks → hash h k1 = hash h k2 → k1 = k2.

(** ** main *)

(** A local array of int, unsigned int or pointer. *)
Definition array_get (a : list Z) (i : Z) : run Z :=
  if (i <? 0) || (Z.of_nat (length a) <=? i) then Stop (Undefined OutOfBounds)
  else match a !! Z.to_nat i with
       | Some x => Done x
       | None => Stop (Undefined OutOfBounds)
       end.

Definition array_set (a : list Z) (i x : Z) : run (list Z) :=
  if (i <? 0) || (Z.of_nat (length a) <=? i) then Stop (Undefined OutOfBounds)
  else Done (<[Z.to_nat i := x]> a).

(** for (i = TOP_COUNTS-1; i >= 0; i--) { if (count < topCounts[i]) break; }
    The result is [i] at loop exit. *)
Fixpoint main_slot (fuel : nat) (i count : Z) (topCounts : list Z) : run Z :=
  match fuel with
  | O => Stop (Undefined Diverges)
  | S fuel' =>
      if i >=? 0 then
        c ← array_get topCounts i;
        if count <? c then Done i
        else main_slot fuel' (i - 1) count topCounts
      else Done i
  end.

(** for (j = TOP_COUNTS-1; j > i; j--)
      { topCounts[j] = topCounts[j-1]; topSymbols[j] = topSymbols[j-1]; } *)
Fixpoint main_shift (fuel : nat) (j i : Z) (topCounts topSymbols : list Z)
    : run (list Z * list Z) :=
  match fuel with
  | O => Stop (Undefined Diverges)
  | S fuel' =>
      if j >? i then
        c ← array_get topCounts (j - 1);
        topCounts ← array_set topCounts j c;
        s ← array_get topSymbols (j - 1);
        topSymbols ← array_set topSymbols j s;
        main_shift fuel' (j - 1) i topCounts topSymbols
      else Done (topCounts, topSymbols)
  end.

(** The body of the while loop of main, up to the next call of symtabNext:
    the place of [count] is searched from the bottom, and the lower slots
    move down by one. *)
Definition main_place (count p : Z) (topCounts topSymbols : list Z)
    : run (list Z * list Z) :=
  i ← main_slot (S (Z.to_nat TOP_COUNTS)) (TOP_COUNTS - 1) count topCounts;
  let i := i + 1 in
  if i <? TOP_COUNTS then
    '(topCounts, topSymbols) ←
      main_shift (Z.to_nat TOP_COUNTS) (TOP_COUNTS - 1) i topCounts topSymbols;
    topCounts ← array_set topCounts i count;
    topSymbols ← array_set topSymbols i p;
    Done (topCounts, topSymbols)
  else Done (topCounts, topSymbols).

(** while (p != NULL) { ...; p = symtabNext(iterator, &out); } *)
Fixpoint main_while (fuel : nat) (h : hashtable_s) (m : memory)
    (it : hash_elem_it_s) (p out : Z) (topCounts topSymbols : list Z)
    : run (list Z * list Z) :=
  match fuel with
  | O => Stop (Undefined Diverges)
  | S fuel' =>
      if p =? NULL then Done (topCounts, topSymbols)
      else
        let count := u32 out in
        '(topCounts, topSymbols) ← main_place count p topCounts topSymbols;
        '(p, it, out) ← lift (symtabNext h m it out);
        main_while fuel' h m it p out topCounts topSymbols
  end.

(** for (i = 0; i < TOP_COUNTS; i++)
      { if (topSymbols[i] == NULL) break;
        printf(..., topSymbols[i], topCounts[i]); }
    A line of output is the string and the number that [%d] prints. *)
Fixpoint main_print (fuel : nat) (m : memory) (i : Z)
    (topCounts topSymbols : list Z) : run (list (string * Z)) :=
  match fuel with
  | O => Stop (Undefined Diverges)
  | S fuel' =>
      if i <? TOP_COUNTS then
        p ← array_get topSymbols i;
        if p =? NULL then Done []
        else
          s ← lift (load_string m p);
          c ← array_get topCounts i;
          rest ← main_print fuel' m (i + 1) topCounts topSymbols;
          Done ((s, int_of_uint c) :: rest)
      else Done []
  end.

(** The second half of main: the arrays, the iteration over the table and
    the output.  [fuel] bounds the while loop. *)
Definition main_report (fuel : nat) (h : hashtable_s) (m : memory)
    : run (list (string * Z)) :=
  let topCounts := replicate (Z.to_nat TOP_COUNTS) 0 in
  let topSymbols := replicate (Z.to_nat TOP_COUNTS) NULL in
  '(iterator, m) ← lift (symtabCreateIterator h m);
  match iterator with
  | None => Stop (Undefined NullDeref)
  | Some it =>
      '(p, it, out) ← lift (symtabNext h m it indeterminate);
      '(topCounts, topSymbols) ← main_while fuel h m it p out topCounts topSymbols;
      main_print (S (Z.to_nat TOP_COUNTS)) m 0 topCounts topSymbols
  end.

(** for (i = 1; i < argc; i++) processFile(argv[i], symtab);
    with the text written to stderr. *)
Fixpoint main_files (fs : gmap string (list ascii)) (files : list string)
    (h : hashtable_s) (m : memory) : run (list string * hashtable_s * memory) :=
  match files with
  | [] => Done ([], h, m)
  | f :: files' =>
      '(err, h, m) ← processFile fs f h m;
      '(errs, h, m) ← main_files fs files' h m;
      Done (err ++ errs, h, m)
  end.

(** The result is (stderr, stdout, return value).  A walk over the table
    that takes more steps than there are allocated blocks never ends. *)
Definition main (argv : list string) (fs : gmap string (list ascii))
    (o : list bool) : run (list string * list (string * Z) * Z) :=
  if Z.of_nat (length argv) <? 2 then Done (["no filenames given!" +:+ nl], [], -1)
  else
    match symtabCreate 10000 (empty_memory o) with
    | (None, _) => Done (["symtabCreate failed!" +:+ nl], [], -1)
    | (Some symtab, m) =>
        '(err, symtab, m) ← main_files fs (tail argv) symtab m;
        out ← main_report (Z.to_nat (brk m + 3)) symtab m;
        Done (err, out, 0)
    end.

(** ** The highest counts, as the comments of main describe them *)

(** A (count, symbol) pair goes before the first pair whose count is not
    above its own. *)
Fixpoint top_insert (x : Z * Z) (l : list (Z * Z)) : list (Z * Z) :=
  match l with
  | [] => [x]
  | y :: l' => if x.1 <? y.1 then y :: top_insert x l' else x :: l
  end.

Definition top_sort (l : list (Z * Z)) : list (Z * Z) :=
  foldl (λ acc x, top_insert x acc) [] l.

(** Counts never ascend along the list. *)
Definition descending (l : list (Z * Z)) : Prop :=
  ∀ i j x y, (i < j)%nat → l !! i = Some x → l !! j = Some y → y.1 ≤ x.1.

(** One pass of the while loop of main on the twenty highest pairs. *)
Definition top_step (acc : list (Z * Z)) (x : Z * Z) : list (Z * Z) :=
  take (Z.to_nat TOP_COUNTS) (top_insert x acc).

(** The string in the buffer at [p]. *)
Definition key_string (m : memory) (p : Z) : string :=
  default EmptyString (chars m !! p).

(** (string, count) pairs in descending order of count. *)
Definition by_count (l : list (string * Z)) : Prop :=
  ∀ i j x y, (i < j)%nat → l !! i = Some x → l !! j = Some y → y.2 ≤ x.2.

(** The table that main creates. *)
Definition main_table : hashtable_s :=
  {| size := 10000; table := replicate (Z.to_nat 10000) NULL |}.

(** The words of the files of the command line that can be opened, in
    order, and the messages for the files that cannot. *)
Fixpoint all_words (fs : gmap string (list ascii)) (files : list string)
    : list string :=
  match files with
  | [] => []
  | f :: files' =>
      match fs !! f with Some fp => words fp | None => [] end ++ all_words fs files'
  end.

Fixpoint open_errors (fs : gmap string (list ascii)) (files : list string)
    : list string :=
  match files with
  | [] => []
  | f :: files' =>
      match fs !! f with
      | Some _ => []
      | None => ["could not open " +:+ f +:+ ": ignored." +:+ nl]
      end ++ open_errors fs files'
  end.

(** A file with the words hashing (three times) and tables (twice); "and",
    "a", "table" and "big" are too short. *)
Definition sample_file : list ascii :=
  String.list_ascii_of_string
    "Hashing tables: HASHING, hashing and a table; big Tables!".

Definition sample_files : gmap string (list ascii) :=
  {[ "notes.txt"%string := sample_file ]}.

(** * Properties *)

(** ** The order of strcmp *)

Section Strcmp.

Lemma ascii_compare_refl (c : ascii) : Ascii.compare c c = Eq.
Proof. unfold Ascii.compare. apply N.compare_refl. Qed.

Lemma strcmp_refl (s : string) : strcmp s s = Eq.
Proof.
  unfold strcmp. induction s as [|c s IH]; simpl; [done|].
  by rewrite ascii_compare_refl.
Qed.

Lemma strcmp_eq (s1 s2 : string) : strcmp s1 s2 = Eq ↔ s1 = s2.
Proof.
  split; [apply String.compare_eq_iff|]. intros ->. apply strcmp_refl.
Qed.

Lemma strcmp_flip (s1 s2 : string) : strcmp s1 s2 = Gt ↔ strcmp s2 s1 = Lt.
Proof.
  unfold strcmp. rewrite (String.compare_antisym s2 s1).
  destruct (String.compare s1 s2); simpl; split; congruence.
Qed.

Lemma ascii_compare_lt_trans (a b c : ascii) :
  Ascii.compare a b = Lt → Ascii.compare b c = Lt → Ascii.compare a c = Lt.
Proof.
  unfold Ascii.compare. rewrite !N.compare_lt_iff. lia.
Qed.

Lemma strcmp_lt_trans (s1 s2 s3 : string) :
  strcmp s1 s2 = Lt → strcmp s2 s3 = Lt → strcmp s1 s3 = Lt.
Proof.
  unfold strcmp. revert s2 s3.
  induction s1 as [|a s1 IH]; intros [|b s2] [|c s3]; simpl; try done.
  destruct (Ascii.compare a b) eqn:Hab; try done.
  - apply Ascii.compare_eq_iff in Hab as ->.
    destruct (Ascii.compare b c); try done. apply IH.
  - intros _. destruct (Ascii.compare b c) eqn:Hbc; try done.
    + apply Ascii.compare_eq_iff in Hbc as <-. by rewrite Hab.
    + by rewrite (ascii_compare_lt_trans a b c).
Qed.

End Strcmp.

(** ** Chains in memory *)

Section Chains.

Implicit Types (es : gmap Z entry_s) (cs : gmap Z string) (b : list node).

Lemma lseg_app es cs p q b1 b2 :
  lseg es cs p q (b1 ++ b2) ↔ ∃ r, lseg es cs p r b1 ∧ lseg es cs r q b2.
Proof.
  revert p. induction b1 as [|n b1 IH]; intros p; simpl.
  - split; [intros H; by exists p|]. by intros (r & -> & H).
  - split.
    + intros (Hp & Hn & e & He & Hk & Hs & Hv & Hl).
      apply IH in Hl as (r & H1 & H2). exists r. split; [|done].
      split_and!; [done..|]. exists e. by split_and!.
    + intros (r & (Hp & Hn & e & He & Hk & Hs & Hv & Hl) & H2).
      split_and!; [done..|]. exists e. split_and!; [done..|].
      apply IH. by exists r.
Qed.

(** A chain only depends on the cells of its nodes and on their key buffers. *)
Lemma lseg_frame es cs es' cs' p q b :
  lseg es cs p q b →
  (∀ a, a ∈ n_addr <$> b → es' !! a = es !! a) →
  (∀ k s, cs !! k = Some s → cs' !! k = Some s) →
  lseg es' cs' p q b.
Proof.
  revert p. induction b as [|n b IH]; intros p; simpl; [done|].
  intros (Hp & Hn & e & He & Hk & Hs & Hv & Hl) Hes Hcs.
  split_and!; [done..|]. exists e. split_and!; [|done|by apply Hcs|done|].
  - rewrite Hes; [done|]. subst p. set_solver.
  - apply IH; [done| |done]. intros a Ha. apply Hes. set_solver.
Qed.

Lemma lseg_elem es cs p q b n :
  lseg es cs p q b → n ∈ b →
  ∃ e, es !! n_addr n = Some e ∧ n_addr n ≠ NULL ∧ key e ≠ NULL ∧
       cs !! key e = Some (n_key n) ∧ value e = n_value n ∧
       (next e = q ∨ next e ∈ n_addr <$> b).
Proof.
  revert p. induction b as [|n' b IH]; intros p; simpl; [by intros _ ?%elem_of_nil|].
  intros (Hp & Hn & e & He & Hk & Hs & Hv & Hl) [->|Hin]%elem_of_cons.
  - subst p. exists e. split_and!; [done..|].
    destruct b as [|n2 b]; simpl in Hl; [by left|].
    right. destruct Hl as (-> & _). set_solver.
  - destruct (IH _ Hl Hin) as (e' & ? & ? & ? & ? & ? & Hnx).
    exists e'. split_and!; [done..|]. destruct Hnx; [by left|right; set_solver].
Qed.

Lemma lseg_head_linked es cs p q b :
  lseg es cs p q b → p = q ∨ p ∈ n_addr <$> b.
Proof.
  destruct b as [|n b]; simpl; [by left|]. intros (-> & _). right. set_solver.
Qed.

(** Changing the value of one cell changes the value of the nodes at its
    address and nothing else. *)
Lemma lseg_store_value es cs p q b a e data :
  lseg es cs p q b → es !! a = Some e →
  lseg (<[a := {| key := key e; value := data; next := next e |}]> es) cs p q
    ((λ n, if decide (n_addr n = a) then set_node_value data n else n) <$> b).
Proof.
  intros Hl Ha. revert p Hl. induction b as [|n b IH]; intros p; simpl; [done|].
  intros (Hp & Hn & e' & He & Hk & Hs & Hv & Hl).
  destruct (decide (n_addr n = a)) as [Heq|Hne]; simpl.
  - subst p. rewrite Heq in He |- *. simplify_eq.
    split_and!; [done..|]. eexists. rewrite lookup_insert_eq.
    split_and!; [done..|]. by apply IH.
  - subst p. split_and!; [done..|]. exists e'. rewrite lookup_insert_ne; [|done].
    split_and!; [done..|]. by apply IH.
Qed.

(** Redirecting the next field of the last node of a segment. *)
Lemma lseg_set_last es cs p q r b n e :
  lseg es cs p q (b ++ [n]) → NoDup (n_addr <$> (b ++ [n])) →
  es !! n_addr n = Some e →
  lseg (<[n_addr n := {| key := key e; value := value e; next := r |}]> es) cs p r
    (b ++ [n]).
Proof.
  intros Hl Hnd He. revert p Hl Hnd. induction b as [|n' b IH]; intros p; simpl.
  - intros (Hp & Hn & e' & He' & Hk & Hs & Hv & Hl) _. subst p. simplify_eq.
    split_and!; [done..|]. eexists. rewrite lookup_insert_eq. by split_and!.
  - intros (Hp & Hn & e' & He' & Hk & Hs & Hv & Hl) Hnd.
    apply NoDup_cons in Hnd as [Hni Hnd].
    split_and!; [done..|]. exists e'. rewrite lookup_insert_ne.
    + split_and!; [done..|]. by apply IH.
    + intros Heq. apply Hni. subst p. rewrite <- Heq. set_solver.
Qed.

(** A new node in front of a chain. *)
Lemma lseg_push es cs es' cs' p b a k symbol data :
  lseg es cs p NULL b → a ∉ n_addr <$> b → a ≠ NULL → k ≠ NULL →
  es' !! a = Some {| key := k; value := data; next := p |} →
  cs' !! k = Some symbol →
  (∀ x, x ≠ a → es' !! x = es !! x) →
  (∀ k s, cs !! k = Some s → cs' !! k = Some s) →
  lseg es' cs' a NULL ({| n_addr := a; n_key := symbol; n_value := data |} :: b).
Proof.
  intros Hl Ha Hn Hk Hea Hck Hes Hcs. simpl. split_and!; [done..|].
  eexists. split_and!; [done..|]. simpl.
  eapply lseg_frame; [done| |done]. intros x Hx. apply Hes. by intros ->.
Qed.

(** A new node after the last node [nl] of the part [pre ++ [nl]]. *)
Lemma lseg_splice es cs es' cs' p pre nl post a k symbol data e_l :
  lseg es cs p NULL ((pre ++ [nl]) ++ post) →
  NoDup (n_addr <$> (pre ++ [nl]) ++ post) →
  a ∉ n_addr <$> (pre ++ [nl]) ++ post → a ≠ NULL → k ≠ NULL →
  es !! n_addr nl = Some e_l →
  es' !! n_addr nl = Some {| key := key e_l; value := value e_l; next := a |} →
  es' !! a = Some {| key := k; value := data; next := from_option n_addr NULL (head post) |} →
  cs' !! k = Some symbol →
  (∀ x, x ≠ a → x ≠ n_addr nl → es' !! x = es !! x) →
  (∀ k s, cs !! k = Some s → cs' !! k = Some s) →
  lseg es' cs' p NULL
    ((pre ++ [nl]) ++ {| n_addr := a; n_key := symbol; n_value := data |} :: post).
Proof.
  intros Hl Hnd Ha Hn Hk Hel Hel' Hea Hck Hes Hcs.
  apply lseg_app in Hl as (r & H1 & H2).
  rewrite fmap_app in Hnd, Ha. apply NoDup_app in Hnd as (Hnd1 & Hdis & Hnd2).
  apply not_elem_of_app in Ha as [Ha1 Ha2].
  assert (r = from_option n_addr NULL (head post)) as Hr.
  { destruct post; simpl in *; [done|]. by destruct H2 as (-> & _). }
  apply lseg_app. exists a. split.
  - eapply (lseg_frame (<[n_addr nl := {| key := key e_l; value := value e_l;
                                          next := a |}]> es) cs).
    + by eapply lseg_set_last.
    + intros x Hx. destruct (decide (x = n_addr nl)) as [->|Hne].
      * by rewrite lookup_insert_eq.
      * rewrite lookup_insert_ne by done. apply Hes; [|done]. by intros ->.
    + done.
  - simpl. split_and!; [done..|]. eexists. split_and!; [done..|]. simpl.
    rewrite <- Hr. eapply lseg_frame; [done| |done].
    intros x Hx. apply Hes; [by intros ->|].
    intros ->. apply (Hdis (n_addr nl)); [|done]. rewrite fmap_app. set_solver.
Qed.

Lemma walk_chain m p b fuel :
  chain m p b → (length b < fuel)%nat → walk fuel m p = b.
Proof.
  unfold chain. revert p fuel. induction b as [|n b IH]; intros p fuel; simpl.
  - intros -> Hf. destruct fuel; [lia|]. done.
  - intros (Hp & Hn & e & He & Hk & Hs & Hv & Hl) Hf.
    destruct fuel as [|fuel]; [lia|]. simpl. unfold load_entry, load_string.
    apply Z.eqb_neq in Hn as Hn'. apply Z.eqb_neq in Hk as Hk'.
    rewrite Hn', He, Hk', Hs. f_equal.
    + destruct n; simpl in *; by subst.
    + apply IH; [done|lia].
Qed.

(** Distinct addresses below [brk]: fewer than [brk] of them. *)
Lemma bounded_nodup_length (l : list Z) (n : Z) :
  NoDup l → (∀ x, x ∈ l → 0 < x < n) → (length l < Z.to_nat n)%nat ∨ l = [].
Proof.
  intros Hnd Hb. destruct l as [|x l]; [by right|left].
  assert (0 < n) by (specialize (Hb x); set_solver by lia).
  assert (x :: l ⊆+ seqZ 1 (n - 1)) as Hs.
  { apply NoDup_submseteq; [done|]. intros y Hy. apply elem_of_seqZ.
    specialize (Hb y Hy). lia. }
  apply submseteq_length in Hs. rewrite length_seqZ in Hs. lia.
Qed.

End Chains.

(** ** The scan of symtabInstall *)

Section Scan.

Lemma scan_split_app symbol b pre post :
  scan_split symbol b = (pre, post) → b = pre ++ post.
Proof.
  revert pre post. induction b as [|n b IH]; intros pre post; simpl.
  - by intros [= <- <-].
  - destruct (strcmp symbol (n_key n)); try by intros [= <- <-].
    destruct (scan_split symbol b) as [pre' post'].
    intros [= <- <-]. simpl. f_equal. by apply IH.
Qed.

Lemma scan_split_pre symbol b pre post :
  scan_split symbol b = (pre, post) →
  Forall (λ n, strcmp symbol (n_key n) = Gt) pre.
Proof.
  revert pre post. induction b as [|n b IH]; intros pre post; simpl.
  - by intros [= <- <-].
  - destruct (strcmp symbol (n_key n)) eqn:Hc; try by intros [= <- <-].
    destruct (scan_split symbol b) as [pre' post'].
    intros [= <- <-]. constructor; [done|]. by eapply IH.
Qed.

Lemma scan_split_post symbol b pre post n :
  scan_split symbol b = (pre, n :: post) → strcmp symbol (n_key n) ≠ Gt.
Proof.
  revert pre. induction b as [|n' b IH]; intros pre; simpl; [done|].
  destruct (strcmp symbol (n_key n')) eqn:Hc.
  - intros [= <- <- <-]. by rewrite Hc.
  - intros [= <- <- <-]. by rewrite Hc.
  - destruct (scan_split symbol b) as [pre' post'].
    intros [= <- ->]. by eapply IH.
Qed.

Lemma lseg_head_addr es cs p b : lseg es cs p NULL b → p = head_addr b.
Proof. destruct b; simpl; [done|]. by intros (-> & _). Qed.

Lemma install_scan_spec m symbol b p lst fuel pre post :
  chain m p b → (length b < fuel)%nat →
  scan_split symbol b = (pre, post) →
  install_scan fuel m symbol lst p = Ok (last_addr lst pre, head_addr post).
Proof.
  unfold chain. revert p lst fuel pre. induction b as [|n b IH];
    intros p lst fuel pre; simpl.
  - intros -> Hf [= <- <-]. destruct fuel; [lia|]. done.
  - intros (Hp & Hn & e & He & Hk & Hs & Hv & Hl) Hf Hsp.
    destruct fuel as [|fuel]; [lia|]. simpl. unfold load_entry, load_string.
    apply Z.eqb_neq in Hn as Hn'. apply Z.eqb_neq in Hk as Hk'.
    rewrite Hn', He. simpl. rewrite Hk', Hs. simpl.
    destruct (strcmp symbol (n_key n)) eqn:Hc.
    + injection Hsp as <- <-. by subst p.
    + injection Hsp as <- <-. by subst p.
    + destruct (scan_split symbol b) as [pre' post'] eqn:Hsp'.
      injection Hsp as <- <-.
      rewrite (IH (next e) p fuel pre'); [|done|lia|done].
      assert (last_addr p pre' = last_addr lst (n :: pre')) as ->; [|done].
      unfold last_addr. destruct pre' as [|n' pre']; [by subst p|].
      rewrite last_cons_cons.
      destruct (last (n' :: pre')) eqn:Hlast; [done|].
      by apply last_None in Hlast.
Qed.

Lemma install_found_spec m symbol p b :
  chain m p b → install_found m symbol p = Ok (found_in symbol b).
Proof.
  unfold chain, install_found. destruct b as [|n b]; simpl.
  - by intros ->.
  - intros (Hp & Hn & e & He & Hk & Hs & Hv & Hl). unfold load_entry, load_string.
    apply Z.eqb_neq in Hn as Hn'. apply Z.eqb_neq in Hk as Hk'.
    rewrite Hn', He. simpl. rewrite Hk', Hs. simpl.
    by destruct (strcmp symbol (n_key n)).
Qed.

End Scan.

(** ** Ascending chains *)

Section Ascending.

Lemma ascending_update b1 n b2 data :
  ascending (b1 ++ n :: b2) → ascending (b1 ++ set_node_value data n :: b2).
Proof. unfold ascending. by rewrite !fmap_app. Qed.

Lemma found_in_false symbol n post :
  strcmp symbol (n_key n) ≠ Gt → found_in symbol (n :: post) = false →
  strcmp symbol (n_key n) = Lt.
Proof. simpl. by destruct (strcmp symbol (n_key n)). Qed.

Lemma ascending_insert symbol b pre post a data :
  ascending b → scan_split symbol b = (pre, post) →
  found_in symbol post = false →
  ascending (pre ++ {| n_addr := a; n_key := symbol; n_value := data |} :: post).
Proof.
  intros Hasc Hsp Hnf. pose proof (scan_split_app _ _ _ _ Hsp) as ->.
  pose proof (scan_split_pre _ _ _ _ Hsp) as Hpre.
  unfold ascending in *. rewrite fmap_app in *. simpl.
  apply StronglySorted_app in Hasc as (Hlt & Hs1 & Hs2).
  assert (Forall (key_lt symbol) (n_key <$> post)) as Hpost.
  { destruct post as [|n post]; [constructor|].
    pose proof (found_in_false _ _ _ (scan_split_post _ _ _ _ _ Hsp) Hnf) as Hn.
    simpl in *. apply StronglySorted_cons in Hs2 as [Hall _].
    constructor; [done|]. eapply Forall_impl; [exact Hall|].
    intros s Hs. by eapply strcmp_lt_trans. }
  apply StronglySorted_app. split_and!; [|done|].
  - intros s1 s2 Hs1' [->|Hs2']%elem_of_cons; [|by apply Hlt].
    apply list_elem_of_fmap in Hs1' as (n & -> & Hn).
    rewrite Forall_forall in Hpre. by apply strcmp_flip, Hpre.
  - by apply StronglySorted_cons.
Qed.

(** A key that the scan did not stop at is not in the chain. *)
Lemma scan_absent symbol b pre post :
  ascending b → scan_split symbol b = (pre, post) →
  found_in symbol post = false → symbol ∉ n_key <$> b.
Proof.
  intros Hasc Hsp Hnf.
  pose proof (ascending_insert symbol b pre post 0 0 Hasc Hsp Hnf) as Hins.
  pose proof (scan_split_app _ _ _ _ Hsp) as ->.
  unfold ascending in Hins. rewrite fmap_app in *. simpl in Hins.
  apply StronglySorted_app in Hins as (Hlt & _ & Hs2).
  apply StronglySorted_cons in Hs2 as [Hall _].
  intros [Hin|Hin]%elem_of_app.
  - assert (key_lt symbol symbol) as Hl by (apply Hlt; set_solver).
    unfold key_lt in Hl. by rewrite strcmp_refl in Hl.
  - rewrite Forall_forall in Hall. specialize (Hall symbol Hin).
    unfold key_lt in Hall. by rewrite strcmp_refl in Hall.
Qed.

(** A key that the scan stopped at with an equal key is that node's key. *)
Lemma found_in_true symbol post :
  found_in symbol post = true →
  ∃ n post', post = n :: post' ∧ n_key n = symbol.
Proof.
  destruct post as [|n post']; simpl; [done|].
  destruct (strcmp symbol (n_key n)) eqn:Hc; try done.
  apply strcmp_eq in Hc. eauto.
Qed.

End Ascending.

(** ** Bucket selection *)

Section Hash.

Lemma u32_small x : 0 ≤ x < 2 ^ 32 → u32 x = x.
Proof. intros. unfold u32. by apply Z.mod_small. Qed.

Lemma int_of_uint_small x : 0 ≤ x < 2 ^ 31 → int_of_uint x = x.
Proof.
  intros Hx. unfold int_of_uint. rewrite u32_small by lia.
  destruct (Z.ltb_spec x (2 ^ 31)); lia.
Qed.

Lemma hash_range h s : 1 ≤ size h < 2 ^ 31 → 0 ≤ hash h s < size h.
Proof.
  intros Hs. unfold hash. rewrite (u32_small (size h)) by lia.
  apply Z.mod_pos_bound. lia.
Qed.

Lemma table_get_lookup h i p :
  table h !! i = Some p → table_get h (Z.of_nat i) = Ok p.
Proof.
  intros Hp. unfold table_get. destruct (Z.ltb_spec (Z.of_nat i) 0); [lia|].
  by rewrite Nat2Z.id, Hp.
Qed.

Lemma table_get_out h i :
  Z.of_nat (length (table h)) ≤ i → table_get h i = Fault OutOfBounds.
Proof.
  intros Hi. unfold table_get. destruct (Z.ltb_spec i 0); [done|].
  rewrite (lookup_ge_None_2 (table h)); [done|lia].
Qed.

End Hash.

(** ** The representation invariant *)

Section Invariant.

Implicit Types (h : hashtable_s) (m : memory) (bs : list (list node)).

Lemma elem_of_concat {A} (x : A) (ls : list (list A)) :
  x ∈ concat ls ↔ ∃ l, x ∈ l ∧ l ∈ ls.
Proof.
  induction ls as [|l ls IH]; simpl.
  - split; [by intros ?%elem_of_nil|]. by intros (l & _ & ?%elem_of_nil).
  - rewrite elem_of_app, IH. split.
    + intros [H|(l' & H1 & H2)]; [exists l|exists l']; set_solver.
    + intros (l' & H1 & [->|H2]%elem_of_cons); [by left|right; by exists l'].
Qed.

Lemma concat_insert {A} (ls : list (list A)) i l :
  ls !! i = Some l →
  ∃ l1 l2, concat ls = l1 ++ l ++ l2 ∧
           ∀ l', concat (<[i := l']> ls) = l1 ++ l' ++ l2.
Proof.
  intros Hl. exists (concat (take i ls)), (concat (drop (S i) ls)). split.
  - rewrite <- (take_drop_middle ls i l Hl) at 1. by rewrite concat_app.
  - intros l'. rewrite insert_take_drop by (by eapply lookup_lt_Some).
    by rewrite concat_app.
Qed.

Lemma chains_frame m m' (t : list Z) bs :
  Forall2 (chain m) t bs →
  (∀ a, a ∈ n_addr <$> concat bs → entries m' !! a = entries m !! a) →
  (∀ k s, chars m !! k = Some s → chars m' !! k = Some s) →
  Forall2 (chain m') t bs.
Proof.
  intros Hf. induction Hf as [|p b t bs Hc Hf IH]; intros Hes Hcs; [constructor|].
  simpl in Hes. rewrite fmap_app in Hes. constructor.
  - eapply lseg_frame; [exact Hc| |done]. intros a Ha. apply Hes. set_solver.
  - apply IH; [|done]. intros a Ha. apply Hes. set_solver.
Qed.

Lemma inv_split h m bs i b :
  table_inv h m bs → bs !! i = Some b →
  ∃ t1 p t2 bs1 bs2,
    table h = t1 ++ p :: t2 ∧ bs = bs1 ++ b :: bs2 ∧
    length t1 = i ∧ length bs1 = i ∧
    Forall2 (chain m) t1 bs1 ∧ chain m p b ∧ Forall2 (chain m) t2 bs2.
Proof.
  intros Hinv Hb. pose proof (inv_chain _ _ _ Hinv) as Hf.
  destruct (Forall2_lookup_r _ _ _ _ _ Hf Hb) as (p & Hp & Hc).
  exists (take i (table h)), p, (drop (S i) (table h)),
    (take i bs), (drop (S i) bs).
  apply lookup_lt_Some in Hp as Hlt. apply lookup_lt_Some in Hb as Hlt'.
  split_and!.
  - by rewrite take_drop_middle.
  - by rewrite take_drop_middle.
  - rewrite length_take. lia.
  - rewrite length_take. lia.
  - by apply Forall2_take.
  - done.
  - by apply Forall2_drop.
Qed.

Lemma inv_bucket h m bs symbol :
  table_inv h m bs →
  ∃ p b, table h !! Z.to_nat (hash h symbol) = Some p ∧
         bs !! Z.to_nat (hash h symbol) = Some b ∧ chain m p b ∧
         table_get h (int_of_uint (hash h symbol)) = Ok p.
Proof.
  intros Hinv. pose proof (hash_range h symbol (inv_size _ _ _ Hinv)) as Hr.
  pose proof (inv_size _ _ _ Hinv) as Hs.
  pose proof (inv_length _ _ _ Hinv) as Hl.
  destruct (lookup_lt_is_Some_2 (table h) (Z.to_nat (hash h symbol))) as [p Hp];
    [lia|].
  destruct (Forall2_lookup_l _ _ _ _ _ (inv_chain _ _ _ Hinv) Hp) as (b & Hb & Hc).
  exists p, b. split_and!; [done..|].
  rewrite int_of_uint_small by lia.
  rewrite <- (Z2Nat.id (hash h symbol)) by lia. by apply table_get_lookup.
Qed.

Lemma inv_node h m bs i b n :
  table_inv h m bs → bs !! i = Some b → n ∈ b →
  ∃ e, entries m !! n_addr n = Some e ∧ 0 < n_addr n < brk m ∧ key e ≠ NULL ∧
       chars m !! key e = Some (n_key n) ∧ value e = n_value n ∧
       linked bs (next e).
Proof.
  intros Hinv Hb Hn.
  destruct (inv_split _ _ _ _ _ Hinv Hb)
    as (t1 & p & t2 & bs1 & bs2 & Ht & -> & _ & _ & _ & Hc & _).
  destruct (lseg_elem _ _ _ _ _ _ Hc Hn) as (e & He & _ & Hk & Hs & Hv & Hnx).
  exists e. split_and!; [done|by eapply inv_entries|by eapply inv_entries|done..|].
  destruct Hnx as [Hnx|Hnx]; [by left|right].
  rewrite concat_app, fmap_app. simpl. rewrite fmap_app. set_solver.
Qed.

Lemma inv_concat_node h m bs a :
  table_inv h m bs → a ∈ n_addr <$> concat bs →
  ∃ e, entries m !! a = Some e ∧ 0 < a < brk m ∧ key e ≠ NULL ∧
       is_Some (chars m !! key e) ∧ linked bs (next e).
Proof.
  intros Hinv (n & -> & Hn)%list_elem_of_fmap.
  apply elem_of_concat in Hn as (b & Hn & Hb).
  apply list_elem_of_lookup in Hb as [i Hb].
  destruct (inv_node _ _ _ _ _ _ Hinv Hb Hn) as (e & ? & ? & ? & ? & ? & ?).
  exists e. split_and!; [done|lia|lia|done|by eexists|done].
Qed.

Lemma inv_bucket_nodup h m bs i b :
  table_inv h m bs → bs !! i = Some b → NoDup (n_addr <$> b).
Proof.
  intros Hinv Hb. pose proof (inv_nodup _ _ _ Hinv) as Hnd.
  rewrite <- (take_drop_middle bs i b Hb) in Hnd.
  rewrite concat_app, fmap_app in Hnd. simpl in Hnd. rewrite fmap_app in Hnd.
  apply NoDup_app in Hnd as (_ & _ & Hnd). by apply NoDup_app in Hnd as (? & _).
Qed.

Lemma inv_bucket_length h m bs i b :
  table_inv h m bs → bs !! i = Some b → (length b < scan_fuel m)%nat.
Proof.
  intros Hinv Hb. unfold scan_fuel.
  destruct (bounded_nodup_length (n_addr <$> b) (brk m)) as [Hl|Hl].
  - by eapply inv_bucket_nodup.
  - intros x (n & -> & Hn)%list_elem_of_fmap.
    destruct (inv_node _ _ _ _ _ _ Hinv Hb Hn) as (e & ? & ? & _). done.
  - by rewrite length_fmap in Hl.
  - apply fmap_nil_inv in Hl as ->. simpl. pose proof (inv_brk _ _ _ Hinv). lia.
Qed.

(** Under the invariant, [contents] computes the chains. *)
Lemma contents_inv h m bs : table_inv h m bs → contents h m = bs.
Proof.
  intros Hinv. unfold contents. apply list_eq. intros i.
  rewrite list_lookup_fmap.
  destruct (bs !! i) as [b|] eqn:Hb.
  - destruct (Forall2_lookup_r _ _ _ _ _ (inv_chain _ _ _ Hinv) Hb) as (p & -> & Hc).
    simpl. f_equal. apply walk_chain; [done|]. by eapply inv_bucket_length.
  - apply lookup_ge_None in Hb.
    rewrite <- (Forall2_length _ _ _ (inv_chain _ _ _ Hinv)) in Hb.
    apply lookup_ge_None in Hb. by rewrite Hb.
Qed.

(** Replacing the chain of one bucket. *)
Lemma table_inv_replace h m bs i b p' b' m' :
  table_inv h m bs → bs !! i = Some b →
  (∀ a, a ∈ n_addr <$> concat bs → a ∉ n_addr <$> b →
        entries m' !! a = entries m !! a) →
  (∀ k s, chars m !! k = Some s → chars m' !! k = Some s) →
  (∀ a e, entries m' !! a = Some e → 0 < a < brk m') →
  (∀ a s, chars m' !! a = Some s → 0 < a < brk m') →
  0 < brk m' →
  chain m' p' b' →
  NoDup (n_addr <$> b') →
  (∀ a, a ∈ n_addr <$> b' → a ∈ n_addr <$> b ∨ brk m ≤ a) →
  ascending b' →
  (∀ n, n ∈ b' → hash h (n_key n) = Z.of_nat i) →
  table_inv {| size := size h; table := <[i := p']> (table h) |} m'
    (<[i := b']> bs).
Proof.
  intros Hinv Hb Hes Hcs Hbe Hbc Hbrk Hc Hnd Hfresh Hasc Hhash.
  destruct (inv_split _ _ _ _ _ Hinv Hb)
    as (t1 & p & t2 & bs1 & bs2 & Ht & Hbs & Hl1 & Hl2 & Hf1 & _ & Hf2).
  pose proof (inv_nodup _ _ _ Hinv) as Hnd0.
  rewrite Hbs, concat_app, fmap_app in Hnd0. simpl in Hnd0.
  rewrite fmap_app in Hnd0.
  apply NoDup_app in Hnd0 as (Hnd1 & Hd1 & Hnd0).
  apply NoDup_app in Hnd0 as (_ & Hd2 & Hnd2).
  assert (∀ a, a ∈ n_addr <$> concat bs → 0 < a < brk m) as Hrange.
  { intros a Ha. by destruct (inv_concat_node _ _ _ _ Hinv Ha) as (? & ? & ? & _). }
  assert (<[i := b']> bs = bs1 ++ b' :: bs2) as Hbs'.
  { rewrite Hbs, insert_app_r_alt by lia. by replace (i - length bs1)%nat with O by lia. }
  assert (<[i := p']> (table h) = t1 ++ p' :: t2) as Ht'.
  { rewrite Ht, insert_app_r_alt by lia. by replace (i - length t1)%nat with O by lia. }
  split; simpl.
  - by apply (inv_size _ _ _ Hinv).
  - rewrite length_insert. by apply (inv_length _ _ _ Hinv).
  - done.
  - done.
  - done.
  - rewrite Hbs', Ht'. apply Forall2_app; [|constructor; [done|]].
    + eapply chains_frame; [done| |done]. intros a Ha. apply Hes.
      * rewrite Hbs, concat_app, fmap_app. set_solver.
      * intros Hab. apply (Hd1 a Ha). set_solver.
    + eapply chains_frame; [done| |done]. intros a Ha. apply Hes.
      * rewrite Hbs, concat_app, fmap_app. simpl. rewrite fmap_app. set_solver.
      * intros Hab. by apply (Hd2 a).
  - rewrite Hbs', concat_app, fmap_app. simpl. rewrite fmap_app.
    apply NoDup_app. split_and!; [done| |].
    + intros a Ha [Hab|Ha2]%elem_of_app.
      * destruct (Hfresh a Hab) as [Hab'|Hge].
        -- apply (Hd1 a Ha). set_solver.
        -- assert (0 < a < brk m); [|lia]. apply Hrange.
           rewrite Hbs, concat_app, fmap_app. set_solver.
      * apply (Hd1 a Ha). set_solver.
    + apply NoDup_app. split_and!; [done| |done].
      intros a Hab Ha2. destruct (Hfresh a Hab) as [Hab'|Hge].
      * by apply (Hd2 a).
      * assert (0 < a < brk m); [|lia]. apply Hrange.
        rewrite Hbs, concat_app, fmap_app. simpl. rewrite fmap_app. set_solver.
  - apply Forall_insert; [by apply (inv_sorted _ _ _ Hinv)|done].
  - intros j bj n Hj Hn.
    destruct (decide (i = j)) as [<-|Hne].
    + rewrite list_lookup_insert_eq in Hj by (by eapply lookup_lt_Some).
      injection Hj as <-. by apply Hhash.
    + rewrite list_lookup_insert_ne in Hj by done.
      by apply (inv_hash _ _ _ Hinv j bj n).
Qed.

End Invariant.

(** ** symtabInstall *)

Section Install.

Implicit Types (h : hashtable_s) (m : memory) (bs : list (list node)).

Lemma bind_ok {A B} (a : A) (k : A → result B) : (Ok a ≫= k) = k a.
Proof. done. Qed.

Lemma malloc_granted m :
  head (oracle m) ≠ Some false →
  malloc m = (brk m, {| entries := entries m; chars := chars m;
                        brk := brk m + 1; oracle := tail (oracle m) |}).
Proof. unfold malloc. by destruct (oracle m) as [|[] o]. Qed.

Lemma malloc_refused m o :
  oracle m = false :: o →
  malloc m = (NULL, {| entries := entries m; chars := chars m;
                       brk := brk m; oracle := o |}).
Proof. unfold malloc. by intros ->. Qed.

Lemma granted_2 m :
  granted 2 m ↔
  head (oracle m) ≠ Some false ∧ head (tail (oracle m)) ≠ Some false.
Proof.
  unfold granted. destruct (oracle m) as [|[] [|[] o]]; simpl;
    rewrite ?Forall_cons, ?Forall_nil; naive_solver.
Qed.

Lemma load_entry_ok m p e :
  p ≠ NULL → entries m !! p = Some e → load_entry m p = Ok e.
Proof.
  intros Hp He. unfold load_entry. apply Z.eqb_neq in Hp. by rewrite Hp, He.
Qed.

Lemma set_next_ok m p n e :
  p ≠ NULL → entries m !! p = Some e →
  set_next m p n = Ok (store_entry m p {| key := key e; value := value e; next := n |}).
Proof. intros Hp He. unfold set_next. by rewrite (load_entry_ok m p e). Qed.

Lemma set_value_ok m p v e :
  p ≠ NULL → entries m !! p = Some e →
  set_value m p v = Ok (store_entry m p {| key := key e; value := v; next := next e |}).
Proof. intros Hp He. unfold set_value. by rewrite (load_entry_ok m p e). Qed.

Lemma set_key_ok m p k e :
  p ≠ NULL → entries m !! p = Some e →
  set_key m p k = Ok (store_entry m p {| key := k; value := value e; next := next e |}).
Proof. intros Hp He. unfold set_key. by rewrite (load_entry_ok m p e). Qed.

Lemma strcpy_ok m dst src s :
  dst ≠ NULL → chars m !! dst = Some s →
  strcpy m dst src = Ok {| entries := entries m; chars := <[dst := src]> (chars m);
                           brk := brk m; oracle := oracle m |}.
Proof.
  intros Hp Hs. unfold strcpy. apply Z.eqb_neq in Hp. by rewrite Hp, Hs.
Qed.

Lemma table_set_ok h i p :
  (i < length (table h))%nat →
  table_set h (Z.of_nat i) p = Ok {| size := size h; table := <[i := p]> (table h) |}.
Proof.
  intros Hi. unfold table_set.
  destruct (Z.ltb_spec (Z.of_nat i) 0); [lia|].
  destruct (Z.leb_spec (Z.of_nat (length (table h))) (Z.of_nat i)); [lia|].
  simpl. by rewrite Nat2Z.id.
Qed.

(** The entry of the scan into the chain of the selected bucket. *)
Lemma install_prefix h m bs symbol b pre post :
  table_inv h m bs →
  bs !! Z.to_nat (hash h symbol) = Some b →
  scan_split symbol b = (pre, post) →
  ∃ p, table h !! Z.to_nat (hash h symbol) = Some p ∧ chain m p b ∧
    int_of_uint (hash h symbol) = Z.of_nat (Z.to_nat (hash h symbol)) ∧
    table_get h (int_of_uint (hash h symbol)) = Ok p ∧
    install_scan (scan_fuel m) m symbol NULL p
      = Ok (last_addr NULL pre, head_addr post) ∧
    install_found m symbol (head_addr post) = Ok (found_in symbol post).
Proof.
  intros Hinv Hb Hsp.
  destruct (inv_bucket h m bs symbol Hinv) as (p & b0 & Hp & Hb0 & Hc & Hget).
  rewrite Hb in Hb0. injection Hb0 as <-.
  pose proof (hash_range h symbol (inv_size _ _ _ Hinv)) as Hr.
  pose proof (inv_size _ _ _ Hinv) as Hsz.
  exists p. split_and!; [done..| | | |].
  - rewrite int_of_uint_small; lia.
  - done.
  - apply (install_scan_spec m symbol b); [done| |done].
    by eapply inv_bucket_length.
  - apply install_found_spec. unfold chain in *.
    rewrite (scan_split_app _ _ _ _ Hsp) in Hc.
    apply lseg_app in Hc as (r & _ & Hpost).
    by rewrite <- (lseg_head_addr _ _ _ _ Hpost).
Qed.

(** The key is in the chain: its value is overwritten in place. *)
Lemma install_update h m bs symbol data b pre n post :
  table_inv h m bs →
  bs !! Z.to_nat (hash h symbol) = Some b →
  scan_split symbol b = (pre, n :: post) →
  found_in symbol (n :: post) = true →
  ∃ e, entries m !! n_addr n = Some e ∧
    symtabInstall h m symbol data
      = Ok (1, h, store_entry m (n_addr n)
                    {| key := key e; value := data; next := next e |}) ∧
    table_inv h (store_entry m (n_addr n)
                   {| key := key e; value := data; next := next e |})
      (<[Z.to_nat (hash h symbol) := pre ++ set_node_value data n :: post]> bs).
Proof.
  intros Hinv Hb Hsp Hf.
  destruct (install_prefix _ _ _ _ _ _ _ Hinv Hb Hsp)
    as (p & Hp & Hc & Hbin & Hget & Hscan & Hfound).
  pose proof (scan_split_app _ _ _ _ Hsp) as Happ.
  assert (n ∈ b) as Hn by (rewrite Happ; set_solver).
  destruct (inv_node _ _ _ _ _ _ Hinv Hb Hn) as (e & He & Hrange & Hk & Hs & Hv & _).
  assert (n_addr n ≠ NULL) as Hnn by (unfold NULL; lia).
  exists e. split; [done|]. split.
  - unfold symtabInstall. rewrite Hget, bind_ok, Hscan, bind_ok, Hfound, bind_ok, Hf.
    simpl head_addr. by rewrite (set_value_ok _ _ _ e), bind_ok.
  - pose proof (inv_bucket_nodup _ _ _ _ _ Hinv Hb) as Hnd.
    replace h with {| size := size h;
                      table := <[Z.to_nat (hash h symbol) := p]> (table h) |} at 1
      by (rewrite list_insert_id by done; by destruct h).
    eapply (table_inv_replace h m bs _ b); try done; simpl.
    + intros a _ Ha. rewrite lookup_insert_ne; [done|].
      intros <-. apply Ha. by apply list_elem_of_fmap_2.
    + intros a e' [[<- <-]|[_ He']]%lookup_insert_Some; [done|].
      by eapply inv_entries.
    + by eapply inv_chars.
    + by eapply inv_brk.
    + unfold chain in *. simpl.
      pose proof (lseg_store_value _ _ _ _ _ _ _ data Hc He) as Hc'.
      assert ((λ n0, if decide (n_addr n0 = n_addr n)
                     then set_node_value data n0 else n0) <$> b
              = pre ++ set_node_value data n :: post) as <-; [|done].
      rewrite Happ in Hnd |- *. rewrite fmap_app in Hnd.
      apply NoDup_app in Hnd as (_ & Hd & Hnd). simpl in Hnd.
      apply NoDup_cons in Hnd as [Hni _].
      rewrite fmap_app. simpl. rewrite decide_True by done. f_equal; [|f_equal].
      * rewrite <- (list_fmap_id pre) at 2. apply list_fmap_ext.
        intros i x Hx. rewrite decide_False; [done|].
        intros Heq. apply (Hd (n_addr n)); [|set_solver].
        rewrite <- Heq. apply list_elem_of_fmap_2. by eapply list_elem_of_lookup_2.
      * rewrite <- (list_fmap_id post) at 2. apply list_fmap_ext.
        intros i x Hx. rewrite decide_False; [done|].
        intros Heq. apply Hni. rewrite <- Heq.
        apply list_elem_of_fmap_2. by eapply list_elem_of_lookup_2.
    + rewrite Happ in Hnd. by rewrite !fmap_app in *.
    + intros a Ha. left. rewrite Happ. by rewrite !fmap_app in *.
    + apply ascending_update. rewrite <- Happ.
      pose proof (inv_sorted _ _ _ Hinv) as Hall. rewrite Forall_forall in Hall.
      apply Hall. by eapply list_elem_of_lookup_2.
    + intros n' Hn'. assert (∃ n0, n0 ∈ b ∧ n_key n0 = n_key n') as (n0 & Hn0 & <-).
      { rewrite Happ. apply elem_of_app in Hn' as [?|[->|?]%elem_of_cons].
        - exists n'. set_solver.
        - exists n. set_solver.
        - exists n'. set_solver. }
      by eapply (inv_hash _ _ _ Hinv).
Qed.

(** Pointer facts at the exit of the scan. *)
Lemma scan_exit es cs p pre post :
  lseg es cs p NULL (pre ++ post) → NoDup (n_addr <$> pre ++ post) →
  (pre = [] → head_addr post = p) ∧
  (pre ≠ [] → head_addr post ≠ p) ∧
  (head_addr post = NULL → post = []).
Proof.
  intros Hl Hnd. split_and!.
  - intros ->. symmetry. by apply (lseg_head_addr es cs).
  - intros Hne. destruct pre as [|n pre]; [done|]. simpl in Hl.
    destruct Hl as (-> & Hn & _). destruct post as [|n' post]; [done|].
    simpl. intros Heq. simpl in Hnd.
    apply NoDup_cons in Hnd as [Hni _]. apply Hni. rewrite <- Heq.
    rewrite fmap_app. set_solver.
  - destruct post as [|n' post]; [done|]. simpl. intros Heq.
    apply lseg_app in Hl as (r & _ & Hl). simpl in Hl.
    by destruct Hl as (-> & Hn & _).
Qed.

(** The invariant after the insertion of a new node. *)
Lemma insert_inv h m bs symbol data b pre post p' m' :
  table_inv h m bs →
  bs !! Z.to_nat (hash h symbol) = Some b →
  scan_split symbol b = (pre, post) →
  found_in symbol post = false →
  chain m' p' (pre ++ {| n_addr := brk m; n_key := symbol; n_value := data |} :: post) →
  (∀ a, a ∈ n_addr <$> concat bs → a ∉ n_addr <$> b →
        entries m' !! a = entries m !! a) →
  chars m' = <[brk m + 1 := symbol]> (chars m) →
  (∀ a e, entries m' !! a = Some e → 0 < a < brk m + 2) →
  brk m' = brk m + 2 →
  table_inv {| size := size h;
               table := <[Z.to_nat (hash h symbol) := p']> (table h) |} m'
    (<[Z.to_nat (hash h symbol) :=
         pre ++ {| n_addr := brk m; n_key := symbol; n_value := data |} :: post]> bs).
Proof.
  intros Hinv Hb Hsp Hnf Hc Hes Hcs Hbe Hbrk'.
  pose proof (scan_split_app _ _ _ _ Hsp) as Happ.
  pose proof (inv_bucket_nodup _ _ _ _ _ Hinv Hb) as Hnd.
  pose proof (inv_brk _ _ _ Hinv) as Hbrk.
  pose proof (hash_range h symbol (inv_size _ _ _ Hinv)) as Hr.
  assert (∀ a, a ∈ n_addr <$> b → a ≠ brk m) as Hold.
  { intros a (n & -> & Hn)%list_elem_of_fmap Heq.
    destruct (inv_node _ _ _ _ _ _ Hinv Hb Hn) as (e & _ & ? & _). lia. }
  eapply (table_inv_replace h m bs _ b); try done.
  - intros k s Hk. rewrite Hcs. rewrite lookup_insert_ne; [done|].
    intros <-. apply (inv_chars _ _ _ Hinv) in Hk. lia.
  - intros a e He. rewrite Hbrk'. by eapply Hbe.
  - intros a s. rewrite Hcs, Hbrk'.
    intros [[<- _]|[_ Hs]]%lookup_insert_Some; [lia|].
    apply (inv_chars _ _ _ Hinv) in Hs. lia.
  - lia.
  - rewrite Happ in Hnd, Hold. rewrite fmap_app in *. simpl.
    apply NoDup_app in Hnd as (Hnd1 & Hd & Hnd2).
    apply NoDup_app. split_and!; [done| |].
    + intros a Ha [->|Ha']%elem_of_cons; [|by eapply Hd].
      apply (Hold (brk m)); [set_solver|done].
    + apply NoDup_cons. split; [|done]. intros Ha.
      apply (Hold (brk m)); [set_solver|done].
  - intros a. rewrite Happ, !fmap_app. simpl.
    intros [?|[->|?]%elem_of_cons]%elem_of_app; [left|right|left]; set_solver by lia.
  - apply (ascending_insert symbol b); [|done..].
    pose proof (inv_sorted _ _ _ Hinv) as Hall. rewrite Forall_forall in Hall.
    apply Hall. by eapply list_elem_of_lookup_2.
  - intros n [Hn|[->|Hn]%elem_of_cons]%elem_of_app.
    + apply (inv_hash _ _ _ Hinv _ b); [done|]. rewrite Happ. set_solver.
    + simpl. lia.
    + apply (inv_hash _ _ _ Hinv _ b); [done|]. rewrite Happ. set_solver.
Qed.

(** The key is not in the chain and both requests to malloc are granted:
    a new node, at the place where the scan stopped. *)
Lemma install_insert h m bs symbol data b pre post :
  table_inv h m bs →
  bs !! Z.to_nat (hash h symbol) = Some b →
  scan_split symbol b = (pre, post) →
  found_in symbol post = false →
  granted 2 m →
  ∃ h' m',
    symtabInstall h m symbol data = Ok (1, h', m') ∧
    table_inv h' m'
      (<[Z.to_nat (hash h symbol) :=
           pre ++ {| n_addr := brk m; n_key := symbol; n_value := data |} :: post]> bs) ∧
    size h' = size h ∧
    chars m' = <[brk m + 1 := symbol]> (chars m) ∧
    (∀ a e, entries m !! a = Some e → a ∉ n_addr <$> b → entries m' !! a = Some e) ∧
    brk m' = brk m + 2 ∧ oracle m' = drop 2 (oracle m).
Proof.
  intros Hinv Hb Hsp Hnf [Hg1 Hg2]%granted_2.
  destruct (install_prefix _ _ _ _ _ _ _ Hinv Hb Hsp)
    as (p & Hp & Hc & Hbin & Hget & Hscan & Hfound).
  pose proof (scan_split_app _ _ _ _ Hsp) as Happ.
  pose proof (inv_bucket_nodup _ _ _ _ _ Hinv Hb) as Hnd.
  pose proof (inv_brk _ _ _ Hinv) as Hbrk.
  assert (brk m ≠ NULL) as Hnn by (unfold NULL; lia).
  assert (brk m + 1 ≠ NULL) as Hnn1 by (unfold NULL; lia).
  assert (entries m !! brk m = None) as Hfresh.
  { destruct (entries m !! brk m) eqn:E; [|done].
    apply (inv_entries _ _ _ Hinv) in E. lia. }
  assert (chars m !! (brk m + 1) = None) as Hfreshk.
  { destruct (chars m !! (brk m + 1)) eqn:E; [|done].
    apply (inv_chars _ _ _ Hinv) in E. lia. }
  assert (∀ a, a ∈ n_addr <$> b → a ≠ brk m) as Hold.
  { intros a (n & -> & Hn)%list_elem_of_fmap Heq.
    destruct (inv_node _ _ _ _ _ _ Hinv Hb Hn) as (e & _ & Hr & _). lia. }
  pose proof Hc as Hc0. unfold chain in Hc0. rewrite Happ in Hc0, Hnd.
  destruct (scan_exit _ _ _ _ _ Hc0 Hnd) as (Hex1 & Hex2 & Hex3).
  unfold symtabInstall.
  rewrite Hget, bind_ok, Hscan, bind_ok, Hfound, bind_ok, Hnf.
  unfold malloc_entry. rewrite (malloc_granted m Hg1).
  apply Z.eqb_neq in Hnn as Hnn'. rewrite Hnn'.
  erewrite set_next_ok; [|done|simpl; apply lookup_insert_eq].
  rewrite bind_ok.
  erewrite set_value_ok; [|done|simpl; apply lookup_insert_eq].
  rewrite bind_ok.
  unfold malloc_chars. rewrite malloc_granted by done. simpl.
  apply Z.eqb_neq in Hnn1 as Hnn1'. rewrite Hnn1'.
  erewrite set_key_ok; [|done|simpl; apply lookup_insert_eq].
  rewrite bind_ok.
  erewrite strcpy_ok; [|done|simpl; apply lookup_insert_eq].
  rewrite bind_ok. simpl. rewrite Hnn'. rewrite !insert_insert_eq.
  destruct (Z.eqb_spec (head_addr post) p) as [Hhead|Hhead].
  - (* new head *)
    assert (pre = []) as ->.
    { destruct pre as [|n pre]; [done|]. by destruct Hex2. }
    simpl in Happ. subst post.
    erewrite set_next_ok; [|done|simpl; apply lookup_insert_eq].
    rewrite bind_ok, Hbin, table_set_ok, bind_ok by (by eapply lookup_lt_Some).
    unfold store_entry. simpl. rewrite insert_insert_eq.
    eexists _, _. split; [done|]. split_and!; try done; simpl.
    + eapply (insert_inv h m bs symbol data b [] b); try done; simpl.
      * unfold chain. simpl. eapply (lseg_push (entries m) (chars m) _ _ p b (brk m) (brk m + 1)); try done.
        -- intros Ha. by apply (Hold (brk m)).
        -- rewrite lookup_insert_eq. by rewrite Hhead.
        -- apply lookup_insert_eq.
        -- intros x Hx. by rewrite lookup_insert_ne.
        -- intros k s Hk. rewrite lookup_insert_ne; [done|]. congruence.
      * intros a Ha _. rewrite lookup_insert_ne; [done|].
        intros <-. destruct (inv_concat_node _ _ _ _ Hinv Ha) as (? & ? & ? & _). lia.
      * intros a e [[<- _]|[_ He]]%lookup_insert_Some; [lia|].
        apply (inv_entries _ _ _ Hinv) in He. lia.
      * lia.
    + intros a e He _. rewrite lookup_insert_ne; [done|]. congruence.
    + lia.
    + by destruct (oracle m) as [|? [|? ?]].
  - (* after the node [nl] that precedes the exit of the scan *)
    destruct pre as [|nl pre _] using rev_ind; [by destruct Hhead; apply Hex1|].
    assert (last_addr NULL (pre ++ [nl]) = n_addr nl) as ->
      by (unfold last_addr; by rewrite last_snoc).
    assert (nl ∈ b) as Hnl by (rewrite Happ; set_solver).
    destruct (inv_node _ _ _ _ _ _ Hinv Hb Hnl) as (el & Hel & Hrl & _).
    assert (n_addr nl ≠ NULL) as Hnln by (unfold NULL; lia).
    assert (n_addr nl ≠ brk m) as Hnla by lia.
    assert (let m' := {| entries :=
                           <[n_addr nl := {| key := key el; value := value el;
                                             next := brk m |}]>
                             (<[brk m := {| key := brk m + 1; value := data;
                                            next := head_addr post |}]> (entries m));
                         chars := <[brk m + 1 := symbol]> (chars m);
                         brk := brk m + 1 + 1;
                         oracle := tail (tail (oracle m)) |} in
            table_inv h m'
              (<[Z.to_nat (hash h symbol) :=
                   (pre ++ [nl]) ++ {| n_addr := brk m; n_key := symbol;
                                       n_value := data |} :: post]> bs) ∧
            size h = size h ∧
            chars m' = <[brk m + 1 := symbol]> (chars m) ∧
            (∀ a e, entries m !! a = Some e → a ∉ n_addr <$> b →
                    entries m' !! a = Some e) ∧
            brk m' = brk m + 2 ∧ oracle m' = drop 2 (oracle m)) as Hfinal.
    { simpl. split_and!; try done.
      - replace h with {| size := size h;
                          table := <[Z.to_nat (hash h symbol) := p]> (table h) |} at 1
          by (rewrite list_insert_id by done; by destruct h).
        eapply (insert_inv h m bs symbol data b (pre ++ [nl]) post); try done; simpl.
        + unfold chain. simpl.
          eapply (lseg_splice (entries m) (chars m) _ _ p pre nl post (brk m) (brk m + 1)
                    symbol data el); try done.
          * intros Ha. by apply (Hold (brk m)); [rewrite Happ|].
          * apply lookup_insert_eq.
          * rewrite lookup_insert_ne by done. apply lookup_insert_eq.
          * apply lookup_insert_eq.
          * intros x Hx1 Hx2. by rewrite !lookup_insert_ne.
          * intros k s Hk. rewrite lookup_insert_ne; [done|]. congruence.
        + intros a Ha Hab. rewrite !lookup_insert_ne; [done| |].
          * intros <-. destruct (inv_concat_node _ _ _ _ Hinv Ha) as (? & ? & ? & _). lia.
          * intros <-. apply Hab. by apply list_elem_of_fmap_2.
        + intros a e [[<- _]|[_ [[<- _]|[_ He]]%lookup_insert_Some]]%lookup_insert_Some;
            [lia..|].
          apply (inv_entries _ _ _ Hinv) in He. lia.
        + lia.
      - intros a e He Hab. rewrite !lookup_insert_ne; [done| |].
        + congruence.
        + intros <-. apply Hab. by apply list_elem_of_fmap_2.
      - lia.
      - by destruct (oracle m) as [|? [|? ?]]. }
    destruct (Z.eqb_spec (head_addr post) NULL) as [Hnull|Hnull].
    + erewrite set_next_ok;
        [|done|simpl; rewrite !lookup_insert_ne by done; exact Hel].
      rewrite bind_ok. unfold store_entry. simpl.
      rewrite Hnull in Hfinal. eexists _, _. split; [done|]. exact Hfinal.
    + erewrite set_next_ok; [|done|simpl; apply lookup_insert_eq].
      rewrite bind_ok.
      erewrite set_next_ok;
        [|done|simpl; rewrite !lookup_insert_ne by done; exact Hel].
      rewrite bind_ok. unfold store_entry. simpl. rewrite insert_insert_eq.
      eexists _, _. split; [done|]. exact Hfinal.
Qed.

(** The key is not in the chain and the node is refused: failure, and
    nothing but the oracle has changed. *)
Lemma install_nomem h m bs symbol data b pre post o :
  table_inv h m bs →
  bs !! Z.to_nat (hash h symbol) = Some b →
  scan_split symbol b = (pre, post) →
  found_in symbol post = false →
  oracle m = false :: o →
  symtabInstall h m symbol data
    = Ok (0, h, {| entries := entries m; chars := chars m; brk := brk m;
                   oracle := o |}).
Proof.
  intros Hinv Hb Hsp Hnf Ho.
  destruct (install_prefix _ _ _ _ _ _ _ Hinv Hb Hsp)
    as (p & Hp & Hc & Hbin & Hget & Hscan & Hfound).
  unfold symtabInstall.
  rewrite Hget, bind_ok, Hscan, bind_ok, Hfound, bind_ok, Hnf.
  unfold malloc_entry. by rewrite (malloc_refused m o Ho).
Qed.

(** The key is not in the chain, the node is granted and the key buffer is
    refused: strcpy writes through NULL. *)
Lemma install_nokey h m bs symbol data b pre post :
  table_inv h m bs →
  bs !! Z.to_nat (hash h symbol) = Some b →
  scan_split symbol b = (pre, post) →
  found_in symbol post = false →
  head (oracle m) ≠ Some false →
  head (tail (oracle m)) = Some false →
  symtabInstall h m symbol data = Fault NullDeref.
Proof.
  intros Hinv Hb Hsp Hnf Hg1 Hg2.
  destruct (install_prefix _ _ _ _ _ _ _ Hinv Hb Hsp)
    as (p & Hp & Hc & Hbin & Hget & Hscan & Hfound).
  pose proof (inv_brk _ _ _ Hinv) as Hbrk.
  assert (brk m ≠ NULL) as Hnn by (unfold NULL; lia).
  unfold symtabInstall.
  rewrite Hget, bind_ok, Hscan, bind_ok, Hfound, bind_ok, Hnf.
  unfold malloc_entry. rewrite (malloc_granted m Hg1).
  apply Z.eqb_neq in Hnn as Hnn'. rewrite Hnn'.
  erewrite set_next_ok; [|done|simpl; apply lookup_insert_eq].
  rewrite bind_ok.
  erewrite set_value_ok; [|done|simpl; apply lookup_insert_eq].
  rewrite bind_ok.
  destruct (tail (oracle m)) as [|[] o] eqn:Ho; simpl in Hg2; try done.
  unfold malloc_chars.
  erewrite malloc_refused; [|simpl; done].
  simpl. rewrite Hnn'.
  erewrite set_key_ok; [|done|simpl; apply lookup_insert_eq].
  by rewrite bind_ok.
Qed.

Lemma install_outcomes h m bs symbol data :
  table_inv h m bs →
  install_outcome h m bs symbol data (symtabInstall h m symbol data).
Proof.
  intros Hinv.
  destruct (inv_bucket h m bs symbol Hinv) as (p & b & Hp & Hb & Hc & Hget).
  destruct (scan_split symbol b) as [pre post] eqn:Hsp.
  assert (ascending b) as Hasc.
  { pose proof (inv_sorted _ _ _ Hinv) as Hall. rewrite Forall_forall in Hall.
    apply Hall. by eapply list_elem_of_lookup_2. }
  destruct (found_in symbol post) eqn:Hf.
  - destruct (found_in_true _ _ Hf) as (n & post' & -> & Hk).
    destruct (install_update h m bs symbol data b pre n post' Hinv Hb Hsp Hf)
      as (e & He & -> & Hinv').
    by eapply outcome_update.
  - pose proof (scan_absent _ _ _ _ Hasc Hsp Hf) as Habs.
    destruct (oracle m) as [|[] o] eqn:Ho.
    + destruct (install_insert h m bs symbol data b pre post Hinv Hb Hsp Hf)
        as (h' & m' & -> & Hinv' & _ & _ & Hes & _).
      { apply granted_2. by rewrite Ho. }
      eapply outcome_insert; [done..| |done|done]. apply granted_2. by rewrite Ho.
    + destruct (decide (head o = Some false)) as [Ho2|Ho2].
      * rewrite (install_nokey h m bs symbol data b pre post); try done.
        -- by eapply outcome_nokey; [done..|by rewrite Ho|by rewrite Ho].
        -- by rewrite Ho.
        -- by rewrite Ho.
      * destruct (install_insert h m bs symbol data b pre post Hinv Hb Hsp Hf)
          as (h' & m' & -> & Hinv' & _ & _ & Hes & _).
        { apply granted_2. by rewrite Ho. }
        eapply outcome_insert; [done..| |done|done]. apply granted_2. by rewrite Ho.
    + rewrite (install_nomem h m bs symbol data b pre post o); try done.
      by eapply outcome_nomem.
Qed.

End Install.

(** ** symtabCreate *)

Section Create.

Lemma clear_buckets_length n i tbl : length (clear_buckets n i tbl) = length tbl.
Proof.
  revert i tbl. induction n as [|n IH]; intros i tbl; simpl; [done|].
  by rewrite IH, length_insert.
Qed.

Lemma clear_buckets_before n i tbl j :
  0 ≤ i → (j < Z.to_nat i)%nat → clear_buckets n i tbl !! j = tbl !! j.
Proof.
  revert i tbl. induction n as [|n IH]; intros i tbl Hi Hj; simpl; [done|].
  rewrite IH by lia. apply list_lookup_insert_ne. lia.
Qed.

Lemma clear_buckets_lookup n i tbl j :
  0 ≤ i → (Z.to_nat i ≤ j < Z.to_nat i + n)%nat → (j < length tbl)%nat →
  clear_buckets n i tbl !! j = Some NULL.
Proof.
  revert i tbl. induction n as [|n IH]; intros i tbl Hi Hj Hl; simpl; [lia|].
  destruct (decide (j = Z.to_nat i)) as [->|Hne].
  - rewrite clear_buckets_before by lia. by apply list_lookup_insert_eq.
  - apply IH; [lia|lia|by rewrite length_insert].
Qed.

Lemma clear_buckets_fresh n x :
  clear_buckets n 0 (replicate n x) = replicate n NULL.
Proof.
  apply list_eq. intros j. destruct (decide (j < n)%nat) as [Hj|Hj].
  - rewrite clear_buckets_lookup; [|lia|lia|by rewrite length_replicate].
    symmetry. by apply lookup_replicate.
  - rewrite !(proj2 (lookup_ge_None _ _));
      rewrite ?clear_buckets_length, ?length_replicate; [done|lia..].
Qed.

Lemma concat_replicate_nil {A} (n : nat) : concat (replicate n (@nil A)) = [].
Proof. induction n as [|n IH]; simpl; [done|exact IH]. Qed.

Lemma symtabCreate_cases sizeHint m :
  0 < brk m →
  (sizeHint < 1 ∧ symtabCreate sizeHint m = (None, m)) ∨
  (1 ≤ sizeHint ∧ ¬ granted 2 m ∧ ∃ m', symtabCreate sizeHint m = (None, m')) ∨
  (1 ≤ sizeHint ∧ granted 2 m ∧
   symtabCreate sizeHint m
     = (Some {| size := sizeHint; table := replicate (Z.to_nat sizeHint) NULL |},
        {| entries := entries m; chars := chars m; brk := brk m + 2;
           oracle := drop 2 (oracle m) |})).
Proof.
  intros Hbrk. unfold symtabCreate.
  destruct (Z.ltb_spec sizeHint 1) as [Hlt|Hge]; [by left|right].
  assert ((brk m =? NULL) = false) as Hn by (apply Z.eqb_neq; unfold NULL; lia).
  assert ((brk m + 1 =? NULL) = false) as Hn1 by (apply Z.eqb_neq; unfold NULL; lia).
  rewrite granted_2. unfold malloc.
  destruct (oracle m) as [|[] [|[] o]] eqn:Ho; simpl; rewrite ?Hn, ?Hn1; simpl.
  - right. split_and!; [done..|]. rewrite clear_buckets_fresh.
    by replace (brk m + 1 + 1) with (brk m + 2) by lia.
  - right. split_and!; [done..|]. rewrite clear_buckets_fresh.
    by replace (brk m + 1 + 1) with (brk m + 2) by lia.
  - right. split_and!; [done..|]. rewrite clear_buckets_fresh.
    by replace (brk m + 1 + 1) with (brk m + 2) by lia.
  - left. split_and!; [done|naive_solver|eauto].
  - left. split_and!; [done|naive_solver|eauto].
  - left. split_and!; [done|naive_solver|eauto].
  - left. split_and!; [done|naive_solver|eauto].
Qed.

Lemma table_inv_create sizeHint o h m :
  - 2 ^ 31 ≤ sizeHint < 2 ^ 31 →
  symtabCreate sizeHint (empty_memory o) = (Some h, m) →
  table_inv h m (replicate (Z.to_nat sizeHint) []).
Proof.
  intros Hr Hc.
  destruct (symtabCreate_cases sizeHint (empty_memory o)) as [[_ H]|[(_ & _ & m' & H)|(Hs & _ & H)]];
    [done|congruence..|].
  rewrite H in Hc. injection Hc as <- <-. split; simpl.
  - lia.
  - by rewrite length_replicate.
  - intros a e. by rewrite lookup_empty.
  - intros a s. by rewrite lookup_empty.
  - lia.
  - apply Forall2_replicate. done.
  - rewrite concat_replicate_nil. constructor.
  - apply Forall_replicate. constructor.
  - intros i b n [-> _]%lookup_replicate. by intros ?%elem_of_nil.
Qed.

End Create.

(** ** Iterators *)

Section Iterators.

Implicit Types (h : hashtable_s) (m : memory) (bs : list (list node)).

Lemma malloc_spec m p m1 :
  malloc m = (p, m1) → 0 < brk m →
  entries m1 = entries m ∧ chars m1 = chars m ∧
  ((p = NULL ∧ brk m1 = brk m) ∨ (p = brk m ∧ brk m1 = brk m + 1)).
Proof.
  unfold malloc. intros Hm Hbrk.
  destruct (oracle m) as [|[] o]; injection Hm as <- <-; simpl; auto.
Qed.

Lemma malloc_entry_spec m p m1 :
  malloc_entry m = (p, m1) → 0 < brk m →
  chars m1 = chars m ∧
  ((p = NULL ∧ entries m1 = entries m ∧ brk m1 = brk m) ∨
   (p = brk m ∧ brk m1 = brk m + 1 ∧
    entries m1 = <[brk m := {| key := indeterminate; value := indeterminate;
                               next := indeterminate |}]> (entries m))).
Proof.
  unfold malloc_entry. intros Hm Hbrk.
  destruct (malloc m) as [p0 m0] eqn:Hm0.
  destruct (malloc_spec _ _ _ Hm0 Hbrk) as (He & Hc & [[-> Hb]|[-> Hb]]).
  - simpl in Hm. injection Hm as <- <-. auto.
  - assert ((brk m =? NULL) = false) as Hn by (apply Z.eqb_neq; unfold NULL; lia).
    rewrite Hn in Hm. injection Hm as <- <-. simpl. rewrite He. auto.
Qed.

(** Memory that only grew leaves the table as it was. *)
Lemma table_inv_extend h m bs m' :
  table_inv h m bs →
  (∀ a, 0 < a < brk m → entries m' !! a = entries m !! a) →
  chars m' = chars m →
  (∀ a e, entries m' !! a = Some e → 0 < a < brk m') →
  brk m ≤ brk m' →
  table_inv h m' bs.
Proof.
  intros Hinv Hes Hcs Hbe Hbrk. split.
  - by apply (inv_size _ _ _ Hinv).
  - by apply (inv_length _ _ _ Hinv).
  - done.
  - intros a s. rewrite Hcs. intros Hs. apply (inv_chars _ _ _ Hinv) in Hs. lia.
  - pose proof (inv_brk _ _ _ Hinv). lia.
  - eapply chains_frame; [by apply (inv_chain _ _ _ Hinv)| |].
    + intros a Ha. apply Hes.
      by destruct (inv_concat_node _ _ _ _ Hinv Ha) as (? & ? & ? & _).
    + intros k s. by rewrite Hcs.
  - by apply (inv_nodup _ _ _ Hinv).
  - by apply (inv_sorted _ _ _ Hinv).
  - by apply (inv_hash _ _ _ Hinv).
Qed.

Lemma table_get_linked h m bs i p :
  table_inv h m bs → table_get h i = Ok p → linked bs p.
Proof.
  intros Hinv. unfold table_get. destruct (i <? 0); [done|].
  destruct (table h !! Z.to_nat i) as [p'|] eqn:Hp; [|done]. intros [= ->].
  destruct (Forall2_lookup_l _ _ _ _ _ (inv_chain _ _ _ Hinv) Hp) as (b & Hb & Hc).
  destruct (lseg_head_linked _ _ _ _ _ Hc) as [?|Hin]; [by left|right].
  rewrite <- (take_drop_middle bs _ b Hb), concat_app, fmap_app. simpl.
  rewrite fmap_app. set_solver.
Qed.

Lemma skip_empty_linked h m bs fuel idx el idx' el' :
  table_inv h m bs → linked bs el →
  skip_empty fuel h m idx el = Ok (idx', el') → linked bs el'.
Proof.
  intros Hinv. revert idx el. induction fuel as [|fuel IH]; intros idx el Hl; simpl;
    [done|].
  destruct (if el =? NULL then Ok false
            else e ← load_entry m el; Ok (negb (key e =? NULL))) as [[]|] eqn:Hstop;
    simpl; [by intros [= <- <-]| |done].
  destruct (table_get h (u32 (idx + 1))) as [el2|] eqn:Hget; simpl; [|done].
  pose proof (table_get_linked _ _ _ _ _ Hinv Hget) as Hl2.
  destruct (u32 (idx + 1) <? u32 (size h - 1)).
  - by apply IH.
  - by intros [= <- <-].
Qed.

Lemma skip_empty_unfold h m fuel idx el :
  skip_empty (S fuel) h m idx el =
    (stop ← (if el =? NULL then Ok false
             else e ← load_entry m el; Ok (negb (key e =? NULL)));
     if stop : bool then Ok (idx, el)
     else
       let idx := u32 (idx + 1) in
       el ← table_get h idx;
       if idx <? u32 (size h - 1) then skip_empty fuel h m idx el
       else Ok (idx, el)).
Proof. done. Qed.

(** The loop over the buckets ends within its fuel. *)
Lemma skip_empty_ends_aux h m fuel idx el :
  0 ≤ idx → idx + 1 < 2 ^ 32 →
  (length (table h) - Z.to_nat idx < fuel)%nat →
  skip_empty fuel h m idx el ≠ Fault Diverges.
Proof.
  revert idx el. induction fuel as [|fuel IH]; intros idx el H0 Hw Hf; simpl; [lia|].
  destruct (if el =? NULL then Ok false
            else e ← load_entry m el; Ok (negb (key e =? NULL))) as [[]|f] eqn:Hstop;
    simpl; [done| |].
  - rewrite (u32_small (idx + 1)) by lia.
    unfold table_get at 1. destruct (Z.ltb_spec (idx + 1) 0); [done|].
    destruct (table h !! Z.to_nat (idx + 1)) as [el2|] eqn:Hget; simpl; [|done].
    apply lookup_lt_Some in Hget.
    destruct (Z.ltb_spec (idx + 1) (u32 (size h - 1))); [|done].
    apply IH; [lia| |lia].
    assert (u32 (size h - 1) < 2 ^ 32); [|lia].
    unfold u32. apply Z.mod_pos_bound. lia.
  - destruct (el =? NULL); [done|]. unfold load_entry in Hstop.
    destruct (el =? NULL); [by injection Hstop as <-|].
    destruct (entries m !! el); [done|]. by injection Hstop as <-.
Qed.

Lemma skip_empty_ends h m idx el :
  0 ≤ idx < 2 ^ 32 →
  skip_empty (skip_fuel h) h m idx el ≠ Fault Diverges.
Proof.
  intros Hidx. unfold skip_fuel. rewrite skip_empty_unfold.
  destruct (if el =? NULL then Ok false
            else e ← load_entry m el; Ok (negb (key e =? NULL))) as [[]|f] eqn:Hstop;
    rewrite ?bind_ok; cbv zeta; [done| |].
  - destruct (table_get h (u32 (idx + 1))) as [el2|] eqn:Hget; rewrite ?bind_ok.
    + destruct (Z.ltb_spec (u32 (idx + 1)) (u32 (size h - 1))); [|done].
      assert (0 ≤ u32 (idx + 1) < 2 ^ 32) by (unfold u32; apply Z.mod_pos_bound; lia).
      assert (u32 (size h - 1) < 2 ^ 32) by (unfold u32; apply Z.mod_pos_bound; lia).
      apply skip_empty_ends_aux; lia.
    + unfold table_get in Hget. destruct (u32 (idx + 1) <? 0); [by injection Hget as <-|].
      destruct (table h !! Z.to_nat (u32 (idx + 1))); [done|]. by injection Hget as <-.
  - destruct (el =? NULL); [done|]. unfold load_entry in Hstop.
    destruct (el =? NULL); [by injection Hstop as <-|].
    destruct (entries m !! el); [done|]. by injection Hstop as <-.
Qed.

Lemma createIterator_inv h m bs oit m' :
  table_inv h m bs →
  symtabCreateIterator h m = Ok (oit, m') →
  table_inv h m' bs ∧
  (∀ a, 0 < a < brk m → entries m' !! a = entries m !! a) ∧
  chars m' = chars m ∧
  (∀ it, oit = Some it → iter_inv m' bs it).
Proof.
  intros Hinv. unfold symtabCreateIterator.
  pose proof (inv_brk _ _ _ Hinv) as Hbrk.
  destruct (malloc m) as [p1 m1] eqn:Hm1.
  destruct (malloc_spec _ _ _ Hm1 Hbrk) as (He1 & Hc1 & Hp1).
  assert (table_inv h m1 bs) as Hinv1.
  { eapply table_inv_extend; [done| |done| |].
    - intros a _. by rewrite He1.
    - intros a e. rewrite He1. intros Ha. apply (inv_entries _ _ _ Hinv) in Ha.
      destruct Hp1 as [[_ ->]|[_ ->]]; lia.
    - destruct Hp1 as [[_ ->]|[_ ->]]; lia. }
  destruct (Z.eqb_spec p1 NULL) as [Hn1|Hn1].
  { intros [= <- <-]. split_and!; [done| |done|done]. intros a _. by rewrite He1. }
  destruct (table_get h 0) as [el0|] eqn:Hget; rewrite ?bind_ok; [|done].
  destruct (skip_empty (skip_fuel h) h m1 0 el0) as [[idx el]|] eqn:Hskip;
    rewrite ?bind_ok; [|done].
  pose proof (skip_empty_linked _ _ _ _ _ _ _ _ Hinv1
                (table_get_linked _ _ _ _ _ Hinv1 Hget) Hskip) as Hl.
  pose proof (inv_brk _ _ _ Hinv1) as Hbrk1.
  destruct (malloc_entry m1) as [s m2] eqn:Hm2.
  destruct (malloc_entry_spec _ _ _ Hm2 Hbrk1) as (Hc2 & [(-> & _)|(-> & Hb2 & He2)]).
  { done. }
  assert (brk m1 ≠ NULL) as Hn by (unfold NULL; lia).
  erewrite set_next_ok; [|done|rewrite He2; apply lookup_insert_eq].
  rewrite bind_ok. intros [= <- <-]. unfold store_entry. simpl.
  assert (brk m ≤ brk m1) as Hle by (destruct Hp1 as [[_ ->]|[_ ->]]; lia).
  split_and!.
  - eapply table_inv_extend; [exact Hinv1| | | |]; simpl.
    + intros a Ha. rewrite He2, !lookup_insert_ne by lia. done.
    + congruence.
    + intros a e. rewrite He2, insert_insert_eq.
      intros [[<- _]|[_ Ha]]%lookup_insert_Some; [lia|].
      apply (inv_entries _ _ _ Hinv1) in Ha. lia.
    + lia.
  - intros a Ha. rewrite He2, !lookup_insert_ne by lia. by rewrite He1.
  - congruence.
  - intros it [= <-]. right. simpl. eexists. by rewrite lookup_insert_eq.
Qed.

(** Every state that the interface produces satisfies the invariant, and
    the keys in the table are the keys installed. *)
Lemma reachable_inv ks h m :
  reachable ks h m →
  ∃ bs, table_inv h m bs ∧ ∀ k, k ∈ n_key <$> concat bs ↔ k ∈ ks.
Proof.
  induction 1 as [sizeHint o h m Hr Hc|ks h m symbol data r h' m' Hre IH Hi
                 |ks h m it m' Hre IH Hi].
  - exists (replicate (Z.to_nat sizeHint) []). split; [by eapply table_inv_create|].
    intros k. rewrite concat_replicate_nil. set_solver.
  - destruct IH as (bs & Hinv & Hks).
    pose proof (install_outcomes h m bs symbol data Hinv) as Hout.
    rewrite Hi in Hout. inversion Hout as [b pre n post e Hb Hsp Hk He Hinv'
      |b pre post h2 m2 Hb Hsp Habs Hg Hinv' Hes|b o Hb Habs Ho|]; subst; simpl.
    + eexists. split; [exact Hinv'|]. intros k.
      destruct (concat_insert _ _ _ Hb) as (l1 & l2 & Hold & Hnew).
      rewrite Hnew, elem_of_cons, <- Hks, Hold.
      rewrite (scan_split_app _ _ _ _ Hsp). rewrite !fmap_app. simpl.
      rewrite ?fmap_app. simpl. set_solver.
    + eexists. split; [exact Hinv'|]. intros k.
      destruct (concat_insert _ _ _ Hb) as (l1 & l2 & Hold & Hnew).
      rewrite Hnew, elem_of_cons, <- Hks, Hold.
      rewrite (scan_split_app _ _ _ _ Hsp). rewrite !fmap_app. simpl.
      rewrite ?fmap_app. simpl. set_solver.
    + exists bs. split; [|done].
      eapply table_inv_extend; [done|done|done| |done].
      apply (inv_entries _ _ _ Hinv).
  - destruct IH as (bs & Hinv & Hks). exists bs. split; [|done].
    by destruct (createIterator_inv _ _ _ _ _ Hinv Hi) as (? & _).
Qed.

(** One call of symtabNext: the cursor stays well formed; a NULL result
    leaves the output slot as it was; any other result is the key buffer and
    the value of a node of the table, on which the cursor now stands. *)
Lemma symtabNext_inv h m bs it returnData k it' out :
  table_inv h m bs → iter_inv m bs it →
  symtabNext h m it returnData = Ok (k, it', out) →
  iter_inv m bs it' ∧
  (k = NULL → out = returnData) ∧
  (k ≠ NULL → ∃ n, n ∈ concat bs ∧ n_addr n = elem it' ∧
                   chars m !! k = Some (n_key n) ∧ out = n_value n).
Proof.
  intros Hinv Hit. unfold symtabNext.
  destruct (load_entry m (elem it)) as [e|] eqn:Hload; rewrite ?bind_ok; [|done].
  cbv zeta.
  assert (entries m !! elem it = Some e ∧ elem it ≠ NULL) as [He Hn].
  { unfold load_entry in Hload. destruct (Z.eqb_spec (elem it) NULL); [done|].
    destruct (entries m !! elem it); [|done]. by injection Hload as ->. }
  assert (linked bs (next e)) as Hl.
  { destruct Hit as [?|(e' & He' & Hl)]; [done|]. congruence. }
  assert (∀ it0, linked bs (elem it0) →
    (if elem it0 =? NULL then Ok (NULL, it0, returnData)
     else e0 ← load_entry m (elem it0); Ok (key e0, it0, value e0))
      = Ok (k, it', out) →
    iter_inv m bs it' ∧ (k = NULL → out = returnData) ∧
    (k ≠ NULL → ∃ n, n ∈ concat bs ∧ n_addr n = elem it' ∧
                     chars m !! k = Some (n_key n) ∧ out = n_value n)) as Hfin.
  { intros it0 Hl0. destruct (Z.eqb_spec (elem it0) NULL) as [H0|H0].
    - intros [= <- <- <-]. split_and!; [by left|done|by intros []].
    - destruct Hl0 as [?|Hin]; [done|].
      apply list_elem_of_fmap in Hin as (n & Hna & Hn0).
      apply elem_of_concat in Hn0 as (b & Hnb & Hb).
      apply list_elem_of_lookup in Hb as [i Hb].
      destruct (inv_node _ _ _ _ _ _ Hinv Hb Hnb) as (e0 & He0 & _ & Hk0 & Hs0 & Hv0 & Hl0).
      rewrite <- Hna in He0.
      rewrite (load_entry_ok _ _ e0) by done. rewrite bind_ok.
      intros [= <- <- <-]. split_and!; [right; by exists e0|done|].
      intros _. exists n. split_and!; [|done..].
      apply elem_of_concat. exists b. split; [done|]. by eapply list_elem_of_lookup_2. }
  destruct (Z.eqb_spec (next e) NULL) as [Hnx|Hnx]; cbn [negb].
  - destruct (Z.geb_spec (u32 (index it + 1)) (u32 (size h))) as [Hge|Hlt].
    + intros [= <- <- <-]. split_and!; [right; by exists e|done|by intros []].
    + destruct (table_get h (u32 (index it + 1))) as [el|] eqn:Hget;
        rewrite ?bind_ok; [|done].
      destruct (skip_empty (skip_fuel h) h m (u32 (index it + 1)) el)
        as [[idx el']|] eqn:Hskip; rewrite ?bind_ok; [|done].
      apply Hfin. simpl. eapply skip_empty_linked; [done| |done].
      by eapply table_get_linked.
  - by apply Hfin.
Qed.

Lemma iter_reachable_inv h m it :
  iter_reachable h m it → ∃ bs, table_inv h m bs ∧ iter_inv m bs it.
Proof.
  induction 1 as [ks h m it m' Hre Hc|h m it rd k it' out Hre IH Hn
                 |h m it it2 m' Hre IH Hc|h m it symbol data r h' m' Hre IH Hi].
  - destruct (reachable_inv _ _ _ Hre) as (bs & Hinv & _).
    destruct (createIterator_inv _ _ _ _ _ Hinv Hc) as (Hinv' & _ & _ & Hit).
    exists bs. split; [done|]. by apply Hit.
  - destruct IH as (bs & Hinv & Hit). exists bs. split; [done|].
    by destruct (symtabNext_inv _ _ _ _ _ _ _ _ Hinv Hit Hn) as (? & _).
  - destruct IH as (bs & Hinv & Hit).
    destruct (createIterator_inv _ _ _ _ _ Hinv Hc) as (Hinv' & Hes & _ & _).
    exists bs. split; [done|].
    destruct Hit as [?|(e & He & Hl)]; [by left|right].
    exists e. split; [|done]. rewrite Hes; [done|]. by eapply inv_entries.
  - destruct IH as (bs & Hinv & Hit).
    pose proof (install_outcomes h m bs symbol data Hinv) as Hout.
    rewrite Hi in Hout. set (i := Z.to_nat (hash h symbol)) in *.
    inversion Hout as [b pre n post e0 Hb Hsp Hk He0 Hinv'
      |b pre post h2 m2 Hb Hsp Habs Hg Hinv' Hes|b o Hb Habs Ho|]; subst.
    + eexists. split; [exact Hinv'|].
      destruct Hit as [?|(e & He & Hl)]; [by left|right].
      assert (linked (<[i := pre ++ set_node_value data n :: post]> bs) (next e))
        as Hl'.
      { destruct Hl as [?|Hl]; [by left|right].
        destruct (concat_insert _ _ _ Hb) as (l1 & l2 & Hold & Hnew).
        rewrite Hnew. rewrite Hold, (scan_split_app _ _ _ _ Hsp) in Hl.
        rewrite !fmap_app in *. simpl in *. rewrite ?fmap_app in *. simpl in *.
        set_solver. }
      unfold store_entry. simpl.
      destruct (decide (elem it = n_addr n)) as [Heq|Hne].
      * rewrite Heq, lookup_insert_eq. eexists. split; [done|]. simpl.
        rewrite Heq in He. by simplify_eq.
      * rewrite lookup_insert_ne by done. by exists e.
    + eexists. split; [exact Hinv'|].
      destruct Hit as [?|(e & He & Hl)]; [by left|right].
      destruct (concat_insert _ _ _ Hb) as (l1 & l2 & Hold & Hnew).
      pose proof (scan_split_app _ _ _ _ Hsp) as Happ.
      destruct (decide (elem it ∈ n_addr <$> b)) as [Hin|Hnin].
      * destruct (inv_concat_node _ _ _ (elem it) Hinv') as (e' & He' & _ & _ & _ & Hl').
        { rewrite Hnew. rewrite Happ in Hin.
          rewrite !fmap_app in *. simpl in *. rewrite ?fmap_app in *. simpl in *.
          set_solver. }
        by exists e'.
      * exists e. split; [by apply Hes|].
        destruct Hl as [?|Hl]; [by left|right].
        rewrite Hnew. rewrite Hold, Happ in Hl.
        rewrite !fmap_app in *. simpl in *. rewrite ?fmap_app in *. simpl in *.
        set_solver.
    + exists bs. split; [|done].
      eapply table_inv_extend; [done|done|done| |done].
      apply (inv_entries _ _ _ Hinv).
Qed.

(** symtabNext never runs out of fuel. *)
Lemma symtabNext_ends h m it returnData :
  symtabNext h m it returnData ≠ Fault Diverges.
Proof.
  unfold symtabNext.
  destruct (load_entry m (elem it)) as [e|f] eqn:Hload; rewrite ?bind_ok.
  - cbv zeta.
    assert (∀ it0 : hash_elem_it_s,
      (if elem it0 =? NULL then Ok (NULL, it0, returnData)
       else e0 ← load_entry m (elem it0); Ok (key e0, it0, value e0))
        ≠ Fault Diverges) as Hfin.
    { intros it0. destruct (elem it0 =? NULL) eqn:Hn; [done|].
      unfold load_entry. rewrite Hn. by destruct (entries m !! elem it0). }
    destruct (next e =? NULL); cbn [negb]; [|apply Hfin].
    destruct (u32 (index it + 1) >=? u32 (size h)); [done|].
    destruct (table_get h (u32 (index it + 1))) as [el|f] eqn:Hget; rewrite ?bind_ok.
    + pose proof (skip_empty_ends h m (u32 (index it + 1)) el) as Hends.
      destruct (skip_empty (skip_fuel h) h m (u32 (index it + 1)) el)
        as [[idx el']|f] eqn:Hskip; rewrite ?bind_ok; [apply Hfin|].
      intros [= ->]. apply Hends; [|done]. unfold u32. apply Z.mod_pos_bound. lia.
    + unfold table_get in Hget. destruct (u32 (index it + 1) <? 0); [by injection Hget as <-|].
      destruct (table h !! Z.to_nat (u32 (index it + 1))); [done|]. by injection Hget as <-.
  - unfold load_entry in Hload. destruct (elem it =? NULL); [by injection Hload as <-|].
    destruct (entries m !! elem it); [done|]. by injection Hload as <-.
Qed.

End Iterators.

(** ** Lookup *)

Section Lookup.

Lemma lookup_head h m bs k b :
  table_inv h m bs → bs !! Z.to_nat (hash h k) = Some b →
  lookup h m k = Ok (head_value k b).
Proof.
  intros Hinv Hb.
  destruct (inv_bucket h m bs k Hinv) as (p & b0 & Hp & Hb0 & Hc & Hget).
  rewrite Hb in Hb0. injection Hb0 as <-.
  unfold lookup. rewrite Hget, bind_ok. unfold chain in Hc.
  destruct b as [|n b]; simpl in *.
  - by rewrite Hc.
  - destruct Hc as (-> & Hn & e & He & Hk & Hs & Hv & _).
    apply Z.eqb_neq in Hn as Hn'. rewrite Hn'.
    rewrite (load_entry_ok _ _ e) by done. rewrite bind_ok.
    apply Z.eqb_neq in Hk as Hk'. rewrite Hk'.
    unfold load_string. rewrite Hk', Hs, bind_ok.
    destruct (strcmp k (n_key n)) eqn:Hcmp.
    + apply strcmp_eq in Hcmp. by rewrite decide_True, Hv.
    + rewrite decide_False; [done|]. intros Heq.
      by rewrite Heq, strcmp_refl in Hcmp.
    + rewrite decide_False; [done|]. intros Heq.
      by rewrite Heq, strcmp_refl in Hcmp.
Qed.

(** [symtabLookup] sends the result of [lookup] through an [int]. *)
Lemma symtabLookup_lookup h m k v :
  lookup h m k = Ok v →
  symtabLookup h m k
    = Ok (if int_of_ptr v =? 0 then NULL else ptr_of_int (int_of_ptr v)).
Proof.
  intros Hl. unfold symtabLookup. rewrite Hl, bind_ok.
  by destruct (int_of_ptr v =? 0).
Qed.

(** Values that fit a non-negative [int] come back unchanged. *)
Lemma int_round_trip v :
  0 ≤ v < 2 ^ 31 →
  (if int_of_ptr v =? 0 then NULL else ptr_of_int (int_of_ptr v)) = v.
Proof.
  intros Hv. unfold int_of_ptr. rewrite int_of_uint_small by done.
  destruct (Z.eqb_spec v 0) as [->|Hne]; [done|].
  unfold ptr_of_int. apply Z.mod_small. lia.
Qed.

End Lookup.

(** ** symtabDelete *)

Section Delete.

Lemma delete_loop_faults h n m i iterate :
  0 ≤ i → (Z.to_nat i ≤ length (table h))%nat →
  (length (table h) < Z.to_nat i + n)%nat →
  ∃ f, delete_loop n h m i iterate = Fault f.
Proof.
  revert m i iterate. induction n as [|n IH]; intros m i iterate Hi Hle Hlt; [lia|].
  simpl. destruct (decide (Z.to_nat i = length (table h))) as [Heq|Hne].
  - rewrite table_get_out by lia. by eexists.
  - destruct (table_get h i) as [it|f]; [|by eexists]. rewrite bind_ok.
    destruct (load_entry m it) as [e|f]; [|by eexists]. rewrite bind_ok.
    destruct (if key e =? NULL then Ok m else free_chars m (key e)) as [m'|f];
      [|by eexists].
    rewrite bind_ok. apply IH; lia.
Qed.

(** On a table whose array has [size] slots the loop of symtabDelete, which
    runs up to index [size] included, always ends in a fault. *)
Lemma symtabDelete_faults h m bs :
  table_inv h m bs → ∃ f, symtabDelete h m = Fault f.
Proof.
  intros Hinv. unfold symtabDelete.
  pose proof (inv_size _ _ _ Hinv). pose proof (inv_length _ _ _ Hinv).
  destruct (delete_loop_faults h (Z.to_nat (size h + 1)) m 0 NULL) as [f ->];
    [lia..|]. by exists f.
Qed.

End Delete.

(** ** Keys of a table *)

Section Keys.

Lemma nodup_fmap_inj {A B} (f : A → B) (l : list A) x y :
  NoDup (f <$> l) → x ∈ l → y ∈ l → f x = f y → x = y.
Proof.
  induction l as [|a l IH]; simpl; [by intros _ ?%elem_of_nil|].
  intros [Hni Hnd]%NoDup_cons [->|Hx]%elem_of_cons [->|Hy]%elem_of_cons Heq;
    [done| | |by apply IH].
  - destruct Hni. rewrite Heq. by apply list_elem_of_fmap_2.
  - destruct Hni. rewrite <- Heq. by apply list_elem_of_fmap_2.
Qed.

Lemma ascending_nodup b : ascending b → NoDup (n_key <$> b).
Proof.
  unfold ascending. induction (n_key <$> b) as [|s l IH]; [constructor|].
  intros [Hall Hs]%StronglySorted_cons. constructor; [|by apply IH].
  intros Hin. rewrite Forall_forall in Hall. specialize (Hall s Hin).
  unfold key_lt in Hall. by rewrite strcmp_refl in Hall.
Qed.

Lemma keys_nodup_from h (bs : list (list node)) (off : nat) :
  Forall ascending bs →
  (∀ i b n, bs !! i = Some b → n ∈ b → hash h (n_key n) = Z.of_nat (off + i)) →
  NoDup (n_key <$> concat bs).
Proof.
  revert off. induction bs as [|b bs IH]; intros off Hasc Hh; simpl; [constructor|].
  apply Forall_cons in Hasc as [Hb Hasc]. rewrite fmap_app. apply NoDup_app.
  split_and!.
  - by apply ascending_nodup.
  - intros k (n & -> & Hn)%list_elem_of_fmap (n' & Heq & Hn')%list_elem_of_fmap.
    apply elem_of_concat in Hn' as (b' & Hn' & Hb').
    apply list_elem_of_lookup in Hb' as [j Hj].
    pose proof (Hh 0%nat b n eq_refl Hn) as H1.
    pose proof (Hh (S j) b' n' Hj Hn') as H2.
    rewrite Heq in H1. lia.
  - apply (IH (S off)); [done|]. intros i b' n Hi Hn.
    rewrite (Hh (S i) b' n Hi Hn). lia.
Qed.

Lemma keys_nodup h m bs : table_inv h m bs → NoDup (n_key <$> concat bs).
Proof.
  intros Hinv. apply (keys_nodup_from h bs 0); [by apply (inv_sorted _ _ _ Hinv)|].
  intros i b n. apply (inv_hash _ _ _ Hinv).
Qed.

End Keys.

(** ** The empty table *)

Section Empty.

(** On an array of NULL heads the loop runs to the last slot. *)
Lemma skip_empty_all_null h m fuel idx :
  table h = replicate (Z.to_nat (size h)) NULL → 2 ≤ size h < 2 ^ 31 →
  0 ≤ idx < size h - 1 →
  (Z.to_nat (size h - 1 - idx) ≤ fuel)%nat →
  skip_empty fuel h m idx NULL = Ok (size h - 1, NULL).
Proof.
  intros Ht Hs. revert idx. induction fuel as [|fuel IH]; intros idx Hi Hf; [lia|].
  rewrite skip_empty_unfold. simpl.
  rewrite (u32_small (idx + 1)), (u32_small (size h - 1)) by lia.
  assert (table_get h (idx + 1) = Ok NULL) as ->.
  { rewrite <- (Z2Nat.id (idx + 1)) by lia. apply table_get_lookup.
    rewrite Ht. apply lookup_replicate. split; [done|lia]. }
  rewrite bind_ok. destruct (Z.ltb_spec (idx + 1) (size h - 1)) as [Hlt|Hge].
  - apply IH; lia.
  - do 2 f_equal. lia.
Qed.

(** Empty table of capacity 2 or more: the new iterator reports the end at
    the first call of symtabNext. *)
Lemma empty_table_iterator sizeHint o h m :
  2 ≤ sizeHint < 2 ^ 31 →
  symtabCreate sizeHint (empty_memory o) = (Some h, m) →
  granted 2 m →
  ∃ it m', symtabCreateIterator h m = Ok (Some it, m') ∧
    ∀ returnData, ∃ it', symtabNext h m' it returnData = Ok (NULL, it', returnData).
Proof.
  intros Hr Hc [Hg1 Hg2]%granted_2.
  destruct (symtabCreate_cases sizeHint (empty_memory o))
    as [[_ H]|[(_ & _ & m1 & H)|(_ & _ & H)]]; [done|congruence..|].
  rewrite H in Hc. injection Hc as <- <-. unfold symtabCreateIterator.
  rewrite malloc_granted by done.
  replace (brk _ =? NULL) with false by done.
  rewrite (table_get_lookup _ 0 NULL), bind_ok
    by (apply lookup_replicate; split; [done|simpl; lia]).
  unfold skip_fuel. rewrite (skip_empty_all_null _ _ _ 0);
    [|done|simpl; lia|simpl; lia|simpl; rewrite length_replicate; lia].
  rewrite bind_ok. unfold malloc_entry. rewrite malloc_granted by done.
  replace (brk _ =? NULL) with false by done.
  erewrite set_next_ok; [|done|simpl; apply lookup_insert_eq]. rewrite bind_ok.
  eexists _, _. split; [done|]. intros returnData.
  unfold symtabNext. unfold store_entry.
  rewrite (load_entry_ok _ _ {| key := indeterminate; value := indeterminate;
                                next := NULL |});
    [|done|simpl; apply lookup_insert_eq].
  rewrite bind_ok. cbn. rewrite !u32_small by lia.
  destruct (Z.geb_spec (sizeHint - 1 + 1) sizeHint); [by eexists|lia].
Qed.

(** Empty table of any capacity: no key is found. *)
Lemma empty_table_lookup sizeHint o h m k :
  - 2 ^ 31 ≤ sizeHint < 2 ^ 31 →
  symtabCreate sizeHint (empty_memory o) = (Some h, m) →
  lookup h m k = Ok NULL ∧ symtabLookup h m k = Ok NULL.
Proof.
  intros Hr Hc. pose proof (table_inv_create _ _ _ _ Hr Hc) as Hinv.
  destruct (inv_bucket h m _ k Hinv) as (p & b & Hp & Hb & _).
  pose proof (lookup_head h m _ k b Hinv Hb) as Hl.
  apply lookup_replicate in Hb as [-> _].
  split; [done|]. by rewrite (symtabLookup_lookup _ _ _ NULL).
Qed.

End Empty.

(** ** A complete iteration *)

Section Iteration.

Implicit Types (h : hashtable_s) (m : memory) (bs : list (list node)).

#[local] Arguments skip_empty : simpl never.
#[local] Arguments skip_fuel : simpl never.

(** From a slot at or before a non-empty bucket, the loop over the buckets
    stops at the first non-empty bucket. *)
Lemma skip_empty_finds h m bs fuel (idx j : nat) b el :
  table_inv h m bs →
  (idx ≤ j)%nat → bs !! j = Some b → b ≠ [] →
  (∀ i bi, (idx ≤ i < j)%nat → bs !! i = Some bi → bi = []) →
  table h !! idx = Some el →
  (j - idx < fuel)%nat →
  skip_empty fuel h m (Z.of_nat idx) el = Ok (Z.of_nat j, head_addr b).
Proof.
  intros Hinv. pose proof (inv_size _ _ _ Hinv) as Hs.
  pose proof (inv_length _ _ _ Hinv) as Hlen.
  pose proof (Forall2_length _ _ _ (inv_chain _ _ _ Hinv)) as Hlen'.
  revert idx el. induction fuel as [|fuel IH]; intros idx el Hle Hb Hne Hempty Hel Hf;
    [lia|].
  rewrite skip_empty_unfold.
  destruct (Forall2_lookup_l _ _ _ _ _ (inv_chain _ _ _ Hinv) Hel) as (bi & Hbi & Hc).
  apply lookup_lt_Some in Hb as Hj.
  destruct (decide (idx = j)) as [->|Hne'].
  - rewrite Hb in Hbi. injection Hbi as <-. unfold chain in Hc.
    destruct b as [|n b]; [done|]. simpl in Hc.
    destruct Hc as (-> & Hn & e & He & Hk & _).
    apply Z.eqb_neq in Hn as Hn'. apply Z.eqb_neq in Hk as Hk'.
    rewrite Hn', (load_entry_ok _ _ e), bind_ok by done. by rewrite Hk'.
  - assert (bi = []) as -> by (apply (Hempty idx); [lia|done]).
    unfold chain in Hc. simpl in Hc. subst el. simpl. cbv zeta.
    rewrite (u32_small (Z.of_nat idx + 1)), (u32_small (size h - 1)) by lia.
    destruct (lookup_lt_is_Some_2 (table h) (S idx)) as [el' Hel']; [lia|].
    replace (Z.of_nat idx + 1) with (Z.of_nat (S idx)) by lia.
    rewrite (table_get_lookup _ _ _ Hel'), bind_ok.
    destruct (Z.ltb_spec (Z.of_nat (S idx)) (size h - 1)) as [Hlt|Hge].
    + apply IH; [lia|done|done| |done|lia].
      intros i bi' Hi. apply Hempty. lia.
    + assert (j = S idx) as -> by lia.
      destruct (Forall2_lookup_l _ _ _ _ _ (inv_chain _ _ _ Hinv) Hel')
        as (b' & Hb' & Hc').
      rewrite Hb in Hb'. injection Hb' as <-.
      by rewrite (lseg_head_addr _ _ _ _ Hc').
Qed.

(** When the last bucket is not empty there is a first non-empty bucket from
    every slot on. *)
Lemma first_nonempty bs (k : nat) :
  (∃ b, last bs = Some b ∧ b ≠ []) → (k < length bs)%nat →
  ∃ j b, (k ≤ j)%nat ∧ bs !! j = Some b ∧ b ≠ [] ∧
    (∀ i bi, (k ≤ i < j)%nat → bs !! i = Some bi → bi = []) ∧
    concat (drop k bs) = b ++ concat (drop (S j) bs).
Proof.
  intros (bl & Hlast & Hbl). rewrite last_lookup in Hlast.
  remember (length bs - k)%nat as d eqn:Hd. revert k Hd.
  induction d as [|d IH]; intros k Hd Hk; [lia|].
  destruct (lookup_lt_is_Some_2 bs k Hk) as [b Hb].
  destruct (decide (b = [])) as [->|Hne].
  - assert (S k < length bs)%nat as Hk'.
    { destruct (decide (S k = length bs)) as [Heq|?]; [|lia].
      replace (pred (length bs)) with k in Hlast by lia. congruence. }
    destruct (IH (S k)) as (j & b & Hle & Hj & Hb' & Hempty & Hcat); [lia|done|].
    exists j, b. split_and!; [lia|done|done| |].
    + intros i bi Hi Hbi. destruct (decide (i = k)) as [->|?]; [congruence|].
      apply (Hempty i); [lia|done].
    + by rewrite (drop_S bs [] k Hb).
  - exists k, b. split_and!; [lia|done|done| |].
    + intros i bi Hi. lia.
    + by rewrite (drop_S bs b k Hb).
Qed.

(** The calls of symtabNext from a cursor that stands before the nodes
    [rest] of bucket [j]: the pairs of [rest], then the pairs of the later
    buckets, then the end. *)
Lemma iterate_rest h m bs fuel it e (j : nat) rest :
  table_inv h m bs → (∃ b, last bs = Some b ∧ b ≠ []) →
  entries m !! elem it = Some e → elem it ≠ NULL →
  lseg (entries m) (chars m) (next e) NULL rest →
  index it = Z.of_nat j → (j < length bs)%nat →
  (length (rest ++ concat (drop (S j) bs)) < fuel)%nat →
  iterate fuel h m it = Ok (pairs (rest ++ concat (drop (S j) bs)), true).
Proof.
  intros Hinv Hlast. pose proof (inv_size _ _ _ Hinv) as Hs.
  pose proof (inv_length _ _ _ Hinv) as Hlen.
  pose proof (Forall2_length _ _ _ (inv_chain _ _ _ Hinv)) as Hlen'.
  revert it e j rest.
  induction fuel as [|fuel IH]; intros it e j rest He Hn Hrest Hidx Hj Hf; [lia|].
  simpl. unfold symtabNext. rewrite (load_entry_ok _ _ e), bind_ok by done.
  cbv zeta. destruct rest as [|n rest]; simpl in Hrest.
  - (* the chain is finished: on to the next buckets *)
    rewrite Hrest. simpl. rewrite Hidx.
    rewrite (u32_small (Z.of_nat j + 1)), (u32_small (size h)) by lia.
    destruct (Z.geb_spec (Z.of_nat j + 1) (size h)) as [Hge|Hlt].
    + rewrite bind_ok. simpl. rewrite drop_ge by lia. done.
    + destruct (first_nonempty bs (S j) Hlast)
        as (j' & b & Hle & Hb & Hne & Hempty & Hcat); [lia|].
      destruct (lookup_lt_is_Some_2 (table h) (S j)) as [el Hel]; [lia|].
      replace (Z.of_nat j + 1) with (Z.of_nat (S j)) by lia.
      rewrite (table_get_lookup _ _ _ Hel), bind_ok.
      apply lookup_lt_Some in Hb as Hj'.
      rewrite (skip_empty_finds h m bs _ (S j) j' b el);
        [|done..|unfold skip_fuel; lia].
      rewrite bind_ok. simpl.
      destruct (Forall2_lookup_r _ _ _ _ _ (inv_chain _ _ _ Hinv) Hb)
        as (p & Hp & Hc).
      unfold chain in Hc. rewrite (lseg_head_addr _ _ _ _ Hc) in Hc.
      destruct b as [|n b]; [done|]. simpl in *.
      destruct Hc as (_ & Hnn & e' & He' & Hk & Hstr & Hv & Hrest').
      apply Z.eqb_neq in Hnn as Hnn'. rewrite Hnn'.
      rewrite (load_entry_ok _ _ e'), !bind_ok by done. simpl.
      apply Z.eqb_neq in Hk as Hk'. rewrite Hk'.
      unfold load_string. rewrite Hk', Hstr, bind_ok.
      rewrite (IH _ e' j' b); [|done|done|done|done|lia|].
      * rewrite bind_ok, Hcat, Hv. done.
      * rewrite Hcat in Hf. simpl in Hf. lia.
  - (* the next node of the chain *)
    destruct Hrest as (Hnx & Hnn & e' & He' & Hk & Hstr & Hv & Hrest').
    apply Z.eqb_neq in Hnn as Hnn'. rewrite Hnn'. simpl. rewrite Hnn'.
    rewrite (load_entry_ok _ _ e'), !bind_ok by done. simpl.
    apply Z.eqb_neq in Hk as Hk'. rewrite Hk'.
    unfold load_string. rewrite Hk', Hstr, bind_ok.
    rewrite (IH _ e' j rest); [|done|done|done|done|done|simpl in Hf; lia].
    rewrite bind_ok, Hv. done.
Qed.

(** On a table of the interface whose last bucket is not empty, a new
    iterator and repeated calls of symtabNext return the pairs of the table,
    bucket after bucket and in chain order, each once, and then the end. *)
Lemma iterate_complete ks h m fuel :
  reachable ks h m → granted 2 m →
  (∃ b, last (contents h m) = Some b ∧ b ≠ []) →
  (length (concat (contents h m)) < fuel)%nat →
  iterate_table fuel (Ok (h, m)) = Ok (pairs (concat (contents h m)), true).
Proof.
  intros Hre [Hg1 Hg2]%granted_2 Hlast Hf.
  destruct (reachable_inv _ _ _ Hre) as (bs & Hinv & _).
  rewrite (contents_inv _ _ _ Hinv) in *.
  pose proof (inv_size _ _ _ Hinv) as Hs.
  pose proof (inv_length _ _ _ Hinv) as Hlen.
  pose proof (Forall2_length _ _ _ (inv_chain _ _ _ Hinv)) as Hlen'.
  pose proof (inv_brk _ _ _ Hinv) as Hbrk.
  destruct (first_nonempty bs 0 Hlast) as (j & b & _ & Hb & Hne & Hempty & Hcat);
    [lia|].
  rewrite drop_0 in Hcat.
  destruct (lookup_lt_is_Some_2 (table h) 0) as [el Hel]; [lia|].
  pose proof (table_get_lookup h 0 el Hel) as Hget. change (Z.of_nat 0) with 0 in Hget.
  set (m1 := {| entries := entries m; chars := chars m; brk := brk m + 1;
                oracle := tail (oracle m) |}).
  assert (table_inv h m1 bs) as Hinv1.
  { eapply table_inv_extend; [done|done|done| |simpl; lia].
    intros a e Ha. apply (inv_entries _ _ _ Hinv) in Ha. simpl. lia. }
  assert (skip_empty (skip_fuel h) h m1 0 el = Ok (Z.of_nat j, head_addr b)) as Hskip.
  { apply (skip_empty_finds h m1 bs (skip_fuel h) 0 j b el);
      [done|lia|done|done|done|done|].
    apply lookup_lt_Some in Hb. unfold skip_fuel. lia. }
  assert (symtabCreateIterator h m
          = Ok (Some {| index := Z.of_nat j; elem := brk m + 1 |},
                store_entry
                  {| entries := <[brk m + 1 := {| key := indeterminate;
                                                  value := indeterminate;
                                                  next := indeterminate |}]> (entries m);
                     chars := chars m; brk := brk m + 1 + 1;
                     oracle := tail (tail (oracle m)) |}
                  (brk m + 1)
                  {| key := indeterminate; value := indeterminate;
                     next := head_addr b |})) as Hci.
  { unfold symtabCreateIterator. rewrite malloc_granted by done. fold m1.
    replace (brk m =? NULL) with false
      by (symmetry; apply Z.eqb_neq; unfold NULL; lia).
    rewrite Hget, bind_ok, Hskip, bind_ok.
    unfold malloc_entry. rewrite malloc_granted by done. simpl.
    replace (brk m + 1 =? NULL) with false
      by (symmetry; apply Z.eqb_neq; unfold NULL; lia).
    erewrite set_next_ok; [|unfold NULL; lia|simpl; apply lookup_insert_eq].
    rewrite bind_ok. reflexivity. }
  destruct (createIterator_inv _ _ _ _ _ Hinv Hci) as (Hinv' & Hes & Hcs & _).
  unfold iterate_table. rewrite bind_ok. simpl. rewrite Hci, bind_ok. simpl.
  rewrite (iterate_rest h _ bs fuel _
             {| key := indeterminate; value := indeterminate; next := head_addr b |}
             j b Hinv' Hlast); simpl.
  - by rewrite Hcat.
  - unfold store_entry. simpl. apply lookup_insert_eq.
  - unfold NULL. lia.
  - destruct (Forall2_lookup_r _ _ _ _ _ (inv_chain _ _ _ Hinv') Hb)
      as (p & Hp & Hc).
    unfold chain in Hc. by rewrite (lseg_head_addr _ _ _ _ Hc) in Hc.
  - done.
  - by apply lookup_lt_Some in Hb.
  - by rewrite <- Hcat.
Qed.

End Iteration.

(** ** The scenarios of the specification *)

Section Scenarios.

(** Capacity 10: "apple" and "banana" fall into different buckets, and the
    second installation of "apple" replaces its value. *)
Example scenario_apple_banana :
  let st := state_of (build 10 [("apple", 1); ("banana", 2); ("apple", 5)]%string) in
  hash st.1 "apple" = 2 ∧ hash st.1 "banana" = 4 ∧
  symtabLookup st.1 st.2 "apple" = Ok 5 ∧
  symtabLookup st.1 st.2 "banana" = Ok 2 ∧
  symtabLookup st.1 st.2 "cherry" = Ok NULL ∧
  length (concat (contents st.1 st.2)) = 2%nat.
Proof. vm_compute. done. Qed.

(** Capacity 1: one chain, in ascending order of the keys whatever the order
    of installation; [lookup] sees its head only. *)
Example scenario_one_bucket :
  let st := state_of (build 1 [("zebra", 1); ("apple", 2); ("mango", 3)]%string) in
  n_key <$> concat (contents st.1 st.2) = ["apple"; "mango"; "zebra"]%string ∧
  iterate_table 4 (Ok st)
    = Ok ([("apple", 2); ("mango", 3); ("zebra", 1)]%string, true) ∧
  symtabLookup st.1 st.2 "apple" = Ok 2 ∧
  symtabLookup st.1 st.2 "mango" = Ok NULL ∧
  symtabLookup st.1 st.2 "zebra" = Ok NULL.
Proof. vm_compute. done. Qed.

(** Capacity 10, entries in buckets 2 and 9 (the last one): the iteration
    goes through the buckets in ascending order and reports the end. *)
Example scenario_last_bucket :
  iterate_table 4 (build 10 [("zebra", 1); ("mango", 3); ("apple", 2)]%string)
    = Ok ([("apple", 2); ("mango", 3); ("zebra", 1)]%string, true).
Proof. vm_compute. done. Qed.

End Scenarios.

(** * The claims *)

Section Claims.

(** C9: symtabCreate returns the NULL handle exactly when the size hint is
    below 1 or one of its two requests to malloc (the table, the bucket array)
    is refused; when it succeeds the table has the size hint as its size, an
    array of that many slots, and every bucket is empty. *)
Theorem symtabCreate_spec (sizeHint : Z) (m : memory) :
  0 < brk m →
  ((symtabCreate sizeHint m).1 = None ↔
     sizeHint < 1 ∨ head (oracle m) = Some false ∨
     head (tail (oracle m)) = Some false) ∧
  (∀ h m', symtabCreate sizeHint m = (Some h, m') →
     size h = sizeHint ∧ length (table h) = Z.to_nat sizeHint ∧
     Forall (λ p, p = NULL) (table h) ∧
     Forall (λ b, b = []) (contents h m')).
Proof.
  intros Hbrk.
  destruct (symtabCreate_cases sizeHint m Hbrk)
    as [[Hlt ->]|[(Hge & Hng & m1 & ->)|(Hge & Hg & ->)]]; simpl.
  - split; [split; [by left|done]|done].
  - split; [|done]. split; [intros _; right|done].
    rewrite granted_2 in Hng.
    destruct (decide (head (oracle m) = Some false)); [by left|right].
    destruct (decide (head (tail (oracle m)) = Some false)); [done|].
    destruct Hng. by split.
  - apply granted_2 in Hg as [Hg1 Hg2]. split.
    + split; [done|]. intros [?|[?|?]]; [lia|done..].
    + intros h m' [= <- <-]. simpl. rewrite length_replicate.
      split_and!; [done..| |].
      * apply Forall_replicate. done.
      * unfold contents. simpl. rewrite Forall_fmap. apply Forall_replicate.
        simpl. by destruct (scan_fuel _).
Qed.

Lemma symtabCreate_spec_witness :
  0 < brk (empty_memory []) ∧
  ((symtabCreate 3 (empty_memory [])).1 = None ↔
     3 < 1 ∨ head (oracle (empty_memory [])) = Some false ∨
     head (tail (oracle (empty_memory []))) = Some false) ∧
  (∀ h m', symtabCreate 3 (empty_memory []) = (Some h, m') →
     size h = 3 ∧ length (table h) = Z.to_nat 3 ∧
     Forall (λ p, p = NULL) (table h) ∧
     Forall (λ b, b = []) (contents h m')).
Proof.
  split; [simpl; lia|]. apply (symtabCreate_spec 3 (empty_memory [])). simpl. lia.
Defined.

(** C6: in every state that create and install produce, the chains of the
    buckets are the lists [contents], every chain is strictly ascending by
    key, no key occurs twice in the table, the keys of the table are the keys
    installed, and the number of entries is the number of distinct keys
    installed. *)
Theorem reachable_chains_sorted (ks : list string) (h : hashtable_s) (m : memory) :
  reachable ks h m →
  Forall2 (chain m) (table h) (contents h m) ∧
  Forall ascending (contents h m) ∧
  NoDup (n_key <$> concat (contents h m)) ∧
  (∀ k, k ∈ n_key <$> concat (contents h m) ↔ k ∈ ks) ∧
  length (concat (contents h m)) = length (remove_dups ks).
Proof.
  intros Hre. destruct (reachable_inv _ _ _ Hre) as (bs & Hinv & Hks).
  rewrite (contents_inv _ _ _ Hinv).
  pose proof (keys_nodup _ _ _ Hinv) as Hnd.
  split_and!; [by apply (inv_chain _ _ _ Hinv)|by apply (inv_sorted _ _ _ Hinv)
              |done|done|].
  rewrite <- (length_fmap n_key). apply Permutation_length.
  apply NoDup_Permutation; [done|apply NoDup_remove_dups|].
  intros k. by rewrite Hks, elem_of_remove_dups.
Qed.

Lemma reachable_chains_sorted_witness :
  Forall2 (chain memory_2caba) (table table_2cab) (contents table_2cab memory_2caba) ∧
  Forall ascending (contents table_2cab memory_2caba) ∧
  NoDup (n_key <$> concat (contents table_2cab memory_2caba)) ∧
  (∀ k, k ∈ n_key <$> concat (contents table_2cab memory_2caba)
        ↔ k ∈ ["a"; "b"; "a"; "c"]%string) ∧
  length (concat (contents table_2cab memory_2caba))
    = length (remove_dups ["a"; "b"; "a"; "c"]%string).
Proof.
  apply (reachable_chains_sorted ["a"; "b"; "a"; "c"]%string table_2cab memory_2caba).
  apply (reach_install ["b"; "a"; "c"]%string table_2cab memory_2cab "a" 7 1
           table_2cab memory_2caba).
  - apply (reach_install ["a"; "c"]%string table_2ca memory_2ca "b" 2 1
             table_2cab memory_2cab).
    + apply (reach_install ["c"%string] table_2c memory_2c "a" 1 1
               table_2ca memory_2ca).
      * apply (reach_install [] two_buckets (fresh_memory []) "c" 3 1
                 table_2c memory_2c).
        -- apply (reach_create 2 [] two_buckets (fresh_memory [])); [lia|].
           vm_compute. reflexivity.
        -- vm_compute. reflexivity.
      * vm_compute. reflexivity.
    + vm_compute. reflexivity.
  - vm_compute. reflexivity.
Defined.

(** C4: when symtabInstall returns 0, one of its two requests to malloc (the
    entry node, the copy of the key) was refused -- the first one, as it
    happens -- and the table is as it was: same handle contents, same entry
    nodes, same key buffers, same chains. *)
Theorem symtabInstall_failure (ks : list string) (h : hashtable_s) (m : memory)
    (symbol : string) (data : Z) (h' : hashtable_s) (m' : memory) :
  reachable ks h m →
  symtabInstall h m symbol data = Ok (0, h', m') →
  (head (oracle m) = Some false ∨ head (tail (oracle m)) = Some false) ∧
  head (oracle m) = Some false ∧
  h' = h ∧ entries m' = entries m ∧ chars m' = chars m ∧
  contents h' m' = contents h m.
Proof.
  intros Hre Hi. destruct (reachable_inv _ _ _ Hre) as (bs & Hinv & _).
  pose proof (install_outcomes h m bs symbol data Hinv) as Hout.
  rewrite Hi in Hout. inversion Hout as [| |b o Hb Habs Ho|]; subst; simpl.
  rewrite Ho. split_and!; [by left|done..|].
  rewrite (contents_inv _ _ _ Hinv). apply contents_inv.
  eapply table_inv_extend; [done|done|done| |done].
  apply (inv_entries _ _ _ Hinv).
Qed.

Lemma symtabInstall_failure_witness :
  (head (oracle (fresh_memory [false])) = Some false ∨
   head (tail (oracle (fresh_memory [false]))) = Some false) ∧
  head (oracle (fresh_memory [false])) = Some false ∧
  one_bucket = one_bucket ∧
  entries (fresh_memory []) = entries (fresh_memory [false]) ∧
  chars (fresh_memory []) = chars (fresh_memory [false]) ∧
  contents one_bucket (fresh_memory []) = contents one_bucket (fresh_memory [false]).
Proof.
  apply (symtabInstall_failure [] one_bucket (fresh_memory [false]) "a" 5
           one_bucket (fresh_memory [])).
  - apply (reach_create 1 [true; true; false]); [lia|]. vm_compute. reflexivity.
  - vm_compute. reflexivity.
Defined.

(** C5: on a table of the interface, with [b] the chain of the bucket that
    the hash of the key selects:
    - if a node [n] of [b] has the candidate key, symtabInstall returns 1 and
      the only change in memory is the value field of the entry of [n] (which
      keeps its key pointer and its next pointer; no key buffer changes); the
      chain is [b] with the value of [n] replaced;
    - if no node of [b] has the candidate key and malloc grants the node and
      the key buffer, symtabInstall returns 1 and the chain becomes
      [pre ++ new :: post], where [b = pre ++ post], the keys of [pre] are
      below the candidate, the key of the first node of [post] (if any) is
      above it, and [new] is a node at a fresh address whose key buffer, also
      fresh, holds a copy of the candidate; [pre] empty is the new head,
      [post] empty the new tail; the entries of the other chains and all
      former key buffers are as they were. *)
Theorem symtabInstall_spec (ks : list string) (h : hashtable_s) (m : memory)
    (symbol : string) (data : Z) :
  reachable ks h m →
  ∃ b, contents h m !! Z.to_nat (hash h symbol) = Some b ∧
  (∀ n, n ∈ b → n_key n = symbol →
     ∃ e pre post,
       b = pre ++ n :: post ∧ entries m !! n_addr n = Some e ∧
       symtabInstall h m symbol data
         = Ok (1, h, store_entry m (n_addr n)
                       {| key := key e; value := data; next := next e |}) ∧
       contents h (store_entry m (n_addr n)
                     {| key := key e; value := data; next := next e |})
         = <[Z.to_nat (hash h symbol) := pre ++ set_node_value data n :: post]>
             (contents h m)) ∧
  (symbol ∉ n_key <$> b → granted 2 m →
     ∃ h' m' pre post,
       symtabInstall h m symbol data = Ok (1, h', m') ∧
       b = pre ++ post ∧
       Forall (λ n, strcmp symbol (n_key n) = Gt) pre ∧
       (∀ n, head post = Some n → strcmp symbol (n_key n) = Lt) ∧
       contents h' m'
         = <[Z.to_nat (hash h symbol) :=
               pre ++ {| n_addr := brk m; n_key := symbol; n_value := data |}
                   :: post]> (contents h m) ∧
       entries m !! brk m = None ∧ chars m !! (brk m + 1) = None ∧
       chars m' = <[brk m + 1 := symbol]> (chars m) ∧
       (∀ a e, entries m !! a = Some e → a ∉ n_addr <$> b →
               entries m' !! a = Some e)).
Proof.
  intros Hre. destruct (reachable_inv _ _ _ Hre) as (bs & Hinv & _).
  rewrite (contents_inv _ _ _ Hinv).
  destruct (inv_bucket h m bs symbol Hinv) as (p & b & Hp & Hb & Hc & Hget).
  exists b. split; [done|].
  destruct (scan_split symbol b) as [pre post] eqn:Hsp.
  pose proof (scan_split_app _ _ _ _ Hsp) as Happ.
  assert (ascending b) as Hasc.
  { pose proof (inv_sorted _ _ _ Hinv) as Hall. rewrite Forall_forall in Hall.
    apply Hall. by eapply list_elem_of_lookup_2. }
  split.
  - intros n Hn Hk.
    destruct (found_in symbol post) eqn:Hf.
    2: { destruct (scan_absent _ _ _ _ Hasc Hsp Hf). rewrite <- Hk.
         by apply list_elem_of_fmap_2. }
    destruct (found_in_true _ _ Hf) as (n0 & post' & -> & Hk0).
    assert (n0 = n) as ->.
    { apply (nodup_fmap_inj n_key b); [by apply ascending_nodup| |done|congruence].
      rewrite Happ. set_solver. }
    destruct (install_update h m bs symbol data b pre n post' Hinv Hb Hsp Hf)
      as (e & He & Hi & Hinv').
    exists e, pre, post'. split_and!; [done..|]. by apply contents_inv.
  - intros Habs Hg.
    assert (found_in symbol post = false) as Hf.
    { destruct (found_in symbol post) eqn:Hf; [|done].
      destruct (found_in_true _ _ Hf) as (n0 & post' & -> & Hk0).
      destruct Habs. rewrite <- Hk0, Happ. apply list_elem_of_fmap_2. set_solver. }
    destruct (install_insert h m bs symbol data b pre post Hinv Hb Hsp Hf Hg)
      as (h' & m' & Hi & Hinv' & _ & Hcs & Hes & _).
    exists h', m', pre, post. split_and!; [done|done| | | | | |done|done].
    + by eapply scan_split_pre.
    + intros n Hn. destruct post as [|n0 post']; simplify_eq/=.
      apply (found_in_false symbol n post'); [|done]. by eapply scan_split_post.
    + by apply contents_inv.
    + destruct (entries m !! brk m) eqn:E; [|done].
      apply (inv_entries _ _ _ Hinv) in E. lia.
    + destruct (chars m !! (brk m + 1)) eqn:E; [|done].
      apply (inv_chars _ _ _ Hinv) in E. lia.
Qed.

Lemma symtabInstall_spec_witness :
  let h := table_a in
  let m := memory_a in
  let symbol := "b"%string in
  let data := 2 in
  ∃ b, contents h m !! Z.to_nat (hash h symbol) = Some b ∧
  (∀ n, n ∈ b → n_key n = symbol →
     ∃ e pre post,
       b = pre ++ n :: post ∧ entries m !! n_addr n = Some e ∧
       symtabInstall h m symbol data
         = Ok (1, h, store_entry m (n_addr n)
                       {| key := key e; value := data; next := next e |}) ∧
       contents h (store_entry m (n_addr n)
                     {| key := key e; value := data; next := next e |})
         = <[Z.to_nat (hash h symbol) := pre ++ set_node_value data n :: post]>
             (contents h m)) ∧
  (symbol ∉ n_key <$> b → granted 2 m →
     ∃ h' m' pre post,
       symtabInstall h m symbol data = Ok (1, h', m') ∧
       b = pre ++ post ∧
       Forall (λ n, strcmp symbol (n_key n) = Gt) pre ∧
       (∀ n, head post = Some n → strcmp symbol (n_key n) = Lt) ∧
       contents h' m'
         = <[Z.to_nat (hash h symbol) :=
               pre ++ {| n_addr := brk m; n_key := symbol; n_value := data |}
                   :: post]> (contents h m) ∧
       entries m !! brk m = None ∧ chars m !! (brk m + 1) = None ∧
       chars m' = <[brk m + 1 := symbol]> (chars m) ∧
       (∀ a e, entries m !! a = Some e → a ∉ n_addr <$> b →
               entries m' !! a = Some e)).
Proof.
  intros h m symbol data.
  apply (symtabInstall_spec ["a"%string] h m symbol data).
  apply (reach_install [] one_bucket (fresh_memory []) "a" 1 1 table_a memory_a).
  - apply (reach_create 1 [] one_bucket (fresh_memory [])); [lia|].
    vm_compute. reflexivity.
  - vm_compute. reflexivity.
Defined.

(** C10: on every iterator that the interface produces (made by
    symtabCreateIterator, advanced by symtabNext, whatever was installed or
    iterated in between), a call of symtabNext that returns NULL leaves the
    contents of the output slot as they were. *)
Theorem symtabNext_end_keeps_slot (h : hashtable_s) (m : memory)
    (it : hash_elem_it_s) (returnData : Z) (it' : hash_elem_it_s) (out : Z) :
  iter_reachable h m it →
  symtabNext h m it returnData = Ok (NULL, it', out) →
  out = returnData.
Proof.
  intros Hre Hn. destruct (iter_reachable_inv _ _ _ Hre) as (bs & Hinv & Hit).
  destruct (symtabNext_inv _ _ _ _ _ _ _ _ Hinv Hit Hn) as (_ & Hnull & _).
  by apply Hnull.
Qed.

Lemma symtabNext_end_keeps_slot_witness :
  symtabNext two_buckets memory_iterator {| index := 1; elem := 4 |} 77
    = Ok (NULL, {| index := 2; elem := 4 |}, 77) ∧
  77 = 77.
Proof.
  split; [vm_compute; reflexivity|].
  apply (symtabNext_end_keeps_slot two_buckets memory_iterator
           {| index := 1; elem := 4 |} 77 {| index := 2; elem := 4 |} 77).
  - apply (iter_created [] two_buckets (fresh_memory []) _ memory_iterator).
    + apply (reach_create 2 []); [lia|]. vm_compute. reflexivity.
    + vm_compute. reflexivity.
  - vm_compute. reflexivity.
Defined.

(** C1: symtabDelete on a table of capacity 1.  With the bucket empty the
    first pass reads the key of a NULL head.  With one entry the loop goes on
    to index 1, outside the array.  With a chain of two entries, one pass of
    the loop over the bucket frees one key buffer only: both entry nodes and
    the second key buffer stay allocated. *)
Theorem symtabDelete_examples :
  delete_table (build 1 []) = Fault NullDeref ∧
  delete_table (build 1 [("a", 1)]%string) = Fault OutOfBounds ∧
  (let st := state_of (build 1 [("a", 1); ("b", 2)]%string) in
   contents st.1 st.2
     = [[ {| n_addr := 3; n_key := "a"; n_value := 1 |};
          {| n_addr := 5; n_key := "b"; n_value := 2 |} ]] ∧
   live_blocks st.2 = (2%nat, 2%nat) ∧
   (m' ← (p ← delete_loop 1 st.1 st.2 0 NULL; Ok p.1); Ok (live_blocks m'))
     = Ok (2%nat, 1%nat)).
Proof. vm_compute. done. Qed.

(** C2: a table of capacity 1 in which "a" is installed with the value 2^32.
    The key is at the head of its chain and [lookup] returns the value, but
    symtabLookup, which stores that result in an [int], returns NULL. *)
Theorem symtabLookup_truncates :
  let st := state_of (build 1 [("a", 2 ^ 32)]%string) in
  contents st.1 st.2 = [[ {| n_addr := 3; n_key := "a"; n_value := 2 ^ 32 |} ]] ∧
  lookup st.1 st.2 "a" = Ok (2 ^ 32) ∧
  symtabLookup st.1 st.2 "a" = Ok NULL.
Proof. vm_compute. done. Qed.

(** C3: a table of capacity 2 in which "b" is installed (bucket 0; bucket 1
    is empty).  The first call of symtabNext returns the pair; the second one
    reads slot 2 of the two-slot bucket array instead of reporting the end. *)
Theorem iterate_out_of_bounds :
  iterate_table 1 (build 2 [("b", 1)]%string) = Ok ([("b"%string, 1)], false) ∧
  iterate_table 2 (build 2 [("b", 1)]%string) = Fault OutOfBounds.
Proof. vm_compute. done. Qed.

(** C7: a table of capacity 10 in which "apple" is installed.  The first call
    of symtabNext returns the pair, the second one returns NULL, the third one
    reads through the NULL cursor that the second one left. *)
Theorem next_after_end_faults :
  next_calls_table 3 77 (build 10 [("apple", 1)]%string)
    = Ok [Ok (4, 1); Ok (NULL, 1); Fault NullDeref].
Proof. vm_compute. done. Qed.

(** C8: on the empty table of capacity 1, symtabCreateIterator reads slot 1
    of the one-slot bucket array. *)
Theorem empty_capacity_one_iterator :
  iterator_table (build 1 []) = Fault OutOfBounds.
Proof. vm_compute. done. Qed.

End Claims.

(** * Further properties of the table *)

Section InstallShape.

Implicit Types (h : hashtable_s) (m : memory) (bs : list (list node)).

Lemma strcmp_lt_not_gt s1 s2 : strcmp s1 s2 = Lt → strcmp s2 s1 = Gt.
Proof. intros H. by apply strcmp_flip. Qed.

(** The nodes after the exit of the scan have keys above the candidate. *)
Lemma scan_post_above symbol b pre post :
  ascending b → scan_split symbol b = (pre, post) →
  Forall (λ n, strcmp symbol (n_key n) ≠ Gt) post ∧
  (found_in symbol post = false →
   Forall (λ n, strcmp symbol (n_key n) = Lt) post) ∧
  (∀ n post', post = n :: post' → n_key n = symbol →
   Forall (λ n', strcmp symbol (n_key n') = Lt) post').
Proof.
  intros Hasc Hsp. pose proof (scan_split_app _ _ _ _ Hsp) as ->.
  unfold ascending in Hasc. rewrite fmap_app in Hasc.
  apply StronglySorted_app in Hasc as (_ & _ & Hs2).
  destruct post as [|n post]; [by split_and!|].
  pose proof (scan_split_post _ _ _ _ _ Hsp) as Hn.
  simpl in Hs2. apply StronglySorted_cons in Hs2 as [Hall _].
  rewrite Forall_fmap in Hall.
  split_and!.
  - constructor; [done|]. eapply Forall_impl; [exact Hall|]. simpl.
    intros n' Hlt Hgt. unfold key_lt in Hlt.
    destruct (strcmp symbol (n_key n)) eqn:Hc; [|..|done].
    + apply strcmp_eq in Hc. rewrite Hc in Hgt. congruence.
    + pose proof (strcmp_lt_trans _ _ _ Hc Hlt). congruence.
  - intros Hf. pose proof (found_in_false _ _ _ Hn Hf) as Hlt.
    constructor; [done|]. eapply Forall_impl; [exact Hall|]. simpl.
    intros n' Hlt'. by eapply strcmp_lt_trans.
  - intros n0 post' [= <- <-] <-. done.
Qed.

(** What a call of symtabInstall that returns leaves behind: either failure
    and the table as it was, or the chain of the selected bucket with the
    pair at its sorted place. *)
Lemma install_shape h m bs symbol data r h' m' :
  table_inv h m bs →
  symtabInstall h m symbol data = Ok (r, h', m') →
  size h' = size h ∧
  ∃ b, bs !! Z.to_nat (hash h symbol) = Some b ∧
  ((r = 0 ∧ h' = h ∧ table_inv h' m' bs ∧ symbol ∉ n_key <$> b) ∨
   (r = 1 ∧ ∃ pre old post a,
      b = pre ++ old ++ post ∧
      (old = [] ∨ ∃ n, old = [n] ∧ n_key n = symbol ∧ n_addr n = a) ∧
      Forall (λ n, strcmp symbol (n_key n) = Gt) pre ∧
      Forall (λ n, strcmp symbol (n_key n) = Lt) post ∧
      table_inv h' m'
        (<[Z.to_nat (hash h symbol) :=
             pre ++ {| n_addr := a; n_key := symbol; n_value := data |} :: post]> bs))).
Proof.
  intros Hinv Hi.
  destruct (inv_bucket h m bs symbol Hinv) as (p & b & Hp & Hb & Hc & Hget).
  destruct (scan_split symbol b) as [pre post] eqn:Hsp.
  assert (ascending b) as Hasc.
  { pose proof (inv_sorted _ _ _ Hinv) as Hall. rewrite Forall_forall in Hall.
    apply Hall. by eapply list_elem_of_lookup_2. }
  pose proof (scan_split_pre _ _ _ _ Hsp) as Hpre.
  destruct (scan_post_above _ _ _ _ Hasc Hsp) as (_ & Hpost1 & Hpost2).
  pose proof (scan_split_app _ _ _ _ Hsp) as Happ.
  destruct (found_in symbol post) eqn:Hf.
  - destruct (found_in_true _ _ Hf) as (n & post' & -> & Hk).
    destruct (install_update h m bs symbol data b pre n post' Hinv Hb Hsp Hf)
      as (e & He & Hi' & Hinv').
    rewrite Hi' in Hi. injection Hi as <- <- <-.
    split; [done|]. exists b. split; [done|]. right. split; [done|].
    exists pre, [n], post', (n_addr n). split_and!; [done|right; by exists n|done| |].
    + by eapply Hpost2.
    + unfold set_node_value in Hinv'. by rewrite Hk in Hinv'.
  - pose proof (scan_absent _ _ _ _ Hasc Hsp Hf) as Habs.
    destruct (oracle m) as [|[] o] eqn:Ho.
    + destruct (install_insert h m bs symbol data b pre post Hinv Hb Hsp Hf)
        as (h2 & m2 & Hi' & Hinv' & Hsz & _).
      { apply granted_2. by rewrite Ho. }
      rewrite Hi' in Hi. injection Hi as <- <- <-.
      split; [done|]. exists b. split; [done|]. right. split; [done|].
      exists pre, [], post, (brk m). split_and!; [done|by left|done|by apply Hpost1|done].
    + destruct (decide (head o = Some false)) as [Ho2|Ho2].
      * rewrite (install_nokey h m bs symbol data b pre post) in Hi; try done;
          by rewrite Ho.
      * destruct (install_insert h m bs symbol data b pre post Hinv Hb Hsp Hf)
          as (h2 & m2 & Hi' & Hinv' & Hsz & _).
        { apply granted_2. by rewrite Ho. }
        rewrite Hi' in Hi. injection Hi as <- <- <-.
        split; [done|]. exists b. split; [done|]. right. split; [done|].
        exists pre, [], post, (brk m).
        split_and!; [done|by left|done|by apply Hpost1|done].
    + rewrite (install_nomem h m bs symbol data b pre post o) in Hi; try done.
      injection Hi as <- <- <-.
      split; [done|]. exists b. split; [done|]. left. split_and!; [done..| |done].
      eapply table_inv_extend; [done|done|done| |done].
      apply (inv_entries _ _ _ Hinv).
Qed.

End InstallShape.

Section TableExtras.

Implicit Types (h : hashtable_s) (m : memory) (bs : list (list node)).

Lemma pairs_app b1 b2 : pairs (b1 ++ b2) = pairs b1 ++ pairs b2.
Proof. unfold pairs. apply fmap_app. Qed.

Lemma pairs_keys b : (pairs b).*1 = n_key <$> b.
Proof. unfold pairs. rewrite <- list_fmap_compose. done. Qed.

Lemma hash_same_size h h' s : size h' = size h → hash h' s = hash h s.
Proof. intros Hs. unfold hash. by rewrite Hs. Qed.

(** X1: the bucket index that lookup and symtabInstall compute from the hash
    is a valid index of the bucket array, for every key. *)
Theorem bucket_index_in_bounds (h : hashtable_s) (s : string) :
  1 ≤ size h < 2 ^ 31 → length (table h) = Z.to_nat (size h) →
  0 ≤ int_of_uint (hash h s) < size h ∧
  ∃ p, table_get h (int_of_uint (hash h s)) = Ok p.
Proof.
  intros Hs Hl. pose proof (hash_range h s Hs) as Hr.
  rewrite int_of_uint_small by lia. split; [done|].
  destruct (lookup_lt_is_Some_2 (table h) (Z.to_nat (hash h s))) as [p Hp]; [lia|].
  exists p. rewrite <- (Z2Nat.id (hash h s)) by lia. by apply table_get_lookup.
Qed.

Lemma bucket_index_in_bounds_witness :
  0 ≤ int_of_uint (hash table_a "apple") < size table_a ∧
  ∃ p, table_get table_a (int_of_uint (hash table_a "apple")) = Ok p.
Proof.
  apply (bucket_index_in_bounds table_a "apple"); [simpl; lia|reflexivity].
Defined.

(** X2: lookup after a successful symtabInstall of (symbol, data).  If no key
    of the selected chain was below [symbol], the new or updated entry is the
    head of the chain and [lookup] returns [data]; if some key of the chain
    was below [symbol], [lookup] returns NULL although the pair is in the
    table.  symtabLookup does the same when [data] fits a non-negative int. *)
Theorem lookup_after_install (ks : list string) (h : hashtable_s) (m : memory)
    (symbol : string) (data : Z) (h' : hashtable_s) (m' : memory) (b : list node) :
  reachable ks h m →
  symtabInstall h m symbol data = Ok (1, h', m') →
  contents h m !! Z.to_nat (hash h symbol) = Some b →
  (symbol, data) ∈ pairs (concat (contents h' m')) ∧
  ((∀ n, n ∈ b → strcmp symbol (n_key n) ≠ Gt) →
     lookup h' m' symbol = Ok data ∧
     (0 ≤ data < 2 ^ 31 → symtabLookup h' m' symbol = Ok data)) ∧
  ((∃ n, n ∈ b ∧ strcmp symbol (n_key n) = Gt) →
     lookup h' m' symbol = Ok NULL ∧ symtabLookup h' m' symbol = Ok NULL).
Proof.
  intros Hre Hi Hb. destruct (reachable_inv _ _ _ Hre) as (bs & Hinv & _).
  rewrite (contents_inv _ _ _ Hinv) in Hb.
  destruct (install_shape _ _ _ _ _ _ _ _ Hinv Hi) as (Hsz & b0 & Hb0 & Hcase).
  rewrite Hb in Hb0. injection Hb0 as <-.
  destruct Hcase as [(? & _)|(_ & pre & old & post & a & Happ & Hold & Hpre & Hpost & Hinv')];
    [done|].
  rewrite (contents_inv _ _ _ Hinv').
  assert (<[Z.to_nat (hash h symbol) :=
              pre ++ {| n_addr := a; n_key := symbol; n_value := data |} :: post]> bs
            !! Z.to_nat (hash h' symbol)
          = Some (pre ++ {| n_addr := a; n_key := symbol; n_value := data |} :: post))
    as Hb'.
  { rewrite (hash_same_size h h') by done.
    apply list_lookup_insert_eq. by eapply lookup_lt_Some. }
  pose proof (lookup_head h' m' _ symbol _ Hinv' Hb') as Hl.
  split_and!.
  - unfold pairs. apply list_elem_of_fmap.
    exists {| n_addr := a; n_key := symbol; n_value := data |}. split; [done|].
    apply elem_of_concat. eexists. split; [|by eapply list_elem_of_lookup_2].
    set_solver.
  - intros Hnone. assert (pre = []) as ->.
    { destruct pre as [|n0 pre]; [done|]. apply Forall_cons in Hpre as [Hgt _].
      destruct (Hnone n0); [|done]. rewrite Happ. set_solver. }
    simpl in Hl. rewrite decide_True in Hl by done. split; [done|].
    intros Hd. rewrite (symtabLookup_lookup _ _ _ _ Hl). f_equal.
    by apply int_round_trip.
  - intros (n & Hn & Hgt). destruct pre as [|n0 pre].
    + exfalso. rewrite Happ in Hn. simpl in Hn.
      apply elem_of_app in Hn as [Hn|Hn].
      * destruct Hold as [->|(n1 & -> & Hk & _)]; [by apply elem_of_nil in Hn|].
        apply list_elem_of_singleton in Hn as ->.
        by rewrite Hk, strcmp_refl in Hgt.
      * rewrite Forall_forall in Hpost. specialize (Hpost n Hn). congruence.
    + apply Forall_cons in Hpre as [Hgt0 _]. simpl in Hl.
      rewrite decide_False in Hl.
      * split; [done|]. by rewrite (symtabLookup_lookup _ _ _ _ Hl).
      * intros Heq. by rewrite Heq, strcmp_refl in Hgt0.
Qed.

(** X3: a call of symtabInstall that returns changes no chain but the one of
    the bucket of its key: the other chains, and with them what [lookup] and
    symtabLookup return for every key of another bucket, are as before. *)
Theorem install_other_buckets (ks : list string) (h : hashtable_s) (m : memory)
    (symbol : string) (data r : Z) (h' : hashtable_s) (m' : memory) :
  reachable ks h m →
  symtabInstall h m symbol data = Ok (r, h', m') →
  (∀ i, i ≠ Z.to_nat (hash h symbol) → contents h' m' !! i = contents h m !! i) ∧
  (∀ k, hash h k ≠ hash h symbol →
        lookup h' m' k = lookup h m k ∧ symtabLookup h' m' k = symtabLookup h m k).
Proof.
  intros Hre Hi. destruct (reachable_inv _ _ _ Hre) as (bs & Hinv & _).
  destruct (install_shape _ _ _ _ _ _ _ _ Hinv Hi) as (Hsz & b & Hb & Hcase).
  assert (∃ bs', table_inv h' m' bs' ∧
            ∀ i, i ≠ Z.to_nat (hash h symbol) → bs' !! i = bs !! i)
    as (bs' & Hinv' & Hsame).
  { destruct Hcase as [(_ & -> & Hinv' & _)|(_ & pre & old & post & a & _ & _ & _ & _ & Hinv')].
    - by exists bs.
    - eexists. split; [exact Hinv'|]. intros i Hne. by apply list_lookup_insert_ne. }
  rewrite (contents_inv _ _ _ Hinv), (contents_inv _ _ _ Hinv'). split; [done|].
  intros k Hk.
  pose proof (hash_range h k (inv_size _ _ _ Hinv)) as Hr1.
  pose proof (hash_range h symbol (inv_size _ _ _ Hinv)) as Hr2.
  destruct (inv_bucket h m bs k Hinv) as (p & bk & _ & Hbk & _).
  assert (lookup h' m' k = lookup h m k) as Hl.
  { rewrite (lookup_head h m bs k bk Hinv Hbk).
    apply (lookup_head h' m' bs' k bk Hinv').
    rewrite (hash_same_size h h') by done. rewrite Hsame; [done|]. lia. }
  split; [done|]. unfold symtabLookup. by rewrite Hl.
Qed.

(** The map of the chains after symtabInstall. *)
Lemma install_map h m bs symbol data r h' m' :
  table_inv h m bs →
  symtabInstall h m symbol data = Ok (r, h', m') →
  ∃ bs', table_inv h' m' bs' ∧ size h' = size h ∧
    (list_to_map (pairs (concat bs')) : gmap string Z)
      = if r =? 1 then <[symbol := data]> (list_to_map (pairs (concat bs)))
        else list_to_map (pairs (concat bs)).
Proof.
  intros Hinv Hi.
  destruct (install_shape _ _ _ _ _ _ _ _ Hinv Hi) as (Hsz & b & Hb & Hcase).
  destruct Hcase as [(-> & -> & Hinv' & _)
                    |(-> & pre & old & post & a & Happ & Hold & Hpre & Hpost & Hinv')].
  { exists bs. by split_and!. }
  eexists. split_and!; [exact Hinv'|done|]. simpl.
  pose proof (keys_nodup _ _ _ Hinv) as Hnd. pose proof (keys_nodup _ _ _ Hinv') as Hnd'.
  rewrite <- pairs_keys in Hnd, Hnd'.
  destruct (concat_insert _ _ _ Hb) as (l1 & l2 & Hcat & Hcat').
  rewrite Hcat' in Hnd' |- *. rewrite Hcat in Hnd |- *. clear Hcat Hcat'.
  apply map_eq. intros k.
  destruct (decide (k = symbol)) as [->|Hne].
  - rewrite lookup_insert_eq. apply elem_of_list_to_map_1; [done|].
    rewrite !pairs_app. unfold pairs at 2. simpl. set_solver.
  - rewrite lookup_insert_ne by done. apply option_eq. intros x.
    rewrite <- !elem_of_list_to_map by done.
    rewrite Happ, !pairs_app. unfold pairs at 3. simpl.
    rewrite !elem_of_app, elem_of_cons.
    assert ((k, x) ∉ pairs old) as Hold'.
    { destruct Hold as [->|(n & -> & Hk & _)]; [by intros ?%elem_of_nil|].
      unfold pairs. simpl. intros ?%list_elem_of_singleton. congruence. }
    split.
    + intros [H|[[H|[H|H]]|H]]; [by eauto|by eauto 6|congruence|by eauto 6|by eauto].
    + intros [H|[[H|[H|H]]|H]]; [by eauto|by eauto 6|done|by eauto 6|by eauto].
Qed.

(** X4: symtabInstall is insertion into the map of the table: when it returns
    1 the map of the table is the former one with [symbol] bound to [data];
    when it returns 0 the map is the former one. *)
Theorem install_is_map_insert (ks : list string) (h : hashtable_s) (m : memory)
    (symbol : string) (data r : Z) (h' : hashtable_s) (m' : memory) :
  reachable ks h m →
  symtabInstall h m symbol data = Ok (r, h', m') →
  table_map h' m'
    = if r =? 1 then <[symbol := data]> (table_map h m) else table_map h m.
Proof.
  intros Hre Hi. destruct (reachable_inv _ _ _ Hre) as (bs & Hinv & _).
  destruct (install_map _ _ _ _ _ _ _ _ Hinv Hi) as (bs' & Hinv' & _ & Hmap).
  unfold table_map. by rewrite (contents_inv _ _ _ Hinv), (contents_inv _ _ _ Hinv').
Qed.

(** X5: symtabCreateIterator returns the NULL handle exactly when malloc
    refuses the iterator, and in every case in which it returns it leaves the
    table as it was: same chains, same key buffers, same results of lookup. *)
Theorem createIterator_keeps_table (ks : list string) (h : hashtable_s) (m : memory)
    (oit : option hash_elem_it_s) (m' : memory) :
  reachable ks h m →
  symtabCreateIterator h m = Ok (oit, m') →
  (oit = None ↔ head (oracle m) = Some false) ∧
  contents h m' = contents h m ∧ chars m' = chars m ∧
  (∀ k, lookup h m' k = lookup h m k).
Proof.
  intros Hre Hc. destruct (reachable_inv _ _ _ Hre) as (bs & Hinv & _).
  destruct (createIterator_inv _ _ _ _ _ Hinv Hc) as (Hinv' & _ & Hcs & _).
  split_and!.
  - pose proof (inv_brk _ _ _ Hinv) as Hbrk.
    assert ((brk m =? NULL) = false) as Hnz by (apply Z.eqb_neq; unfold NULL; lia).
    revert Hc. unfold symtabCreateIterator, malloc at 1.
    destruct (oracle m) as [|[] o] eqn:Ho; cbn [head];
      try (rewrite Hnz;
           destruct (table_get h 0) as [el|]; [rewrite bind_ok|done];
           destruct (skip_empty (skip_fuel h) h _ 0 el) as [[idx el']|];
             [rewrite bind_ok|done];
           destruct (malloc_entry _) as [s m2];
           destruct (set_next m2 s el') as [m3|]; [rewrite bind_ok|done];
           intros [= <- <-]; split; intros; done).
    rewrite Z.eqb_refl. intros [= <- <-]. done.
  - by rewrite (contents_inv _ _ _ Hinv), (contents_inv _ _ _ Hinv').
  - done.
  - intros k. destruct (inv_bucket h m bs k Hinv) as (p & bk & _ & Hbk & _).
    by rewrite (lookup_head h m bs k bk Hinv Hbk), (lookup_head h m' bs k bk Hinv' Hbk).
Qed.

(** X6: symtabNext never invents a pair.  On every iterator of the interface,
    a result other than NULL is the key buffer of a node of the table,
    together with the value of that node. *)
Theorem next_returns_table_pair (h : hashtable_s) (m : memory)
    (it : hash_elem_it_s) (returnData k : Z) (it' : hash_elem_it_s) (out : Z) :
  iter_reachable h m it →
  symtabNext h m it returnData = Ok (k, it', out) →
  k ≠ NULL →
  ∃ s, chars m !! k = Some s ∧ (s, out) ∈ pairs (concat (contents h m)).
Proof.
  intros Hre Hn Hk. destruct (iter_reachable_inv _ _ _ Hre) as (bs & Hinv & Hit).
  destruct (symtabNext_inv _ _ _ _ _ _ _ _ Hinv Hit Hn) as (_ & _ & Hpair).
  destruct (Hpair Hk) as (n & Hin & _ & Hs & ->).
  exists (n_key n). split; [done|]. rewrite (contents_inv _ _ _ Hinv).
  unfold pairs. apply list_elem_of_fmap. by exists n.
Qed.

End TableExtras.

Section IterationAll.

Implicit Types (h : hashtable_s) (m : memory) (bs : list (list node)).

#[local] Arguments skip_empty : simpl never.
#[local] Arguments skip_fuel : simpl never.

(** From an empty last bucket the loop over the buckets reads the slot after
    the array. *)
Lemma skip_empty_overrun h m bs fuel (idx : nat) el :
  table_inv h m bs →
  S idx = length bs → bs !! idx = Some [] → table h !! idx = Some el →
  skip_empty (S fuel) h m (Z.of_nat idx) el = Fault OutOfBounds.
Proof.
  intros Hinv Hidx Hb Hel. pose proof (inv_size _ _ _ Hinv) as Hs.
  pose proof (inv_length _ _ _ Hinv) as Hlen.
  pose proof (Forall2_length _ _ _ (inv_chain _ _ _ Hinv)) as Hlen'.
  rewrite skip_empty_unfold.
  destruct (Forall2_lookup_l _ _ _ _ _ (inv_chain _ _ _ Hinv) Hel) as (bi & Hbi & Hc).
  rewrite Hb in Hbi. injection Hbi as <-. unfold chain in Hc. simpl in Hc. subst el.
  simpl. cbv zeta. rewrite (u32_small (Z.of_nat idx + 1)) by lia.
  rewrite table_get_out by lia. done.
Qed.

(** From an empty bucket before the last one, with only empty buckets after
    it, the loop stops at the last slot with a NULL element. *)
Lemma skip_empty_none h m bs fuel (idx : nat) el :
  table_inv h m bs →
  (S idx < length bs)%nat →
  (∀ i bi, (idx ≤ i)%nat → bs !! i = Some bi → bi = []) →
  table h !! idx = Some el →
  (length bs - idx ≤ fuel)%nat →
  skip_empty fuel h m (Z.of_nat idx) el = Ok (size h - 1, NULL).
Proof.
  intros Hinv. pose proof (inv_size _ _ _ Hinv) as Hs.
  pose proof (inv_length _ _ _ Hinv) as Hlen.
  pose proof (Forall2_length _ _ _ (inv_chain _ _ _ Hinv)) as Hlen'.
  revert idx el. induction fuel as [|fuel IH]; intros idx el Hlt Hempty Hel Hf; [lia|].
  rewrite skip_empty_unfold.
  destruct (Forall2_lookup_l _ _ _ _ _ (inv_chain _ _ _ Hinv) Hel) as (bi & Hbi & Hc).
  assert (bi = []) as -> by (by apply (Hempty idx)).
  unfold chain in Hc. simpl in Hc. subst el. simpl. cbv zeta.
  rewrite (u32_small (Z.of_nat idx + 1)), (u32_small (size h - 1)) by lia.
  destruct (lookup_lt_is_Some_2 (table h) (S idx)) as [el' Hel']; [lia|].
  replace (Z.of_nat idx + 1) with (Z.of_nat (S idx)) by lia.
  rewrite (table_get_lookup _ _ _ Hel'), bind_ok.
  destruct (Z.ltb_spec (Z.of_nat (S idx)) (size h - 1)) as [Hlt'|Hge].
  - apply IH; [lia| |done|lia]. intros i bi Hi. apply Hempty. lia.
  - destruct (Forall2_lookup_l _ _ _ _ _ (inv_chain _ _ _ Hinv) Hel')
      as (b' & Hb' & Hc').
    assert (b' = []) as -> by (apply (Hempty (S idx)); [lia|done]).
    unfold chain in Hc'. simpl in Hc'. subst el'. do 2 f_equal. lia.
Qed.

(** From every slot on, either all buckets are empty or there is a first one
    that is not. *)
Lemma first_nonempty_or_none bs (k : nat) :
  (∀ i bi, (k ≤ i)%nat → bs !! i = Some bi → bi = []) ∨
  ∃ j b, (k ≤ j)%nat ∧ bs !! j = Some b ∧ b ≠ [] ∧
    (∀ i bi, (k ≤ i < j)%nat → bs !! i = Some bi → bi = []) ∧
    concat (drop k bs) = b ++ concat (drop (S j) bs).
Proof.
  remember (length bs - k)%nat as d eqn:Hd. revert k Hd.
  induction d as [|d IH]; intros k Hd.
  - left. intros i bi Hi Hbi. apply lookup_lt_Some in Hbi. lia.
  - destruct (lookup_lt_is_Some_2 bs k) as [b Hb]; [lia|].
    destruct (decide (b = [])) as [->|Hne].
    + destruct (IH (S k)) as [Hall|(j & b & Hle & Hj & Hb' & Hempty & Hcat)]; [lia| |].
      * left. intros i bi Hi Hbi. destruct (decide (i = k)) as [->|?]; [congruence|].
        apply (Hall i); [lia|done].
      * right. exists j, b. split_and!; [lia|done|done| |].
        -- intros i bi Hi Hbi. destruct (decide (i = k)) as [->|?]; [congruence|].
           apply (Hempty i); [lia|done].
        -- by rewrite (drop_S bs [] k Hb).
    + right. exists k, b. split_and!; [lia|done|done| |].
      * intros i bi Hi. lia.
      * by rewrite (drop_S bs b k Hb).
Qed.

Lemma concat_all_nil (bs : list (list node)) (k : nat) :
  (∀ i bi, (k ≤ i)%nat → bs !! i = Some bi → bi = []) → concat (drop k bs) = [].
Proof.
  revert k. induction bs as [|b bs IH]; intros k Hall; [by rewrite drop_nil|].
  destruct k as [|k]; simpl.
  - rewrite (Hall 0%nat b) by (done || lia). simpl.
    rewrite <- (drop_0 bs). apply IH. intros i bi _ Hbi. apply (Hall (S i)); [lia|done].
  - apply IH. intros i bi Hi Hbi. apply (Hall (S i)); [lia|done].
Qed.

Lemma overrun_last_nonempty bs b : last bs = Some b → b ≠ [] → overrun bs = false.
Proof. intros Hl Hb. unfold overrun. rewrite Hl. by destruct b. Qed.

Lemma overrun_true bs (j : nat) b :
  S (S j) = length bs → bs !! j = Some b → b ≠ [] → bs !! S j = Some [] →
  overrun bs = true.
Proof.
  intros Hlen Hj Hb Hl. unfold overrun. rewrite last_lookup.
  replace (pred (length bs)) with (S j) by lia. rewrite Hl.
  replace (length bs - 2)%nat with j by lia. rewrite Hj. by destruct b.
Qed.

Lemma overrun_false bs :
  (2 ≤ length bs)%nat → bs !! (length bs - 2)%nat = Some [] → overrun bs = false.
Proof.
  intros Hlen Hj. unfold overrun. destruct (last bs) as [[|]|]; try done.
  rewrite Hj. apply bool_decide_eq_false. lia.
Qed.

(** The calls of symtabNext from a cursor that stands before the nodes
    [rest] of bucket [j], whatever the last bucket holds. *)
Lemma iterate_from h m bs fuel it e (j : nat) rest :
  table_inv h m bs →
  entries m !! elem it = Some e → elem it ≠ NULL →
  lseg (entries m) (chars m) (next e) NULL rest →
  index it = Z.of_nat j → (j < length bs)%nat →
  (S j = length bs ∨ ∃ b, bs !! j = Some b ∧ b ≠ []) →
  (length (rest ++ concat (drop (S j) bs)) < fuel)%nat →
  iterate fuel h m it
    = if overrun bs && bool_decide (S j < length bs)%nat then Fault OutOfBounds
      else Ok (pairs (rest ++ concat (drop (S j) bs)), true).
Proof.
  intros Hinv. pose proof (inv_size _ _ _ Hinv) as Hs.
  pose proof (inv_length _ _ _ Hinv) as Hlen.
  pose proof (Forall2_length _ _ _ (inv_chain _ _ _ Hinv)) as Hlen'.
  revert it e j rest.
  induction fuel as [|fuel IH]; intros it e j rest He Hn Hrest Hidx Hj Hbj Hf; [lia|].
  simpl. unfold symtabNext. rewrite (load_entry_ok _ _ e), bind_ok by done.
  cbv zeta. destruct rest as [|n rest]; simpl in Hrest.
  - (* the chain is finished: on to the next buckets *)
    rewrite Hrest. simpl. rewrite Hidx.
    rewrite (u32_small (Z.of_nat j + 1)), (u32_small (size h)) by lia.
    destruct (Z.geb_spec (Z.of_nat j + 1) (size h)) as [Hge|Hlt].
    + rewrite bind_ok. simpl. rewrite drop_ge by lia.
      rewrite bool_decide_eq_false_2 by lia. by rewrite andb_false_r.
    + destruct Hbj as [?|(bj & Hbj & Hbjne)]; [lia|].
      destruct (lookup_lt_is_Some_2 (table h) (S j)) as [el Hel]; [lia|].
      replace (Z.of_nat j + 1) with (Z.of_nat (S j)) by lia.
      rewrite (table_get_lookup _ _ _ Hel), bind_ok.
      rewrite (bool_decide_eq_true_2 (S j < length bs)%nat) by lia.
      rewrite andb_true_r.
      destruct (first_nonempty_or_none bs (S j))
        as [Hall|(j' & b & Hle & Hb & Hne & Hempty & Hcat)].
      * (* nothing but empty buckets remain *)
        rewrite (concat_all_nil bs (S j) Hall).
        destruct (decide (S (S j) = length bs)) as [Hlast|Hmore].
        -- destruct (lookup_lt_is_Some_2 bs (S j)) as [bl Hbl]; [lia|].
           assert (bl = []) as -> by (apply (Hall (S j)); [lia|done]).
           rewrite (overrun_true bs j bj) by done.
           unfold skip_fuel.
           by rewrite (skip_empty_overrun h m bs _ (S j) el) by (done || lia).
        -- rewrite (skip_empty_none h m bs _ (S j) el);
             [|done|lia|done|done|unfold skip_fuel; lia].
           rewrite bind_ok. simpl.
           rewrite overrun_false; [done|lia|].
           destruct (lookup_lt_is_Some_2 bs (length bs - 2)) as [bl Hbl]; [lia|].
           rewrite Hbl. f_equal. apply (Hall (length bs - 2)%nat); [lia|done].
      * apply lookup_lt_Some in Hb as Hj'.
        rewrite (skip_empty_finds h m bs _ (S j) j' b el);
          [|done..|unfold skip_fuel; lia].
        rewrite bind_ok. simpl.
        destruct (Forall2_lookup_r _ _ _ _ _ (inv_chain _ _ _ Hinv) Hb)
          as (p & Hp & Hc).
        unfold chain in Hc. rewrite (lseg_head_addr _ _ _ _ Hc) in Hc.
        destruct b as [|n b]; [done|]. simpl in *.
        destruct Hc as (_ & Hnn & e' & He' & Hk & Hstr & Hv & Hrest').
        apply Z.eqb_neq in Hnn as Hnn'. rewrite Hnn'.
        rewrite (load_entry_ok _ _ e'), !bind_ok by done. simpl.
        apply Z.eqb_neq in Hk as Hk'. rewrite Hk'.
        unfold load_string. rewrite Hk', Hstr, bind_ok.
        rewrite (IH _ e' j' b); [|done|done|done|done|lia|by eauto|].
        -- rewrite Hcat, Hv.
           destruct (decide (S j' < length bs)%nat) as [Hin|Hout].
           ++ rewrite (bool_decide_eq_true_2 (S j' < length bs)%nat) by lia.
              rewrite andb_true_r. by destruct (overrun bs).
           ++ rewrite (overrun_last_nonempty bs (n :: b)); [done| |done].
              rewrite last_lookup. replace (pred (length bs)) with j' by lia. done.
        -- rewrite Hcat in Hf. simpl in Hf. lia.
  - (* the next node of the chain *)
    destruct Hrest as (Hnx & Hnn & e' & He' & Hk & Hstr & Hv & Hrest').
    apply Z.eqb_neq in Hnn as Hnn'. rewrite Hnn'. simpl. rewrite Hnn'.
    rewrite (load_entry_ok _ _ e'), !bind_ok by done. simpl.
    apply Z.eqb_neq in Hk as Hk'. rewrite Hk'.
    unfold load_string. rewrite Hk', Hstr, bind_ok.
    rewrite (IH _ e' j rest); [|done|done|done|done|done|done|simpl in Hf; lia].
    rewrite Hv. by destruct (overrun bs && bool_decide (S j < length bs)%nat).
Qed.

(** A complete iteration, by the chains [bs]. *)
Lemma iterate_table_spec h m bs (fuel : nat) :
  table_inv h m bs → granted 2 m →
  (length (concat bs) < fuel)%nat →
  iterate_table fuel (Ok (h, m))
    = if overrun bs then Fault OutOfBounds else Ok (pairs (concat bs), true).
Proof.
  intros Hinv [Hg1 Hg2]%granted_2 Hf.
  pose proof (inv_size _ _ _ Hinv) as Hs.
  pose proof (inv_length _ _ _ Hinv) as Hlen.
  pose proof (Forall2_length _ _ _ (inv_chain _ _ _ Hinv)) as Hlen'.
  pose proof (inv_brk _ _ _ Hinv) as Hbrk.
  destruct (lookup_lt_is_Some_2 (table h) 0) as [el Hel]; [lia|].
  pose proof (table_get_lookup h 0 el Hel) as Hget. change (Z.of_nat 0) with 0 in Hget.
  set (m1 := {| entries := entries m; chars := chars m; brk := brk m + 1;
                oracle := tail (oracle m) |}).
  assert (table_inv h m1 bs) as Hinv1.
  { eapply table_inv_extend; [done|done|done| |simpl; lia].
    intros a e Ha. apply (inv_entries _ _ _ Hinv) in Ha. simpl. lia. }
  assert ((brk m =? NULL) = false) as Hnz by (apply Z.eqb_neq; unfold NULL; lia).
  assert ((brk m + 1 =? NULL) = false) as Hnz1 by (apply Z.eqb_neq; unfold NULL; lia).
  assert (∀ j p, (j < length bs)%nat →
            (S j = length bs ∨ ∃ b, bs !! j = Some b ∧ b ≠ []) →
            (∃ b, bs !! j = Some b ∧ p = head_addr b ∧ concat bs = b ++ concat (drop (S j) bs)) →
            skip_empty (skip_fuel h) h m1 0 el = Ok (Z.of_nat j, p) →
            iterate_table fuel (Ok (h, m))
              = if overrun bs && bool_decide (S j < length bs)%nat then Fault OutOfBounds
                else Ok (pairs (concat bs), true)) as Hrun.
  { intros j p Hj Hbj (b & Hb & -> & Hcat) Hskip.
    assert (symtabCreateIterator h m
            = Ok (Some {| index := Z.of_nat j; elem := brk m + 1 |},
                  store_entry
                    {| entries := <[brk m + 1 := {| key := indeterminate;
                                                    value := indeterminate;
                                                    next := indeterminate |}]> (entries m);
                       chars := chars m; brk := brk m + 1 + 1;
                       oracle := tail (tail (oracle m)) |}
                    (brk m + 1)
                    {| key := indeterminate; value := indeterminate;
                       next := head_addr b |})) as Hci.
    { unfold symtabCreateIterator. rewrite malloc_granted by done. fold m1.
      rewrite Hnz, Hget, bind_ok, Hskip, bind_ok.
      unfold malloc_entry. rewrite malloc_granted by done. simpl. rewrite Hnz1.
      erewrite set_next_ok; [|unfold NULL; lia|simpl; apply lookup_insert_eq].
      rewrite bind_ok. reflexivity. }
    destruct (createIterator_inv _ _ _ _ _ Hinv Hci) as (Hinv' & Hes & Hcs & _).
    unfold iterate_table. rewrite bind_ok. simpl. rewrite Hci, bind_ok. simpl.
    rewrite (iterate_from h _ bs fuel _
               {| key := indeterminate; value := indeterminate; next := head_addr b |}
               j b Hinv'); simpl.
    - by rewrite Hcat.
    - unfold store_entry. simpl. apply lookup_insert_eq.
    - unfold NULL. lia.
    - destruct (Forall2_lookup_r _ _ _ _ _ (inv_chain _ _ _ Hinv') Hb)
        as (p & Hp & Hc).
      unfold chain in Hc. by rewrite (lseg_head_addr _ _ _ _ Hc) in Hc.
    - done.
    - done.
    - done.
    - by rewrite <- Hcat. }
  destruct (first_nonempty_or_none bs 0)
    as [Hall|(j & b & _ & Hb & Hne & Hempty & Hcat)].
  - (* an empty table *)
    pose proof (concat_all_nil bs 0 Hall) as Hnil. rewrite drop_0 in Hnil.
    destruct (lookup_lt_is_Some_2 bs 0) as [b0 Hb0]; [lia|].
    assert (b0 = []) as -> by (apply (Hall 0%nat); [lia|done]).
    destruct (decide (length bs = 1%nat)) as [Hone|Hmore].
    + assert (overrun bs = true) as ->.
      { unfold overrun. rewrite last_lookup, Hone. simpl. rewrite Hb0.
        reflexivity. }
      unfold iterate_table. rewrite bind_ok. simpl.
      unfold symtabCreateIterator. rewrite malloc_granted by done. fold m1.
      rewrite Hnz, Hget, bind_ok. unfold skip_fuel.
      by rewrite (skip_empty_overrun h m1 bs _ 0 el) by (done || lia).
    + assert (skip_empty (skip_fuel h) h m1 0 el = Ok (Z.of_nat (length bs - 1), NULL))
        as Hskip.
      { rewrite (skip_empty_none h m1 bs _ 0 el);
          [|done|lia|done|done|unfold skip_fuel; lia].
        do 2 f_equal. lia. }
      destruct (lookup_lt_is_Some_2 bs (length bs - 1)) as [bl Hbl]; [lia|].
      assert (bl = []) as -> by (apply (Hall (length bs - 1)%nat); [lia|done]).
      rewrite (Hrun (length bs - 1)%nat NULL); [|lia|left; lia| |done].
      * rewrite bool_decide_eq_false_2 by lia. rewrite andb_false_r.
        rewrite overrun_false; [done|lia|].
        destruct (lookup_lt_is_Some_2 bs (length bs - 2)) as [b2 Hb2]; [lia|].
        rewrite Hb2. f_equal. apply (Hall (length bs - 2)%nat); [lia|done].
      * exists []. split_and!; [done|done|]. rewrite Hnil. simpl. symmetry.
        apply concat_all_nil. intros i bi _. by apply Hall; lia.
  - rewrite drop_0 in Hcat. apply lookup_lt_Some in Hb as Hj.
    rewrite (Hrun j (head_addr b)); [|done|by eauto|by eauto|].
    + destruct (decide (S j < length bs)%nat) as [Hin|Hout].
      * rewrite (bool_decide_eq_true_2 (S j < length bs)%nat) by lia.
        by rewrite andb_true_r.
      * rewrite (overrun_last_nonempty bs b); [done| |done].
        rewrite last_lookup. replace (pred (length bs)) with j by lia. done.
    + apply (skip_empty_finds h m1 bs (skip_fuel h) 0 j b el);
        [done|lia|done|done|done|done|].
      unfold skip_fuel. lia.
Qed.

(** X7: a complete iteration of a table of the interface (a new iterator,
    then calls of symtabNext until NULL).  When the last bucket is empty and
    either it is the only bucket or the bucket before it is not empty, the
    loop over the buckets reads the slot after the array; in every other case
    the calls return the pairs of the table, bucket after bucket and in chain
    order, each once, and then NULL. *)
Theorem iterate_table_all (ks : list string) (h : hashtable_s) (m : memory)
    (fuel : nat) :
  reachable ks h m → granted 2 m →
  (length (concat (contents h m)) < fuel)%nat →
  iterate_table fuel (Ok (h, m))
    = if overrun (contents h m) then Fault OutOfBounds
      else Ok (pairs (concat (contents h m)), true).
Proof.
  intros Hre Hg Hf. destruct (reachable_inv _ _ _ Hre) as (bs & Hinv & _).
  rewrite (contents_inv _ _ _ Hinv) in *. by apply iterate_table_spec.
Qed.

(** X8: symtabCreateIterator does not test the result of its second call of
    malloc.  On a table of the interface that has a second bucket or an entry
    in its only bucket, if malloc grants the iterator and refuses the entry
    that stands before the first pair, the call writes through NULL. *)
Theorem createIterator_second_malloc (ks : list string) (h : hashtable_s) (m : memory) :
  reachable ks h m →
  head (oracle m) ≠ Some false → head (tail (oracle m)) = Some false →
  2 ≤ size h ∨ (∃ b, head (contents h m) = Some b ∧ b ≠ []) →
  symtabCreateIterator h m = Fault NullDeref.
Proof.
  intros Hre Hg1 Hg2 Hsize.
  destruct (reachable_inv _ _ _ Hre) as (bs & Hinv & _).
  rewrite (contents_inv _ _ _ Hinv) in *.
  pose proof (inv_size _ _ _ Hinv) as Hs.
  pose proof (inv_length _ _ _ Hinv) as Hlen.
  pose proof (Forall2_length _ _ _ (inv_chain _ _ _ Hinv)) as Hlen'.
  pose proof (inv_brk _ _ _ Hinv) as Hbrk.
  destruct (lookup_lt_is_Some_2 (table h) 0) as [el Hel]; [lia|].
  pose proof (table_get_lookup h 0 el Hel) as Hget. change (Z.of_nat 0) with 0 in Hget.
  set (m1 := {| entries := entries m; chars := chars m; brk := brk m + 1;
                oracle := tail (oracle m) |}).
  assert (table_inv h m1 bs) as Hinv1.
  { eapply table_inv_extend; [done|done|done| |simpl; lia].
    intros a e Ha. apply (inv_entries _ _ _ Hinv) in Ha. simpl. lia. }
  assert ((brk m =? NULL) = false) as Hnz by (apply Z.eqb_neq; unfold NULL; lia).
  assert (∃ j p, skip_empty (skip_fuel h) h m1 0 el = Ok (j, p)) as (j & p & Hskip).
  { destruct (first_nonempty_or_none bs 0)
      as [Hall|(j & b & _ & Hb & Hne & Hempty & _)].
    - destruct Hsize as [Hsize|(b & Hb & Hne)].
      + eexists _, _. apply (skip_empty_none h m1 bs _ 0 el);
          [done|lia|done|done|unfold skip_fuel; lia].
      + rewrite head_lookup in Hb. by rewrite (Hall 0%nat b) in Hne by (done || lia).
    - eexists _, _. apply (skip_empty_finds h m1 bs (skip_fuel h) 0 j b el);
        [done|lia|done|done|done|done|].
      apply lookup_lt_Some in Hb. unfold skip_fuel. lia. }
  unfold symtabCreateIterator. rewrite malloc_granted by done. fold m1.
  rewrite Hnz, Hget, bind_ok, Hskip, bind_ok.
  unfold malloc_entry, malloc. simpl.
  destruct (oracle m) as [|o1 [|[] o]]; simpl in *; try done.
Qed.

End IterationAll.

Section Outcomes.

Implicit Types (h : hashtable_s) (m : memory) (bs : list (list node)).

(** A key of the table is in the chain that its hash selects. *)
Lemma key_in_bucket h m bs s b :
  table_inv h m bs → bs !! Z.to_nat (hash h s) = Some b →
  s ∈ n_key <$> concat bs ↔ s ∈ n_key <$> b.
Proof.
  intros Hinv Hb. split.
  - intros (n & -> & Hn)%list_elem_of_fmap.
    apply elem_of_concat in Hn as (b' & Hn & Hb').
    apply list_elem_of_lookup in Hb' as [i Hb'].
    pose proof (inv_hash _ _ _ Hinv i b' n Hb' Hn) as Hh.
    rewrite Hh, Nat2Z.id in Hb. rewrite Hb in Hb'. injection Hb' as <-.
    apply list_elem_of_fmap. by exists n.
  - intros (n & -> & Hn)%list_elem_of_fmap. apply list_elem_of_fmap. exists n.
    split; [done|]. apply elem_of_concat. exists b. split; [done|].
    by eapply list_elem_of_lookup_2.
Qed.

(** The four outcomes of symtabInstall, by the chains [bs]. *)
Lemma install_cases h m bs symbol data :
  table_inv h m bs →
  (symbol ∈ n_key <$> concat bs →
     ∃ m', symtabInstall h m symbol data = Ok (1, h, m') ∧
           oracle m' = oracle m ∧ brk m' = brk m ∧ chars m' = chars m) ∧
  (symbol ∉ n_key <$> concat bs → head (oracle m) = Some false →
     ∃ m', symtabInstall h m symbol data = Ok (0, h, m') ∧
           oracle m' = tail (oracle m)) ∧
  (symbol ∉ n_key <$> concat bs → granted 2 m →
     ∃ h' m', symtabInstall h m symbol data = Ok (1, h', m') ∧
              oracle m' = drop 2 (oracle m) ∧ brk m' = brk m + 2 ∧
              chars m' = <[brk m + 1 := symbol]> (chars m)) ∧
  (symbol ∉ n_key <$> concat bs → head (oracle m) ≠ Some false →
     head (tail (oracle m)) = Some false →
     symtabInstall h m symbol data = Fault NullDeref).
Proof.
  intros Hinv.
  destruct (inv_bucket h m bs symbol Hinv) as (p & b & _ & Hb & _).
  pose proof (key_in_bucket h m bs symbol b Hinv Hb) as Hin.
  destruct (scan_split symbol b) as [pre post] eqn:Hsp.
  assert (ascending b) as Hasc.
  { pose proof (inv_sorted _ _ _ Hinv) as Hall. rewrite Forall_forall in Hall.
    apply Hall. by eapply list_elem_of_lookup_2. }
  assert (found_in symbol post = true ↔ symbol ∈ n_key <$> concat bs) as Hfound.
  { rewrite Hin. destruct (found_in symbol post) eqn:Hf.
    - destruct (found_in_true _ _ Hf) as (n & post' & -> & Hk).
      split; [intros _|done]. rewrite (scan_split_app _ _ _ _ Hsp).
      apply list_elem_of_fmap. exists n. split; [done|]. set_solver.
    - split; [done|]. intros Hk. by destruct (scan_absent _ _ _ _ Hasc Hsp Hf). }
  assert (symbol ∉ n_key <$> concat bs → found_in symbol post = false) as Hnot.
  { intros Hk. destruct (found_in symbol post); [|done]. destruct Hk. by apply Hfound. }
  split_and!.
  - intros Hf%Hfound.
    destruct (found_in_true _ _ Hf) as (n & post' & -> & Hk).
    destruct (install_update h m bs symbol data b pre n post' Hinv Hb Hsp Hf)
      as (e & He & -> & _).
    eexists. split; [done|]. done.
  - intros Hf%Hnot Ho.
    destruct (oracle m) as [|[] o] eqn:Hor; try done.
    rewrite (install_nomem h m bs symbol data b pre post o Hinv Hb Hsp Hf Hor).
    eexists. split; [done|]. done.
  - intros Hf%Hnot Hg.
    destruct (install_insert h m bs symbol data b pre post Hinv Hb Hsp Hf Hg)
      as (h' & m' & -> & _ & _ & Hcs & _ & Hbrk & Ho).
    by eexists _, _.
  - intros Hf%Hnot Hg1 Hg2.
    by apply (install_nokey h m bs symbol data b pre post).
Qed.

(** X9: what symtabInstall does on a table of the interface is settled by
    whether the key is installed and by the answers of malloc.  A key that is
    installed is updated whatever malloc would answer: the result is 1, no
    memory is requested, no key buffer changes, and the map of the table is
    the former map with the key bound to the new value.  For a new key the
    result is 0, with the map unchanged, when malloc refuses the entry node;
    it is 1, with the key bound to the value in the map, when malloc grants
    node and key buffer; and when the node is granted and the key buffer
    refused the call writes through NULL. *)
Theorem symtabInstall_cases (ks : list string) (h : hashtable_s) (m : memory)
    (symbol : string) (data : Z) :
  reachable ks h m →
  (symbol ∈ ks →
     ∃ m', symtabInstall h m symbol data = Ok (1, h, m') ∧
           oracle m' = oracle m ∧ brk m' = brk m ∧ chars m' = chars m ∧
           table_map h m' = <[symbol := data]> (table_map h m)) ∧
  (symbol ∉ ks → head (oracle m) = Some false →
     ∃ m', symtabInstall h m symbol data = Ok (0, h, m') ∧
           oracle m' = tail (oracle m) ∧
           table_map h m' = table_map h m) ∧
  (symbol ∉ ks → granted 2 m →
     ∃ h' m', symtabInstall h m symbol data = Ok (1, h', m') ∧
              oracle m' = drop 2 (oracle m) ∧ brk m' = brk m + 2 ∧
              table_map h' m' = <[symbol := data]> (table_map h m)) ∧
  (symbol ∉ ks → head (oracle m) ≠ Some false →
     head (tail (oracle m)) = Some false →
     symtabInstall h m symbol data = Fault NullDeref).
Proof.
  intros Hre. destruct (reachable_inv _ _ _ Hre) as (bs & Hinv & Hks).
  destruct (install_cases h m bs symbol data Hinv) as (H1 & H2 & H3 & H4).
  rewrite Hks in H1, H2, H3, H4.
  assert (∀ r h' m', symtabInstall h m symbol data = Ok (r, h', m') →
            table_map h' m'
            = if r =? 1 then <[symbol := data]> (table_map h m) else table_map h m)
    as Hmap.
  { intros r h' m' Hi.
    destruct (install_map _ _ _ _ _ _ _ _ Hinv Hi) as (bs' & Hinv' & _ & Hm).
    unfold table_map. by rewrite (contents_inv _ _ _ Hinv), (contents_inv _ _ _ Hinv'). }
  split_and!; [| | |done].
  - intros Hk. destruct (H1 Hk) as (m' & Hi & ? & ? & ?).
    exists m'. split_and!; [done..|]. by rewrite (Hmap _ _ _ Hi).
  - intros Hk Ho. destruct (H2 Hk Ho) as (m' & Hi & ?).
    exists m'. split_and!; [done..|]. by rewrite (Hmap _ _ _ Hi).
  - intros Hk Hg. destruct (H3 Hk Hg) as (h' & m' & Hi & ? & ? & _).
    exists h', m'. split_and!; [done..|]. by rewrite (Hmap _ _ _ Hi).
Qed.

End Outcomes.

Section DeleteFault.

Implicit Types (h : hashtable_s) (m : memory) (bs : list (list node)).

(** The loop of symtabDelete from slot [i], when the key buffers of the
    heads of the earlier buckets are gone: it stops at the first empty
    bucket, or else at the slot after the array. *)
Lemma delete_loop_fault h m bs n (i : nat) mi iterate :
  table_inv h m bs →
  entries mi = entries m →
  (∀ j b nd, (i ≤ j)%nat → bs !! j = Some b → head b = Some nd →
     ∃ e, entries m !! n_addr nd = Some e ∧ key e ≠ NULL ∧
          chars mi !! key e = Some (n_key nd)) →
  (i ≤ length bs)%nat → (length bs < i + n)%nat →
  delete_loop n h mi (Z.of_nat i) iterate
    = Fault (if bool_decide (Exists (λ b, b = []) (drop i bs))
             then NullDeref else OutOfBounds).
Proof.
  intros Hinv. pose proof (inv_size _ _ _ Hinv) as Hs.
  pose proof (inv_length _ _ _ Hinv) as Hlen.
  pose proof (Forall2_length _ _ _ (inv_chain _ _ _ Hinv)) as Hlen'.
  revert i mi iterate.
  induction n as [|n IH]; intros i mi iterate Hes Hheads Hle Hlt; [lia|].
  cbn [delete_loop]. destruct (decide (i = length bs)) as [->|Hne].
  - rewrite table_get_out by lia. rewrite drop_all.
    rewrite bool_decide_eq_false_2; [done|]. by intros ?%Exists_nil.
  - destruct (lookup_lt_is_Some_2 bs i) as [b Hb]; [lia|].
    destruct (Forall2_lookup_r _ _ _ _ _ (inv_chain _ _ _ Hinv) Hb) as (p & Hp & Hc).
    rewrite (table_get_lookup _ _ _ Hp), bind_ok.
    rewrite (drop_S bs b i Hb).
    destruct b as [|nd b].
    + unfold chain in Hc. simpl in Hc. subst p.
      rewrite bool_decide_eq_true_2; [done|]. by constructor.
    + destruct (Hheads i (nd :: b) nd) as (e & He & Hk & Hchars); [lia|done|done|].
      unfold chain in Hc. simpl in Hc. destruct Hc as (-> & Hnn & _).
      rewrite (load_entry_ok mi _ e), bind_ok by (done || by rewrite Hes).
      apply Z.eqb_neq in Hk as Hk'. rewrite Hk'.
      unfold free_chars. rewrite Hk', Hchars, bind_ok.
      replace (Z.of_nat i + 1) with (Z.of_nat (S i)) by lia.
      rewrite IH; [|done| |lia|lia].
      * f_equal.
        rewrite (bool_decide_ext (Exists (λ b0, b0 = []) ((nd :: b) :: drop (S i) bs))
                   (Exists (λ b0, b0 = []) (drop (S i) bs))); [done|].
        rewrite Exists_cons. naive_solver.
      * intros j b' nd' Hj Hb' Hnd'.
        destruct (Hheads j b' nd') as (e' & He' & Hk'' & Hchars'); [lia|done|done|].
        exists e'. split_and!; [done|done|]. simpl.
        rewrite lookup_delete_ne; [done|]. intros Heq. rewrite Heq in Hchars.
        rewrite Hchars in Hchars'. injection Hchars' as Hkeys.
        pose proof (inv_hash _ _ _ Hinv i (nd :: b) nd Hb) as H1.
        pose proof (inv_hash _ _ _ Hinv j b' nd' Hb') as H2.
        rewrite Hkeys in H1. rewrite H1 in H2; [|set_solver].
        destruct b' as [|? ?]; [done|]. injection Hnd' as ->.
        assert (Z.of_nat i = Z.of_nat j) by (apply H2; set_solver). lia.
Qed.

(** X10: symtabDelete never returns on a table of the interface.  Its loop
    reads the key of each bucket head without a test for NULL and runs up to
    the index [size] included: the call reads through NULL at the first
    empty bucket, and when no bucket is empty it reads the slot after the
    array. *)
Theorem symtabDelete_fault (ks : list string) (h : hashtable_s) (m : memory) :
  reachable ks h m →
  symtabDelete h m
    = Fault (if bool_decide (Exists (λ b, b = []) (contents h m))
             then NullDeref else OutOfBounds).
Proof.
  intros Hre. destruct (reachable_inv _ _ _ Hre) as (bs & Hinv & _).
  rewrite (contents_inv _ _ _ Hinv).
  pose proof (inv_size _ _ _ Hinv) as Hs.
  pose proof (inv_length _ _ _ Hinv) as Hlen.
  pose proof (Forall2_length _ _ _ (inv_chain _ _ _ Hinv)) as Hlen'.
  unfold symtabDelete. change 0 with (Z.of_nat 0).
  rewrite (delete_loop_fault h m bs _ 0 m NULL Hinv); [by rewrite drop_0|done| |lia|lia].
  intros j b nd _ Hb Hnd.
  destruct (inv_node h m bs j b nd Hinv Hb) as (e & He & _ & Hk & Hc & _).
  { destruct b; [done|]. injection Hnd as ->. set_solver. }
  by exists e.
Qed.

End DeleteFault.

Section Witnesses.

Lemma reach_2a : reachable ["a"%string] table_2a memory_2a.
Proof.
  apply (reach_install [] two_buckets (fresh_memory []) "a" 1 1 table_2a memory_2a).
  - apply (reach_create 2 [] two_buckets (fresh_memory [])); [lia|].
    vm_compute. reflexivity.
  - vm_compute. reflexivity.
Defined.

Lemma reach_2ac : reachable ["c"; "a"]%string table_2a memory_2ac.
Proof.
  apply (reach_install ["a"%string] table_2a memory_2a "c" 3 1 table_2a memory_2ac).
  - exact reach_2a.
  - vm_compute. reflexivity.
Defined.

Lemma reach_2acb : reachable ["b"; "c"; "a"]%string table_2acb memory_2acb.
Proof.
  apply (reach_install ["c"; "a"]%string table_2a memory_2ac "b" 2 1
           table_2acb memory_2acb).
  - exact reach_2ac.
  - vm_compute. reflexivity.
Defined.

Lemma lookup_after_install_witness :
  ("c"%string, 3) ∈ pairs (concat (contents table_2a memory_2ac)) ∧
  ((∀ n, n ∈ [{| n_addr := 3; n_key := "a"; n_value := 1 |}] →
         strcmp "c" (n_key n) ≠ Gt) →
     lookup table_2a memory_2ac "c" = Ok 3 ∧
     (0 ≤ 3 < 2 ^ 31 → symtabLookup table_2a memory_2ac "c" = Ok 3)) ∧
  ((∃ n, n ∈ [{| n_addr := 3; n_key := "a"; n_value := 1 |}] ∧
         strcmp "c" (n_key n) = Gt) →
     lookup table_2a memory_2ac "c" = Ok NULL ∧
     symtabLookup table_2a memory_2ac "c" = Ok NULL).
Proof.
  apply (lookup_after_install ["a"%string] table_2a memory_2a "c" 3
           table_2a memory_2ac [{| n_addr := 3; n_key := "a"; n_value := 1 |}]).
  - exact reach_2a.
  - vm_compute. reflexivity.
  - vm_compute. reflexivity.
Defined.

Lemma install_other_buckets_witness :
  (∀ i, i ≠ Z.to_nat (hash table_2a "b") →
        contents table_2acb memory_2acb !! i = contents table_2a memory_2ac !! i) ∧
  (∀ k, hash table_2a k ≠ hash table_2a "b" →
        lookup table_2acb memory_2acb k = lookup table_2a memory_2ac k ∧
        symtabLookup table_2acb memory_2acb k = symtabLookup table_2a memory_2ac k).
Proof.
  apply (install_other_buckets ["c"; "a"]%string table_2a memory_2ac "b" 2 1
           table_2acb memory_2acb).
  - exact reach_2ac.
  - vm_compute. reflexivity.
Defined.

Lemma install_is_map_insert_witness :
  table_map table_2acb memory_2acb
    = if 1 =? 1 then <["b"%string := 2]> (table_map table_2a memory_2ac)
      else table_map table_2a memory_2ac.
Proof.
  apply (install_is_map_insert ["c"; "a"]%string table_2a memory_2ac "b" 2 1
           table_2acb memory_2acb).
  - exact reach_2ac.
  - vm_compute. reflexivity.
Defined.

Lemma createIterator_keeps_table_witness :
  (Some {| index := 1; elem := 8 |} = None ↔ head (oracle memory_2ac) = Some false) ∧
  contents table_2a memory_2ac_iterator = contents table_2a memory_2ac ∧
  chars memory_2ac_iterator = chars memory_2ac ∧
  (∀ k, lookup table_2a memory_2ac_iterator k = lookup table_2a memory_2ac k).
Proof.
  apply (createIterator_keeps_table ["c"; "a"]%string table_2a memory_2ac
           (Some {| index := 1; elem := 8 |}) memory_2ac_iterator).
  - exact reach_2ac.
  - vm_compute. reflexivity.
Defined.

Lemma next_returns_table_pair_witness :
  ∃ s, chars memory_2ac_iterator !! 4 = Some s ∧
       (s, 1) ∈ pairs (concat (contents table_2a memory_2ac_iterator)).
Proof.
  apply (next_returns_table_pair table_2a memory_2ac_iterator
           {| index := 1; elem := 8 |} 0 4 {| index := 1; elem := 3 |} 1).
  - apply (iter_created ["c"; "a"]%string table_2a memory_2ac _ memory_2ac_iterator).
    + exact reach_2ac.
    + vm_compute. reflexivity.
  - vm_compute. reflexivity.
  - unfold NULL. lia.
Defined.

Lemma iterate_table_all_witness :
  iterate_table 4 (Ok (table_2acb, memory_2acb))
    = if overrun (contents table_2acb memory_2acb) then Fault OutOfBounds
      else Ok (pairs (concat (contents table_2acb memory_2acb)), true).
Proof.
  apply (iterate_table_all ["b"; "c"; "a"]%string table_2acb memory_2acb 4).
  - exact reach_2acb.
  - vm_compute. constructor.
  - vm_compute. lia.
Defined.

Lemma createIterator_second_malloc_witness :
  symtabCreateIterator two_buckets (fresh_memory [true; false]) = Fault NullDeref.
Proof.
  apply (createIterator_second_malloc [] two_buckets (fresh_memory [true; false])).
  - apply (reach_create 2 [true; true; true; false]); [lia|]. vm_compute. reflexivity.
  - simpl. congruence.
  - reflexivity.
  - left. simpl. lia.
Defined.

Lemma symtabInstall_cases_witness :
  ("c"%string ∈ ["c"; "a"]%string →
     ∃ m', symtabInstall table_2a memory_2ac "c" 9 = Ok (1, table_2a, m') ∧
           oracle m' = oracle memory_2ac ∧ brk m' = brk memory_2ac ∧
           chars m' = chars memory_2ac ∧
           table_map table_2a m' = <["c"%string := 9]> (table_map table_2a memory_2ac)) ∧
  ("c"%string ∉ ["c"; "a"]%string → head (oracle memory_2ac) = Some false →
     ∃ m', symtabInstall table_2a memory_2ac "c" 9 = Ok (0, table_2a, m') ∧
           oracle m' = tail (oracle memory_2ac) ∧
           table_map table_2a m' = table_map table_2a memory_2ac) ∧
  ("c"%string ∉ ["c"; "a"]%string → granted 2 memory_2ac →
     ∃ h' m', symtabInstall table_2a memory_2ac "c" 9 = Ok (1, h', m') ∧
              oracle m' = drop 2 (oracle memory_2ac) ∧ brk m' = brk memory_2ac + 2 ∧
              table_map h' m' = <["c"%string := 9]> (table_map table_2a memory_2ac)) ∧
  ("c"%string ∉ ["c"; "a"]%string → head (oracle memory_2ac) ≠ Some false →
     head (tail (oracle memory_2ac)) = Some false →
     symtabInstall table_2a memory_2ac "c" 9 = Fault NullDeref).
Proof.
  apply (symtabInstall_cases ["c"; "a"]%string table_2a memory_2ac "c" 9).
  exact reach_2ac.
Defined.

Lemma symtabDelete_fault_witness :
  symtabDelete table_2acb memory_2acb
    = Fault (if bool_decide (Exists (λ b, b = []) (contents table_2acb memory_2acb))
             then NullDeref else OutOfBounds).
Proof.
  apply (symtabDelete_fault ["b"; "c"; "a"]%string table_2acb memory_2acb).
  exact reach_2acb.
Defined.

End Witnesses.

Section GetWord.

Implicit Types (fp file : list ascii) (m : memory).

Lemma isalpha_letter a : isalpha (Z.of_N (N_of_ascii a)) = is_letter a.
Proof. destruct a as [[] [] [] [] [] [] [] []]; reflexivity. Qed.

Lemma lower_char a :
  is_letter a = true →
  ascii_of_char (char_of_int (tolower (Z.of_N (N_of_ascii a)))) = lower a ∧
  char_of_int (tolower (Z.of_N (N_of_ascii a))) ≠ 0.
Proof. destruct a as [[] [] [] [] [] [] [] []]; intros H; try discriminate H; done. Qed.

Lemma bind_done {A B} (a : A) (k : A → run B) : (Done a ≫= k) = k a.
Proof. done. Qed.

Lemma runs_cons_other a fp : is_letter a = false → runs (a :: fp) = runs fp.
Proof. intros Ha. unfold runs. simpl. destruct (split_runs fp) as [w ws]. by rewrite Ha. Qed.

Lemma runs_cons_letter a fp w ws :
  is_letter a = true → split_runs fp = (w, ws) → runs (a :: fp) = (a :: w) :: ws.
Proof. intros Ha Hs. unfold runs. simpl. by rewrite Hs, Ha. Qed.

Lemma split_runs_letters fp w ws :
  split_runs fp = (w, ws) → Forall (λ a, is_letter a = true) w.
Proof.
  revert w ws. induction fp as [|a fp IH]; intros w ws; simpl.
  - by intros [= <- <-].
  - destruct (split_runs fp) as [w' ws']. destruct (is_letter a) eqn:Ha.
    + intros [= <- <-]. constructor; [done|]. by eapply IH.
    + by intros [= <- <-].
Qed.

Lemma split_runs_length fp w ws : split_runs fp = (w, ws) → (length w ≤ length fp)%nat.
Proof.
  revert w ws. induction fp as [|a fp IH]; intros w ws; simpl.
  - by intros [= <- <-].
  - destruct (split_runs fp) as [w' ws']. destruct (is_letter a).
    + intros [= <- <-]. simpl. specialize (IH w' ws' eq_refl). lia.
    + intros [= <- <-]. simpl. lia.
Qed.

(** The first loop of getWord stops at the first letter, or at the end. *)
Lemma getWord_skip_spec fuel file :
  (length file < fuel)%nat →
  ∃ file', getWord_skip fuel (getc file).1 (getc file).2 = Done (getc file') ∧
    runs file' = runs file ∧ (length file' ≤ length file)%nat ∧
    (file' = [] ∨ ∃ a rest, file' = a :: rest ∧ is_letter a = true).
Proof.
  revert file. induction fuel as [|fuel IH]; intros file Hf; [lia|].
  destruct file as [|a file].
  - exists []. split_and!; [done|done|done|by left].
  - simpl. rewrite isalpha_letter. destruct (is_letter a) eqn:Ha; simpl.
    + exists (a :: file). split_and!; [done|done|done|right; by eauto].
    + replace (Z.of_N (N_of_ascii a) =? EOF) with false
        by (symmetry; apply Z.eqb_neq; unfold EOF; lia).
      destruct (IH file) as (file' & Hrun & Hruns & Hlen & Hcase); [simpl in Hf; lia|].
      exists file'. destruct (getc file) as [c fp] eqn:Hg. simpl in Hrun.
      split_and!; [done| |simpl; lia|done].
      by rewrite runs_cons_other.
Qed.

(** The second loop reads the letters at the front of the file and the byte
    after them; the letters that fit are stored in lower case. *)
Lemma getWord_read_spec fuel file buf (i : nat) w ws :
  (length file < fuel)%nat →
  split_runs file = (w, ws) →
  (50 < length buf)%nat →
  Z.of_nat (i + length w) < 2 ^ 31 →
  ∃ buf' fp',
    getWord_read fuel buf (Z.of_nat i) (getc file).1 (getc file).2
      = Done (buf', Z.of_nat (i + length w), fp') ∧
    runs fp' = ws ∧ (length fp' + length w ≤ length file)%nat ∧
    length buf' = length buf ∧
    ((i + length w ≤ 50)%nat →
       buf' = take i buf
              ++ ((λ a, Some (char_of_int (tolower (Z.of_N (N_of_ascii a))))) <$> w)
              ++ drop (i + length w) buf).
Proof.
  revert file buf i w ws. induction fuel as [|fuel IH];
    intros file buf i w ws Hf Hs Hbuf Hi; [lia|].
  destruct file as [|a file].
  - injection Hs as <- <-. exists buf, []. simpl.
    split_and!; [do 3 f_equal; lia|done|done|done|].
    intros _. rewrite Nat.add_0_r. by rewrite take_drop.
  - simpl in Hs. destruct (split_runs file) as [w' ws'] eqn:Hs'.
    simpl. rewrite isalpha_letter. destruct (is_letter a) eqn:Ha.
    + injection Hs as <- <-. simpl in Hi.
      set (v := char_of_int (tolower (Z.of_N (N_of_ascii a)))).
      set (buf1 := if (i <? 50)%nat then <[i := Some v]> buf else buf).
      assert ((if Z.of_nat i <? MAX_WORD then buf_set buf (Z.of_nat i) v else Done buf)
              = Done buf1) as ->.
      { unfold MAX_WORD, buf1. destruct (Z.ltb_spec (Z.of_nat i) 50) as [Hlt|Hge].
        - rewrite (proj2 (Nat.ltb_lt i 50)) by lia. unfold buf_set.
          replace (Z.of_nat i <? 0) with false by (symmetry; apply Z.ltb_ge; lia).
          replace (Z.of_nat (length buf) <=? Z.of_nat i) with false
            by (symmetry; apply Z.leb_gt; lia).
          simpl. by rewrite Nat2Z.id.
        - by rewrite (proj2 (Nat.ltb_ge i 50)) by lia. }
      rewrite bind_done. unfold int_succ.
      replace (Z.of_nat i + 1 <? 2 ^ 31) with true by (symmetry; apply Z.ltb_lt; lia).
      rewrite bind_done. replace (Z.of_nat i + 1) with (Z.of_nat (S i)) by lia.
      assert (length buf1 = length buf) as Hlen1.
      { unfold buf1. destruct (i <? 50)%nat; [by rewrite length_insert|done]. }
      destruct (IH file buf1 (S i) w' ws') as (buf' & fp' & Hrun & Hruns & Hlen & Hbl & Hbuf');
        [simpl in Hf; lia|done|lia|lia|].
      destruct (getc file) as [c fp] eqn:Hg. simpl in Hrun.
      exists buf', fp'. split_and!.
      * rewrite Hrun. do 3 f_equal. simpl. lia.
      * done.
      * simpl. lia.
      * lia.
      * simpl. intros Hle. rewrite Hbuf' by lia. unfold buf1.
        rewrite (proj2 (Nat.ltb_lt i 50)) by lia.
        rewrite drop_insert_lt by lia.
        replace (S i + length w')%nat with (i + S (length w'))%nat by lia.
        rewrite (take_S_r _ _ (Some v)) by (apply list_lookup_insert_eq; lia).
        rewrite take_insert_ge by lia. by rewrite <- app_assoc.
    + injection Hs as <- <-. exists buf, file. split_and!.
      * simpl. by rewrite Nat.add_0_r.
      * unfold runs. by rewrite Hs'.
      * simpl. lia.
      * done.
      * intros _. simpl. rewrite Nat.add_0_r. by rewrite take_drop.
Qed.

Lemma buf_string_spec (w : list ascii) rest :
  Forall (λ a, is_letter a = true) w →
  buf_string (((λ a, Some (char_of_int (tolower (Z.of_N (N_of_ascii a))))) <$> w)
              ++ Some 0 :: rest)
    = Done (String.string_of_list_ascii (lower <$> w)).
Proof.
  induction 1 as [|a w Ha Hw IH]; [done|].
  rewrite fmap_cons. cbn [app buf_string].
  destruct (lower_char a Ha) as [Hl Hnz]. apply Z.eqb_neq in Hnz. rewrite Hnz.
  rewrite IH, bind_done, Hl. done.
Qed.

Lemma words_cons w ws :
  (λ w, String.string_of_list_ascii (lower <$> w))
    <$> filter (λ w, word_length_ok w = true) (w :: ws)
  = (if word_length_ok w then [String.string_of_list_ascii (lower <$> w)] else [])
    ++ ((λ w, String.string_of_list_ascii (lower <$> w))
          <$> filter (λ w, word_length_ok w = true) ws).
Proof.
  rewrite filter_cons. destruct (word_length_ok w) eqn:Hw.
  - rewrite decide_True by done. done.
  - rewrite decide_False by (by intros ?). done.
Qed.

Lemma word_length_ok_spec (w : list ascii) :
  (Z.of_nat (length w) <? MIN_WORD) || (Z.of_nat (length w) >? MAX_WORD)
  = negb (word_length_ok w).
Proof.
  unfold word_length_ok, MIN_WORD, MAX_WORD.
  destruct (Z.ltb_spec (Z.of_nat (length w)) 6), (Z.gtb_spec (Z.of_nat (length w)) 50),
    (Nat.leb_spec 6 (length w)), (Nat.leb_spec (length w) 50); simpl; try done; lia.
Qed.

Lemma word_length_ok_bound (w : list ascii) :
  word_length_ok w = true → (6 ≤ length w ≤ 50)%nat.
Proof.
  unfold word_length_ok. intros [H1 H2]%andb_true_iff.
  apply Nat.leb_le in H1, H2. lia.
Qed.

(** getWord returns the first word of the file, in a new buffer, and leaves
    the later words in the file; at the end of the file it returns NULL. *)
Lemma getWord_words fuel file m :
  (length file < fuel)%nat → Z.of_nat (length file) < 2 ^ 31 → 0 < brk m →
  match words file with
  | [] => getWord fuel file m = Done (NULL, [], m)
  | w :: ws =>
      if decide (head (oracle m) = Some false)
      then getWord fuel file m = Stop (Undefined NullDeref)
      else ∃ file',
        getWord fuel file m
          = Done (brk m, file',
                  {| entries := entries m; chars := <[brk m := w]> (chars m);
                     brk := brk m + 1; oracle := tail (oracle m) |}) ∧
        words file' = ws ∧ (length file' < length file)%nat
  end.
Proof.
  revert file. induction fuel as [|fuel IH]; intros file Hf Hlen Hbrk; [lia|].
  cbn [getWord].
  destruct (getWord_skip_spec (S fuel) file Hf) as (file1 & Hskip & Hruns & Hle & Hcase).
  destruct (getc file) as [c fp] eqn:Hg. cbn [fst snd] in Hskip. rewrite Hskip.
  unfold words at 1. rewrite <- Hruns.
  destruct Hcase as [->|(a & rest & -> & Ha)].
  - simpl. done.
  - cbn [getc]. rewrite bind_done. rewrite isalpha_letter, Ha. cbn [negb].
    destruct (split_runs rest) as [w' ws] eqn:Hs.
    pose proof (split_runs_letters _ _ _ Hs) as Hletters.
    assert (split_runs (a :: rest) = (a :: w', ws)) as Hs1 by (simpl; by rewrite Hs, Ha).
    pose proof (split_runs_length _ _ _ Hs1) as Hwl.
    destruct (getWord_read_spec (S fuel) (a :: rest)
                (replicate (Z.to_nat (MAX_WORD + 1)) None) 0 (a :: w') ws)
      as (buf' & fp' & Hread & Hruns' & Hlen' & Hbl & Hbuf); [lia|done| |lia|].
    { rewrite length_replicate. unfold MAX_WORD. lia. }
    cbn [getc fst snd] in Hread. change (Z.of_nat 0) with 0 in Hread.
    rewrite Hread, bind_done. clear Hread.
    rewrite (runs_cons_letter a rest w' ws Ha Hs), words_cons.
    assert (1 ≤ length (a :: w'))%nat as Hw1 by (simpl; lia).
    set (w := a :: w') in *. rewrite Nat.add_0_l in *.
    rewrite word_length_ok_spec.
    assert ((λ w0, String.string_of_list_ascii (lower <$> w0))
              <$> filter (λ w0, word_length_ok w0 = true) ws = words fp') as ->.
    { unfold words. by rewrite Hruns'. }
    destruct (word_length_ok w) eqn:Hok; cbn [negb app].
    + apply word_length_ok_bound in Hok.
      rewrite Hbuf by lia. rewrite take_0, app_nil_l.
      unfold buf_set. rewrite length_app, length_fmap, length_drop, length_replicate.
      replace (Z.of_nat (length w) <? 0) with false by (symmetry; apply Z.ltb_ge; lia).
      replace (Z.of_nat (length w + (Z.to_nat (MAX_WORD + 1) - length w)) <=?
                 Z.of_nat (length w)) with false
        by (symmetry; apply Z.leb_gt; unfold MAX_WORD; lia).
      cbn [orb]. rewrite bind_done.
      rewrite Nat2Z.id. rewrite insert_app_r_alt by (rewrite length_fmap; lia).
      rewrite length_fmap. replace (length w - length w)%nat with 0%nat by lia.
      destruct (drop (length w) (replicate (Z.to_nat (MAX_WORD + 1)) (None : option Z)))
        as [|x rest'] eqn:Hdrop.
      { apply (f_equal length) in Hdrop. rewrite length_drop, length_replicate in Hdrop.
        unfold MAX_WORD in Hdrop. cbn [length] in Hdrop. lia. }
      cbn [insert list_insert].
      rewrite (buf_string_spec w rest') by (constructor; done).
      rewrite bind_done. unfold malloc_chars, malloc.
      assert ((brk m =? NULL) = false) as Hnz by (apply Z.eqb_neq; unfold NULL; lia).
      destruct (oracle m) as [|[] o] eqn:Ho; cbn [head tail].
      * rewrite decide_False by done. rewrite Hnz. unfold strcpy. cbn [chars entries brk].
        rewrite Hnz, lookup_insert_eq. simpl. rewrite insert_insert_eq.
        exists fp'. split_and!; [done|done|lia].
      * rewrite decide_False by done. rewrite Hnz. unfold strcpy. cbn [chars entries brk].
        rewrite Hnz, lookup_insert_eq. simpl. rewrite insert_insert_eq.
        exists fp'. split_and!; [done|done|lia].
      * rewrite decide_True by done. done.
    + specialize (IH fp').
      destruct (words fp') as [|w1 ws1] eqn:Hws.
      * apply IH; [lia|lia|done].
      * destruct (decide (head (oracle m) = Some false)).
        -- apply IH; [lia|lia|done].
        -- destruct IH as (file' & Hrun & Hw & Hl); [lia|lia|done|].
           exists file'. split_and!; [done|done|lia].
Qed.

End GetWord.

Section GetWordShape.

Implicit Types (fp file : list ascii) (m : memory).

Lemma split_runs_all fp w ws :
  split_runs fp = (w, ws) →
  Forall (Forall (λ a, is_letter a = true)) (w :: ws).
Proof.
  revert w ws. induction fp as [|a fp IH]; intros w ws; simpl.
  - intros [= <- <-]. by repeat constructor.
  - destruct (split_runs fp) as [w' ws']. specialize (IH w' ws' eq_refl).
    apply Forall_cons in IH as [Hw Hws].
    destruct (is_letter a) eqn:Ha; intros [= <- <-].
    + by repeat constructor.
    + constructor; [constructor|]. destruct w'; [done|]. by constructor.
Qed.

Lemma runs_letters fp : Forall (Forall (λ a, is_letter a = true)) (runs fp).
Proof.
  unfold runs. destruct (split_runs fp) as [w ws] eqn:Hs.
  pose proof (split_runs_all _ _ _ Hs) as Hall.
  destruct w; [by apply Forall_cons in Hall as [_ ?]|done].
Qed.

Lemma lower_range a :
  is_letter a = true → (97 ≤ N_of_ascii (lower a) ≤ 122)%N.
Proof. destruct a as [[] [] [] [] [] [] [] []]; intros H; try discriminate H; done. Qed.

Lemma string_of_list_length (l : list ascii) :
  String.length (String.string_of_list_ascii l) = length l.
Proof. induction l as [|a l IH]; simpl; [done|]. by rewrite IH. Qed.

(** A word of a file has six to fifty letters, all in lower case. *)
Lemma words_shape file s :
  s ∈ words file →
  (6 ≤ String.length s ≤ 50)%nat ∧
  Forall (λ a, (97 ≤ N_of_ascii a ≤ 122)%N) (String.list_ascii_of_string s).
Proof.
  unfold words. intros (w & -> & Hw)%list_elem_of_fmap.
  apply list_elem_of_filter in Hw as [Hok Hw].
  apply word_length_ok_bound in Hok.
  pose proof (runs_letters file) as Hall. rewrite Forall_forall in Hall.
  specialize (Hall w Hw). split.
  - by rewrite string_of_list_length, length_fmap.
  - rewrite String.list_ascii_of_string_of_list_ascii. apply Forall_fmap.
    eapply Forall_impl; [exact Hall|]. intros a Ha. by apply lower_range.
Qed.

(** X11: getWord returns the first word of the rest of the file, as the
    header of main.c defines words (a maximal run of letters, of six to fifty
    letters, in lower case), in a new buffer, and leaves the later words in
    the file; when no word is left it returns NULL at the end of the file and
    allocates nothing. *)
Theorem getWord_first_word (file : list ascii) (m : memory) :
  Z.of_nat (length file) < 2 ^ 31 → 0 < brk m → head (oracle m) ≠ Some false →
  match words file with
  | [] => getWord (word_fuel file) file m = Done (NULL, [], m)
  | w :: ws =>
      ∃ file',
        getWord (word_fuel file) file m
          = Done (brk m, file',
                  {| entries := entries m; chars := <[brk m := w]> (chars m);
                     brk := brk m + 1; oracle := tail (oracle m) |}) ∧
        words file' = ws ∧ (length file' < length file)%nat
  end.
Proof.
  intros Hlen Hbrk Ho.
  pose proof (getWord_words (word_fuel file) file m) as H.
  destruct (words file) as [|w ws].
  - apply H; [unfold word_fuel; lia|done|done].
  - rewrite decide_False in H by done. apply H; [unfold word_fuel; lia|done|done].
Qed.

(** X12: getWord is safe on every file of less than 2^31 bytes: its loops
    end, [i] does not overflow, no byte of [buf] is read before it is
    written and none is accessed outside [buf]; the only fault is the strcpy
    through NULL when malloc refuses the copy.  A result other than NULL is
    a new buffer that holds six to fifty lower-case letters, and nothing
    else in memory has changed; with the result NULL the file is at its end
    and memory is as before. *)
Theorem getWord_safe (fuel : nat) (file : list ascii) (m : memory) :
  (length file < fuel)%nat → Z.of_nat (length file) < 2 ^ 31 → 0 < brk m →
  (∀ st, getWord fuel file m = Stop st →
     st = Undefined NullDeref ∧ head (oracle m) = Some false) ∧
  (∀ p file' m', getWord fuel file m = Done (p, file', m') →
     (p = NULL ∧ file' = [] ∧ m' = m) ∨
     (p = brk m ∧ entries m' = entries m ∧ brk m' = brk m + 1 ∧
      oracle m' = tail (oracle m) ∧
      ∃ s, chars m' = <[p := s]> (chars m) ∧
           (6 ≤ String.length s ≤ 50)%nat ∧
           Forall (λ a, (97 ≤ N_of_ascii a ≤ 122)%N) (String.list_ascii_of_string s))).
Proof.
  intros Hf Hlen Hbrk.
  pose proof (getWord_words fuel file m Hf Hlen Hbrk) as H.
  pose proof (words_shape file) as Hshape.
  destruct (words file) as [|w ws].
  - rewrite H. split; [done|]. intros p file' m' [= <- <- <-]. by left.
  - destruct (decide (head (oracle m) = Some false)) as [Ho|Ho].
    + rewrite H. split; [by intros st [= <-]|done].
    + destruct H as (file1 & -> & _ & _). split; [done|].
      intros p file' m' [= <- <- <-]. right. split_and!; [done..|].
      exists w. split; [done|]. apply Hshape. by left.
Qed.

End GetWordShape.

(** * The word counter *)

Section Keys.

Implicit Types (h : hashtable_s) (m : memory) (K : Z → Prop).

Lemma store_entry_keys K m p e :
  keys_in K m → K (key e) → keys_in K (store_entry m p e).
Proof.
  intros Hm He a e'. unfold store_entry. simpl.
  intros [[<- <-]|[_ Hl]]%lookup_insert_Some; [done|]. by eapply Hm.
Qed.

Lemma load_entry_inv m p e :
  load_entry m p = Ok e → p ≠ NULL ∧ entries m !! p = Some e.
Proof.
  unfold load_entry. destruct (Z.eqb_spec p NULL); [done|].
  destruct (entries m !! p); [|done]. by intros [= <-].
Qed.

Lemma set_value_keys K m p v m' :
  set_value m p v = Ok m' → keys_in K m →
  keys_in K m' ∧ brk m' = brk m ∧ oracle m' = oracle m ∧ chars m' = chars m.
Proof.
  unfold set_value. destruct (load_entry m p) as [e|] eqn:He; [|done].
  rewrite bind_ok. intros [= <-] Hm. apply load_entry_inv in He as [_ He].
  split; [|done]. apply store_entry_keys; [done|]. simpl. by eapply Hm.
Qed.

Lemma set_next_keys K m p v m' :
  set_next m p v = Ok m' → keys_in K m →
  keys_in K m' ∧ brk m' = brk m ∧ oracle m' = oracle m ∧ chars m' = chars m.
Proof.
  unfold set_next. destruct (load_entry m p) as [e|] eqn:He; [|done].
  rewrite bind_ok. intros [= <-] Hm. apply load_entry_inv in He as [_ He].
  split; [|done]. apply store_entry_keys; [done|]. simpl. by eapply Hm.
Qed.

Lemma set_key_keys K m p k m' :
  set_key m p k = Ok m' → keys_in K m → K k →
  keys_in K m' ∧ brk m' = brk m ∧ oracle m' = oracle m ∧ chars m' = chars m.
Proof.
  unfold set_key. destruct (load_entry m p) as [e|] eqn:He; [|done].
  rewrite bind_ok. intros [= <-] Hm Hk.
  split; [|done]. by apply store_entry_keys.
Qed.

Lemma malloc_cases m p m' :
  malloc m = (p, m') →
  entries m' = entries m ∧ chars m' = chars m ∧ oracle m' = tail (oracle m) ∧
  ((p = NULL ∧ brk m' = brk m) ∨ (p = brk m ∧ brk m' = brk m + 1)).
Proof.
  unfold malloc. destruct (oracle m) as [|[] o]; intros [= <- <-]; simpl;
    split_and!; try done; by auto.
Qed.

Lemma malloc_entry_keys K m p m' :
  malloc_entry m = (p, m') → keys_in K m → K indeterminate →
  keys_in K m' ∧ chars m' = chars m ∧ oracle m' = tail (oracle m) ∧
  ((p = NULL ∧ brk m' = brk m) ∨ (p = brk m ∧ brk m' = brk m + 1)).
Proof.
  unfold malloc_entry. destruct (malloc m) as [q m1] eqn:Hm.
  apply malloc_cases in Hm as (Hes & Hcs & Ho & Hcase).
  destruct (q =? NULL); intros [= <- <-] Hk H0.
  - split_and!; try done. intros a e. rewrite Hes. apply Hk.
  - simpl. split_and!; try done. intros a e. simpl.
    intros [[<- <-]|[_ Hl]]%lookup_insert_Some; [done|].
    rewrite Hes in Hl. by eapply Hk.
Qed.

Lemma malloc_chars_cases m p m' :
  malloc_chars m = (p, m') →
  entries m' = entries m ∧ oracle m' = tail (oracle m) ∧
  ((p = NULL ∧ brk m' = brk m) ∨ (p = brk m ∧ brk m' = brk m + 1)).
Proof.
  unfold malloc_chars. destruct (malloc m) as [q m1] eqn:Hm.
  apply malloc_cases in Hm as (Hes & Hcs & Ho & Hcase).
  destruct (q =? NULL); by intros [= <- <-].
Qed.

Lemma strcpy_inv m p s m' :
  strcpy m p s = Ok m' →
  p ≠ NULL ∧ entries m' = entries m ∧ brk m' = brk m ∧ oracle m' = oracle m.
Proof.
  unfold strcpy. destruct (Z.eqb_spec p NULL); [done|].
  destruct (chars m !! p); [|done]. by intros [= <-].
Qed.

(** Where the key fields come from after symtabInstall: they are the former
    ones, the indeterminate one of a new node, or the new key buffer. *)
Lemma install_keys K h m symbol data r h' m' :
  symtabInstall h m symbol data = Ok (r, h', m') →
  keys_in K m → K indeterminate → (brk m' = brk m + 2 → K (brk m + 1)) →
  keys_in K m' ∧ brk m ≤ brk m'.
Proof.
  unfold symtabInstall.
  destruct (table_get h _) as [nxt0|]; [rewrite bind_ok|done].
  destruct (install_scan _ _ _ _ _) as [[lst nxt]|]; [rewrite bind_ok|done].
  destruct (install_found _ _ _) as [[]|]; [rewrite bind_ok..|done].
  { destruct (set_value m nxt data) as [m1|] eqn:H1; [rewrite bind_ok|done].
    intros [= <- <- <-] Hm _ _.
    destruct (set_value_keys K _ _ _ _ H1 Hm) as (? & -> & _). split; [done|lia]. }
  destruct (malloc_entry m) as [newpair m1] eqn:H1.
  destruct (Z.eqb_spec newpair NULL) as [Hnull|Hnn].
  { intros [= <- <- <-] Hm H0 _.
    destruct (malloc_entry_keys K _ _ _ H1 Hm H0) as (? & _ & _ & [[_ ->]|[_ ->]]);
      split; (done || lia). }
  destruct (set_next m1 newpair NULL) as [m2|] eqn:H2; [rewrite bind_ok|done].
  destruct (set_value m2 newpair data) as [m3|] eqn:H3; [rewrite bind_ok|done].
  destruct (malloc_chars m3) as [k m4] eqn:H4.
  destruct (set_key m4 newpair k) as [m5|] eqn:H5; [rewrite bind_ok|done].
  destruct (strcpy m5 k symbol) as [m6|] eqn:H6; [rewrite bind_ok|done].
  rewrite bind_ok. set (hd := nxt0).
  intros Hres Hm H0 HK.
  destruct (malloc_entry_keys K _ _ _ H1 Hm H0) as (Hk1 & _ & _ & [[? _]|[_ Hb1]]); [done|].
  destruct (set_next_keys K _ _ _ _ H2 Hk1) as (Hk2 & Hb2 & _).
  destruct (set_value_keys K _ _ _ _ H3 Hk2) as (Hk3 & Hb3 & _).
  destruct (malloc_chars_cases _ _ _ H4) as (He4 & _ & Hcase).
  destruct (strcpy_inv _ _ _ _ H6) as (Hknn & He6 & Hb6 & _).
  destruct Hcase as [[? _]|[-> Hb4]]; [done|].
  assert (keys_in K m4) as Hk4 by (intros a e; rewrite He4; apply Hk3).
  assert (brk m6 = brk m + 2) as Hbrk6.
  { destruct (set_key_keys (λ _, True) _ _ _ _ H5) as (_ & Hb5 & _); [done|done|]. lia. }
  assert (∀ m7, brk m7 = brk m6 → m' = m7 → K (brk m3)) as HK'.
  { intros m7 Hb7 ->. replace (brk m3) with (brk m + 1) by lia. apply HK. lia. }
  assert (keys_in K m6) as Hk6.
  { intros a e. rewrite He6. revert a e.
    assert (K (brk m3)) as Hkk.
    { destruct (nxt =? hd).
      - destruct (set_next m6 newpair nxt) as [m7|] eqn:H7; [rewrite bind_ok in Hres|done].
        destruct (table_set h _ newpair) as [h7|]; [rewrite bind_ok in Hres|done].
        injection Hres as <- <- <-.
        destruct (set_next_keys (λ _, True) _ _ _ _ H7) as (_ & Hb7 & _); [done|].
        by apply (HK' m7).
      - destruct (nxt =? NULL).
        + destruct (set_next m6 lst newpair) as [m7|] eqn:H7; [rewrite bind_ok in Hres|done].
          injection Hres as <- <- <-.
          destruct (set_next_keys (λ _, True) _ _ _ _ H7) as (_ & Hb7 & _); [done|].
          by apply (HK' m7).
        + destruct (set_next m6 newpair nxt) as [m7|] eqn:H7; [rewrite bind_ok in Hres|done].
          destruct (set_next m7 lst newpair) as [m8|] eqn:H8; [rewrite bind_ok in Hres|done].
          injection Hres as <- <- <-.
          destruct (set_next_keys (λ _, True) _ _ _ _ H7) as (_ & Hb7 & _); [done|].
          destruct (set_next_keys (λ _, True) _ _ _ _ H8) as (_ & Hb8 & _); [done|].
          apply (HK' m8); [lia|done]. }
    by destruct (set_key_keys K _ _ _ _ H5 Hk4 Hkk) as (? & _). }
  destruct (nxt =? hd).
  - destruct (set_next m6 newpair nxt) as [m7|] eqn:H7; [rewrite bind_ok in Hres|done].
    destruct (table_set h _ newpair) as [h7|]; [rewrite bind_ok in Hres|done].
    injection Hres as <- <- <-.
    destruct (set_next_keys K _ _ _ _ H7 Hk6) as (? & Hb7 & _). split; [done|lia].
  - destruct (nxt =? NULL).
    + destruct (set_next m6 lst newpair) as [m7|] eqn:H7; [rewrite bind_ok in Hres|done].
      injection Hres as <- <- <-.
      destruct (set_next_keys K _ _ _ _ H7 Hk6) as (? & Hb7 & _). split; [done|lia].
    + destruct (set_next m6 newpair nxt) as [m7|] eqn:H7; [rewrite bind_ok in Hres|done].
      destruct (set_next m7 lst newpair) as [m8|] eqn:H8; [rewrite bind_ok in Hres|done].
      injection Hres as <- <- <-.
      destruct (set_next_keys K _ _ _ _ H7 Hk6) as (Hk7 & Hb7 & _).
      destruct (set_next_keys K _ _ _ _ H8 Hk7) as (? & Hb8 & _). split; [done|lia].
Qed.

End Keys.

Section Frames.

Implicit Types (h : hashtable_s) (m : memory) (bs : list (list node)).

Lemma createIterator_keys (K : Z → Prop) h m oit m' :
  symtabCreateIterator h m = Ok (oit, m') →
  keys_in K m → K indeterminate →
  keys_in K m' ∧ brk m ≤ brk m'.
Proof.
  unfold symtabCreateIterator. destruct (malloc m) as [it m1] eqn:H1.
  apply malloc_cases in H1 as (He1 & _ & _ & Hb1).
  destruct (it =? NULL).
  { intros [= <- <-] Hm _. split; [|lia]. intros a e. rewrite He1. apply Hm. }
  destruct (table_get h 0) as [el|]; [rewrite bind_ok|done].
  destruct (skip_empty _ _ _ _ _) as [[idx el']|]; [rewrite bind_ok|done].
  destruct (malloc_entry m1) as [s m2] eqn:H2.
  destruct (set_next m2 s el') as [m3|] eqn:H3; [rewrite bind_ok|done].
  intros [= <- <-] Hm H0.
  assert (keys_in K m1) as Hk1 by (intros a e; rewrite He1; apply Hm).
  destruct (malloc_entry_keys K _ _ _ H2 Hk1 H0) as (Hk2 & _ & _ & Hb2).
  destruct (set_next_keys K _ _ _ _ H3 Hk2) as (Hk3 & Hb3 & _).
  split; [done|lia].
Qed.

(** The states of the interface keep every key field below the frontier. *)
Lemma reachable_keys_bounded ks h m : reachable ks h m → keys_bounded m.
Proof.
  induction 1 as [sizeHint o h m Hr Hc|ks h m symbol data r h' m' Hre IH Hi
                 |ks h m it m' Hre IH Hi].
  - destruct (symtabCreate_cases sizeHint (empty_memory o)) as [[_ Hn]|[(_ & _ & m1 & Hn)|(_ & _ & Hs)]];
      [simpl; lia|congruence|congruence|].
    rewrite Hs in Hc. injection Hc as <- <-. intros a e. simpl. by rewrite lookup_empty.
  - destruct (reachable_inv _ _ _ Hre) as (bs & Hinv & _).
    pose proof (inv_brk _ _ _ Hinv) as Hbrk.
    destruct (install_keys (λ _, True) _ _ _ _ _ _ _ Hi) as [_ Hle]; [done..|].
    destruct (install_keys (λ k, k < brk m') _ _ _ _ _ _ _ Hi) as [Hk _];
      [|unfold indeterminate; lia|lia|done].
    intros a e He. specialize (IH a e He). simpl in IH. lia.
  - destruct (reachable_inv _ _ _ Hre) as (bs & Hinv & _).
    pose proof (inv_brk _ _ _ Hinv) as Hbrk.
    destruct (createIterator_keys (λ _, True) _ _ _ _ Hi) as [_ Hle]; [done..|].
    destruct (createIterator_keys (λ k, k < brk m') _ _ _ _ Hi) as [Hk _];
      [|unfold indeterminate; lia|done].
    intros a e He. specialize (IH a e He). simpl in IH. lia.
Qed.

Lemma reachable_table_inv ks h m : reachable ks h m → table_inv h m (contents h m).
Proof.
  intros Hre. destruct (reachable_inv _ _ _ Hre) as (bs & Hinv & _).
  by rewrite (contents_inv _ _ _ Hinv).
Qed.

(** A chain needs the key buffers of its own nodes only. *)
Lemma lseg_chars es cs cs' p q b :
  lseg es cs p q b →
  (∀ n e, n ∈ b → es !! n_addr n = Some e → cs' !! key e = cs !! key e) →
  lseg es cs' p q b.
Proof.
  revert p. induction b as [|n b IH]; intros p; simpl; [done|].
  intros (-> & Hnn & e & He & Hk & Hs & Hv & Hl) Hsame.
  split_and!; [done|done|]. exists e. split_and!; [done|done| |done|].
  - rewrite (Hsame n e); [done|set_solver|done].
  - apply IH; [done|]. intros n' e' Hn'. apply Hsame. set_solver.
Qed.

Lemma chains_chars m m' (t : list Z) bs :
  Forall2 (chain m) t bs →
  entries m' = entries m →
  (∀ n e, n ∈ concat bs → entries m !! n_addr n = Some e →
          chars m' !! key e = chars m !! key e) →
  Forall2 (chain m') t bs.
Proof.
  intros Hc Hes. revert Hc. induction 1 as [|p b t bs Hpb _ IH]; intros Hsame;
    [constructor|].
  constructor.
  - unfold chain in *. rewrite Hes. eapply lseg_chars; [done|].
    intros n e Hn. apply Hsame. simpl. set_solver.
  - apply IH. intros n e Hn. apply Hsame. simpl. set_solver.
Qed.

(** The table does not see a new buffer. *)
Lemma table_inv_word h m bs s o :
  table_inv h m bs →
  table_inv h {| entries := entries m; chars := <[brk m := s]> (chars m);
                 brk := brk m + 1; oracle := o |} bs.
Proof.
  intros Hinv. pose proof (inv_brk _ _ _ Hinv) as Hbrk.
  constructor; simpl.
  - by apply (inv_size _ _ _ Hinv).
  - by apply (inv_length _ _ _ Hinv).
  - intros a e He. apply (inv_entries _ _ _ Hinv) in He. lia.
  - intros a s' [[<- _]|[_ Hs]]%lookup_insert_Some; [lia|].
    apply (inv_chars _ _ _ Hinv) in Hs. lia.
  - lia.
  - eapply chains_chars; [by apply (inv_chain _ _ _ Hinv)|done|].
    intros n e Hn He. simpl.
    apply elem_of_concat in Hn as (b & Hn & Hb).
    apply list_elem_of_lookup in Hb as [i Hb].
    destruct (inv_node _ _ _ _ _ _ Hinv Hb Hn) as (e' & He' & _ & _ & Hc & _).
    rewrite He in He'. injection He' as <-.
    apply (inv_chars _ _ _ Hinv) in Hc as Hlt.
    rewrite lookup_insert_ne; [done|lia].
  - by apply (inv_nodup _ _ _ Hinv).
  - by apply (inv_sorted _ _ _ Hinv).
  - by apply (inv_hash _ _ _ Hinv).
Qed.

(** The table does not see the free of a buffer that is no key field. *)
Lemma table_inv_free h m bs w :
  table_inv h m bs → keys_in (λ k, k ≠ w) m →
  table_inv h {| entries := entries m; chars := delete w (chars m);
                 brk := brk m; oracle := oracle m |} bs.
Proof.
  intros Hinv Hw. constructor; simpl.
  - by apply (inv_size _ _ _ Hinv).
  - by apply (inv_length _ _ _ Hinv).
  - by apply (inv_entries _ _ _ Hinv).
  - intros a s [_ Hs]%lookup_delete_Some. by apply (inv_chars _ _ _ Hinv) in Hs.
  - by apply (inv_brk _ _ _ Hinv).
  - eapply chains_chars; [by apply (inv_chain _ _ _ Hinv)|done|].
    intros n e Hn He. simpl. rewrite lookup_delete_ne; [done|].
    intros Heq. by apply (Hw _ _ He).
  - by apply (inv_nodup _ _ _ Hinv).
  - by apply (inv_sorted _ _ _ Hinv).
  - by apply (inv_hash _ _ _ Hinv).
Qed.

End Frames.

Section ProcessFile.

Implicit Types (h : hashtable_s) (m : memory) (bs : list (list node)).

(** The count that comes back from symtabLookup: NULL exactly when the low
    32 bits of the stored value are zero, and else a pointer with the same
    low 32 bits. *)
Lemma lookup_data v :
  let data := if int_of_ptr v =? 0 then NULL else ptr_of_int (int_of_ptr v) in
  (data =? NULL) = (u32 v =? 0) ∧ u32 data = u32 v.
Proof.
  unfold int_of_ptr, int_of_uint, ptr_of_int, NULL. cbv zeta.
  assert (0 ≤ u32 v < 2 ^ 32) as Hr by (unfold u32; apply Z.mod_pos_bound; lia).
  assert (u32 (u32 v) = u32 v) as Hu by (unfold u32; apply Z.mod_mod; lia).
  destruct (Z.ltb_spec (u32 v) (2 ^ 31)) as [Hlt|Hge].
  - destruct (Z.eqb_spec (u32 v) 0) as [H0|Hn0].
    + split; [done|]. by rewrite H0.
    + rewrite Z.mod_small by lia. split; [by apply Z.eqb_neq|done].
  - destruct (Z.eqb_spec (u32 v - 2 ^ 32) 0) as [H0|Hn0]; [lia|].
    assert ((u32 v - 2 ^ 32) mod 2 ^ 64 = u32 v - 2 ^ 32 + 2 ^ 64) as ->.
    { symmetry. apply (Z.mod_unique _ _ (-1)); lia. }
    split.
    + transitivity false; [apply Z.eqb_neq; lia|symmetry; apply Z.eqb_neq; lia].
    + unfold u32 at 1.
      replace (u32 v - 2 ^ 32 + 2 ^ 64) with (u32 v + (2 ^ 32 - 1) * 2 ^ 32) by lia.
      rewrite Z.mod_add by lia. exact Hu.
Qed.

Lemma map_lookup_keys bs (s : string) :
  NoDup (n_key <$> concat bs) →
  is_Some ((list_to_map (pairs (concat bs)) : gmap string Z) !! s)
  ↔ s ∈ n_key <$> concat bs.
Proof.
  intros Hnd. rewrite <- pairs_keys. split.
  - intros [v Hv]. apply elem_of_list_to_map_2 in Hv.
    apply list_elem_of_fmap. by exists (s, v).
  - intros ((k & v) & -> & Hin)%list_elem_of_fmap. exists v. simpl.
    apply elem_of_list_to_map_1; [by rewrite pairs_keys|done].
Qed.

(** What the body of the loop does with the word [s] that getWord has left
    at [brk m0]: the four outcomes of symtabInstall, and the free. *)
Lemma processFile_body_spec h m0 bs s o v :
  table_inv h m0 bs → keys_bounded m0 → lookup h m0 s = Ok v →
  let m := {| entries := entries m0; chars := <[brk m0 := s]> (chars m0);
              brk := brk m0 + 1; oracle := o |} in
  let tm : gmap string Z := list_to_map (pairs (concat bs)) in
  (s ∉ n_key <$> concat bs → v = NULL) ∧
  (s ∈ n_key <$> concat bs ∨ (head o ≠ Some false ∧ head (tail o) ≠ Some false) →
     ∃ h' m' bs',
       processFile_body h m (brk m0) = Done (h', m') ∧
       table_inv h' m' bs' ∧ keys_bounded m' ∧ size h' = size h ∧
       oracle m' = (if decide (s ∈ n_key <$> concat bs) then o else drop 2 o) ∧
       (list_to_map (pairs (concat bs')) : gmap string Z) = <[s := next_count v]> tm) ∧
  (s ∉ n_key <$> concat bs → head o = Some false →
     processFile_body h m (brk m0)
       = Stop (Exit (-1) ("symtabInstall failed on initial install - aborting!" +:+ nl))) ∧
  (s ∉ n_key <$> concat bs → head o ≠ Some false → head (tail o) = Some false →
     processFile_body h m (brk m0) = Stop (Undefined NullDeref)).
Proof.
  intros Hinv0 Hkb Hl m tm.
  pose proof (inv_brk _ _ _ Hinv0) as Hbrk.
  pose proof (table_inv_word h m0 bs s o Hinv0) as Hinv. fold m in Hinv.
  destruct (inv_bucket h m0 bs s Hinv0) as (p & b & _ & Hb & _).
  assert (lookup h m s = Ok v) as Hl'.
  { rewrite (lookup_head h m0 bs s b Hinv0 Hb) in Hl.
    by rewrite (lookup_head h m bs s b Hinv Hb). }
  assert (s ∉ n_key <$> concat bs → v = NULL) as Habs.
  { intros Hs. rewrite (lookup_head h m0 bs s b Hinv0 Hb) in Hl. injection Hl as <-.
    destruct b as [|n b]; [done|]. simpl.
    destruct (decide (n_key n = s)) as [Hk|?]; [|done]. destruct Hs.
    apply (key_in_bucket h m0 bs s _ Hinv0 Hb). rewrite <- Hk. set_solver. }
  assert (load_string m (brk m0) = Ok s) as Hload.
  { unfold load_string. replace (brk m0 =? NULL) with false
      by (symmetry; apply Z.eqb_neq; unfold NULL; lia).
    simpl. by rewrite lookup_insert_eq. }
  destruct (lookup_data v) as [Hdata Hold].
  set (data := if int_of_ptr v =? 0 then NULL else ptr_of_int (int_of_ptr v)) in *.
  assert (
    processFile_body h m (brk m0)
    = ('(h1, m1) ← ('(r, h1, m1) ← lift (symtabInstall h m s (next_count v));
                     if r =? 0
                     then Stop (Exit (-1) (if u32 v =? 0 then
                        "symtabInstall failed on initial install - aborting!" +:+ nl
                        else "symtabInstall failed on re-install - aborting!" +:+ nl))
                     else Done (h1, m1));
       m2 ← lift (free_chars m1 (brk m0)); Done (h1, m2))) as Hbody.
  { unfold processFile_body. rewrite Hload. cbn [lift]. rewrite bind_done.
    rewrite (symtabLookup_lookup h m s v Hl'). cbn [lift]. rewrite bind_done.
    fold data. rewrite Hdata. unfold next_count.
    destruct (u32 v =? 0); [done|]. by rewrite Hold. }
  destruct (install_cases h m bs s (next_count v) Hinv) as (Hupd & Hnomem & Hins & Hnokey).
  assert (∀ r h1 m1,
    symtabInstall h m s (next_count v) = Ok (r, h1, m1) → r = 1 →
    chars m1 !! brk m0 = Some s →
    ∃ bs', table_inv h1 {| entries := entries m1; chars := delete (brk m0) (chars m1);
                           brk := brk m1; oracle := oracle m1 |} bs' ∧
           keys_bounded {| entries := entries m1; chars := delete (brk m0) (chars m1);
                           brk := brk m1; oracle := oracle m1 |} ∧
           size h1 = size h ∧
           (list_to_map (pairs (concat bs')) : gmap string Z) = <[s := next_count v]> tm)
    as Hpost.
  { intros r h1 m1 Hi -> Hc.
    destruct (install_map _ _ _ _ _ _ _ _ Hinv Hi) as (bs' & Hinv' & Hsz & Hmap).
    destruct (install_keys (λ _, True) _ _ _ _ _ _ _ Hi) as [_ Hle]; [done..|].
    simpl in Hle.
    exists bs'. split_and!; [| |done|done].
    - apply table_inv_free; [done|].
      destruct (install_keys (λ k, k ≠ brk m0) _ _ _ _ _ _ _ Hi) as [Hk _];
        [|unfold indeterminate; lia|simpl; lia|done].
      intros a e He. specialize (Hkb a e He). simpl in Hkb. lia.
    - destruct (install_keys (λ k, k < brk m1) _ _ _ _ _ _ _ Hi) as [Hk _];
        [|unfold indeterminate; lia|simpl; lia|done].
      intros a e He. specialize (Hkb a e He). simpl in Hkb. lia. }
  assert (∀ m1, chars m1 !! brk m0 = Some s →
            free_chars m1 (brk m0)
            = Ok {| entries := entries m1; chars := delete (brk m0) (chars m1);
                    brk := brk m1; oracle := oracle m1 |}) as Hfree.
  { intros m1 Hc. unfold free_chars.
    replace (brk m0 =? NULL) with false by (symmetry; apply Z.eqb_neq; unfold NULL; lia).
    by rewrite Hc. }
  split_and!.
  - done.
  - intros Hcase. destruct (decide (s ∈ n_key <$> concat bs)) as [Hin|Hnin].
    + destruct (Hupd Hin) as (m1 & Hi & Ho & Hb1 & Hc).
      assert (chars m1 !! brk m0 = Some s) as Hcw
        by (rewrite Hc; simpl; apply lookup_insert_eq).
      destruct (Hpost 1 h m1 Hi eq_refl Hcw) as (bs' & Hinv' & Hkb' & Hsz & Hmap).
      rewrite Hbody, Hi. cbn [lift]. rewrite bind_done. cbn [Z.eqb].
      rewrite bind_done, (Hfree m1 Hcw). cbn [lift]. rewrite bind_done.
      eexists _, _, bs'. split_and!; [done|done|done|done|done|done].
    + destruct Hcase as [?|[Hg1 Hg2]]; [done|].
      destruct (Hins Hnin) as (h1 & m1 & Hi & Ho & Hb1 & Hc).
      { apply granted_2. done. }
      assert (chars m1 !! brk m0 = Some s) as Hcw.
      { rewrite Hc. simpl. rewrite lookup_insert_ne by lia. apply lookup_insert_eq. }
      destruct (Hpost 1 h1 m1 Hi eq_refl Hcw) as (bs' & Hinv' & Hkb' & Hsz & Hmap).
      rewrite Hbody, Hi. cbn [lift]. rewrite bind_done. cbn [Z.eqb].
      rewrite bind_done, (Hfree m1 Hcw). cbn [lift]. rewrite bind_done.
      eexists _, _, bs'. split_and!; [done|done|done|done|done|done].
  - intros Hnin Ho. destruct (Hnomem Hnin Ho) as (m1 & Hi & _).
    rewrite Hbody, Hi. cbn [lift]. rewrite bind_done. cbn [Z.eqb].
    rewrite (Habs Hnin). done.
  - intros Hnin Hg1 Hg2. rewrite Hbody, (Hnokey Hnin Hg1 Hg2). done.
Qed.

Lemma split_runs_count (fp : list ascii) w ws :
  split_runs fp = (w, ws) → (length w + length ws ≤ length fp)%nat.
Proof.
  revert w ws. induction fp as [|a fp IH]; intros w ws; simpl.
  - by intros [= <- <-].
  - destruct (split_runs fp) as [w' ws']. specialize (IH w' ws' eq_refl).
    destruct (is_letter a); intros [= <- <-]; simpl; [lia|].
    destruct w'; simpl in *; lia.
Qed.

Lemma words_length (fp : list ascii) : (length (words fp) ≤ length fp)%nat.
Proof.
  unfold words. rewrite length_fmap.
  etrans; [apply length_filter|]. unfold runs.
  destruct (split_runs fp) as [w ws] eqn:Hs. apply split_runs_count in Hs.
  destruct w; simpl in *; lia.
Qed.

(** Where no other key of the table shares the bucket of [s], lookup finds
    [s] whenever it is in the table. *)
Lemma head_value_alone h m bs s b :
  table_inv h m bs → bs !! Z.to_nat (hash h s) = Some b →
  (∀ k, k ∈ n_key <$> concat bs → hash h k = hash h s → k = s) →
  head_value s b
  = default 0 ((list_to_map (pairs (concat bs)) : gmap string Z) !! s).
Proof.
  intros Hinv Hb Halone.
  pose proof (keys_nodup _ _ _ Hinv) as Hnd.
  destruct b as [|n b]; simpl.
  - assert (s ∉ n_key <$> concat bs) as Hs.
    { rewrite (key_in_bucket h m bs s [] Hinv Hb). set_solver. }
    rewrite <- (map_lookup_keys bs s Hnd) in Hs.
    apply eq_None_not_Some in Hs. by rewrite Hs.
  - assert (n_key n = s) as Hk.
    { apply Halone.
      - apply list_elem_of_fmap. exists n. split; [done|]. apply elem_of_concat.
        exists (n :: b). split; [set_solver|]. by eapply list_elem_of_lookup_2.
      - rewrite (inv_hash _ _ _ Hinv _ _ n Hb) by set_solver.
        pose proof (hash_range h s (inv_size _ _ _ Hinv)). lia. }
    rewrite decide_True by done.
    erewrite elem_of_list_to_map_1; [done|by rewrite pairs_keys|].
    unfold pairs. apply list_elem_of_fmap. exists n. rewrite Hk. split; [done|].
    apply elem_of_concat. exists (n :: b). split; [set_solver|].
    by eapply list_elem_of_lookup_2.
Qed.

(** The loop of processFile over the words of a file, on a table in which
    no two of the words and keys at hand share a bucket. *)
Lemma processFile_words fuel (fp : list ascii) h m0 bs :
  table_inv h m0 bs → keys_bounded m0 → oracle m0 = [] →
  (length fp < fuel)%nat → Z.of_nat (length fp) < 2 ^ 31 →
  collision_free h (words fp ++ (n_key <$> concat bs)) →
  (∀ k v, (list_to_map (pairs (concat bs)) : gmap string Z) !! k = Some v →
          0 < v ∧ v + Z.of_nat (length (words fp)) < 2 ^ 32) →
  ∃ h' m' bs',
    ('(word, fp', m) ← getWord (word_fuel fp) fp m0;
     processFile_loop fuel fp' h m word) = Done (h', m') ∧
    table_inv h' m' bs' ∧ keys_bounded m' ∧ oracle m' = [] ∧ size h' = size h ∧
    (list_to_map (pairs (concat bs')) : gmap string Z)
      = count_words (words fp) (list_to_map (pairs (concat bs))).
Proof.
  revert fp h m0 bs. induction fuel as [|fuel IH];
    intros fp h m0 bs Hinv Hkb Ho Hf Hlen Hcf Hcnt; [lia|].
  pose proof (inv_brk _ _ _ Hinv) as Hbrk.
  pose proof (getWord_words (word_fuel fp) fp m0) as Hget.
  pose proof (words_length fp) as Hwl.
  destruct (words fp) as [|w ws] eqn:Hws.
  - rewrite Hget by (unfold word_fuel; lia || done). rewrite bind_done. simpl.
    exists h, m0, bs. by split_and!.
  - rewrite decide_False in Hget by (by rewrite Ho).
    destruct Hget as (fp' & -> & Hws' & Hlt); [unfold word_fuel; lia|done|done|].
    rewrite bind_done. cbn [processFile_loop].
    replace (brk m0 =? NULL) with false by (symmetry; apply Z.eqb_neq; unfold NULL; lia).
    destruct (inv_bucket h m0 bs w Hinv) as (p & b & _ & Hb & _).
    pose proof (lookup_head h m0 bs w b Hinv Hb) as Hl.
    assert (head_value w b
            = default 0 ((list_to_map (pairs (concat bs)) : gmap string Z) !! w)) as Hv.
    { apply (head_value_alone h m0 bs w b Hinv Hb). intros k Hk Hh.
      apply Hcf; [set_solver|set_solver|done]. }
    set (tm := (list_to_map (pairs (concat bs)) : gmap string Z)) in *.
    assert (next_count (head_value w b) = default 0 (tm !! w) + 1) as Hnext.
    { rewrite Hv. unfold next_count. destruct (tm !! w) as [c|] eqn:Hc; simpl.
      - destruct (Hcnt w c Hc) as [Hpos Hup]. simpl in Hup.
        rewrite u32_small by lia. by rewrite (proj2 (Z.eqb_neq c 0)) by lia.
      - done. }
    destruct (processFile_body_spec h m0 bs w (tail (oracle m0)) _ Hinv Hkb Hl)
      as (_ & Hdone & _ & _).
    destruct Hdone as (h1 & m1 & bs1 & Hbody & Hinv1 & Hkb1 & Hsz1 & Ho1 & Hmap1).
    { right. by rewrite Ho. }
    rewrite Hbody, bind_done. fold tm in Hmap1. rewrite Hnext in Hmap1.
    destruct (IH fp' h1 m1 bs1) as (h' & m' & bs' & Hrun & Hinv' & Hkb' & Ho' & Hsz' & Hmap');
      [done|done| |lia|lia| | |].
    + rewrite Ho1, Ho. by destruct (decide _).
    + rewrite Hws'. intros k1 k2 Hk1 Hk2. rewrite !(hash_same_size h h1) by done.
      assert (∀ k, k ∈ ws ++ (n_key <$> concat bs1) →
                   k ∈ (w :: ws) ++ (n_key <$> concat bs)) as Hsub.
      { intros k [Hk|Hk]%elem_of_app; [set_solver|].
        apply (map_lookup_keys bs1 k (keys_nodup _ _ _ Hinv1)) in Hk.
        rewrite Hmap1 in Hk. destruct (decide (k = w)) as [->|Hne]; [set_solver|].
        rewrite lookup_insert_ne in Hk by done.
        apply (map_lookup_keys bs k (keys_nodup _ _ _ Hinv)) in Hk. set_solver. }
      apply Hcf; by apply Hsub.
    + rewrite Hws', Hmap1. intros k v. destruct (decide (k = w)) as [->|Hne].
      * rewrite lookup_insert_eq. intros [= <-].
        destruct (tm !! w) as [c|] eqn:Hc; simpl.
        -- destruct (Hcnt w c Hc) as [Hpos Hup]. simpl length in Hup. lia.
        -- simpl length in Hwl. lia.
      * rewrite lookup_insert_ne by done. intros Hk.
        destruct (Hcnt k v Hk) as [Hpos Hup]. simpl length in Hup. lia.
    + exists h', m', bs'. split_and!; [done|done|done|done|lia|].
      rewrite Hmap', Hws', Hmap1. done.
Qed.

End ProcessFile.

(** * The highest counts *)

Section Top.

Implicit Types (l : list (Z * Z)) (tc ts : list Z).

Lemma array_get_ok (a : list Z) (i : nat) x :
  a !! i = Some x → array_get a (Z.of_nat i) = Done x.
Proof.
  intros Hx. unfold array_get. apply lookup_lt_Some in Hx as Hlt.
  replace (Z.of_nat i <? 0) with false by (symmetry; apply Z.ltb_ge; lia).
  replace (Z.of_nat (length a) <=? Z.of_nat i) with false by (symmetry; apply Z.leb_gt; lia).
  simpl. by rewrite Nat2Z.id, Hx.
Qed.

Lemma array_set_ok (a : list Z) (i : nat) x :
  (i < length a)%nat → array_set a (Z.of_nat i) x = Done (<[i := x]> a).
Proof.
  intros Hlt. unfold array_set.
  replace (Z.of_nat i <? 0) with false by (symmetry; apply Z.ltb_ge; lia).
  replace (Z.of_nat (length a) <=? Z.of_nat i) with false by (symmetry; apply Z.leb_gt; lia).
  simpl. by rewrite Nat2Z.id.
Qed.

(** The search from the bottom ends above the last count that is greater
    than [count]: [n] slots are left to look at, the result is the number of
    slots before the place found. *)
Lemma main_slot_spec fuel (n : nat) count tc :
  (n ≤ length tc)%nat → (n < fuel)%nat →
  ∃ k : nat, main_slot fuel (Z.of_nat n - 1) count tc = Done (Z.of_nat k - 1) ∧
    (k ≤ n)%nat ∧
    (∀ c, (0 < k)%nat → tc !! (k - 1)%nat = Some c → count < c) ∧
    (∀ j c, (k ≤ j < n)%nat → tc !! j = Some c → c ≤ count).
Proof.
  revert n. induction fuel as [|fuel IH]; intros n Hn Hf; [lia|].
  destruct n as [|n].
  - exists 0%nat. simpl. split_and!; [done|lia|intros; lia|intros; lia].
  - cbn [main_slot].
    replace (Z.of_nat (S n) - 1 >=? 0) with true by (symmetry; apply Z.geb_le; lia).
    destruct (lookup_lt_is_Some_2 tc n) as [c Hc]; [lia|].
    replace (Z.of_nat (S n) - 1) with (Z.of_nat n) by lia.
    rewrite (array_get_ok _ _ _ Hc), bind_done.
    destruct (Z.ltb_spec count c) as [Hlt|Hge].
    + exists (S n). split_and!.
      * do 2 f_equal. lia.
      * lia.
      * intros c' _. replace (S n - 1)%nat with n by lia. rewrite Hc. by intros [= <-].
      * intros; lia.
    + destruct (IH n) as (k & Hrun & Hk & Hgt & Hle); [lia|lia|].
      exists k. replace (Z.of_nat n - 1) with (Z.of_nat n - 1) by lia.
      split_and!; [done|lia|done|].
      intros j c' Hj Hc'. destruct (decide (j = n)) as [->|?].
      * rewrite Hc in Hc'. injection Hc' as <-. lia.
      * apply (Hle j); [lia|done].
Qed.

(** The slots [i] .. [j-1] move down by one. *)
Lemma main_shift_spec fuel (j i : nat) tc ts :
  (i ≤ j)%nat → (j < length tc)%nat → (j < length ts)%nat → (j - i < fuel)%nat →
  ∃ tc' ts', main_shift fuel (Z.of_nat j) (Z.of_nat i) tc ts = Done (tc', ts') ∧
    length tc' = length tc ∧ length ts' = length ts ∧
    (∀ x : nat, tc' !! x = if bool_decide (i < x ≤ j)%nat then tc !! (x - 1)%nat
                           else tc !! x) ∧
    (∀ x : nat, ts' !! x = if bool_decide (i < x ≤ j)%nat then ts !! (x - 1)%nat
                           else ts !! x).
Proof.
  revert j tc ts. induction fuel as [|fuel IH]; intros j tc ts Hij Hjc Hjs Hf; [lia|].
  cbn [main_shift]. destruct (Z.gtb_spec (Z.of_nat j) (Z.of_nat i)) as [Hgt|Hle].
  - destruct j as [|j]; [lia|].
    replace (Z.of_nat (S j) - 1) with (Z.of_nat j) by lia.
    destruct (lookup_lt_is_Some_2 tc j) as [c Hc]; [lia|].
    destruct (lookup_lt_is_Some_2 ts j) as [s Hs]; [lia|].
    rewrite (array_get_ok _ _ _ Hc), bind_done.
    rewrite array_set_ok, bind_done by lia.
    rewrite (array_get_ok _ _ _ Hs), bind_done.
    rewrite array_set_ok, bind_done by lia.
    destruct (IH j (<[S j := c]> tc) (<[S j := s]> ts))
      as (tc' & ts' & Hrun & Hlc & Hls & Htc & Hts);
      [lia|rewrite length_insert; lia|rewrite length_insert; lia|lia|].
    exists tc', ts'. rewrite length_insert in Hlc, Hls.
    split_and!; [done|done|done| |].
    + intros x. rewrite Htc. destruct (decide (x = S j)) as [->|Hne].
      * rewrite bool_decide_eq_false_2 by lia. rewrite bool_decide_eq_true_2 by lia.
        rewrite list_lookup_insert_eq by lia. replace (S j - 1)%nat with j by lia. done.
      * destruct (decide (i < x ≤ j)%nat).
        -- rewrite !bool_decide_eq_true_2 by lia.
           rewrite list_lookup_insert_ne by lia. done.
        -- rewrite !bool_decide_eq_false_2 by lia.
           rewrite list_lookup_insert_ne by lia. done.
    + intros x. rewrite Hts. destruct (decide (x = S j)) as [->|Hne].
      * rewrite bool_decide_eq_false_2 by lia. rewrite bool_decide_eq_true_2 by lia.
        rewrite list_lookup_insert_eq by lia. replace (S j - 1)%nat with j by lia. done.
      * destruct (decide (i < x ≤ j)%nat).
        -- rewrite !bool_decide_eq_true_2 by lia.
           rewrite list_lookup_insert_ne by lia. done.
        -- rewrite !bool_decide_eq_false_2 by lia.
           rewrite list_lookup_insert_ne by lia. done.
  - assert (i = j) as -> by lia. exists tc, ts. split_and!; [done|done|done| |].
    + intros x. by rewrite bool_decide_eq_false_2 by lia.
    + intros x. by rewrite bool_decide_eq_false_2 by lia.
Qed.

Lemma lookup_insert_at {A} (l : list A) (k n : nat) (x : A) :
  (k ≤ length l)%nat →
  (take k l ++ x :: drop k l) !! n
  = if decide (n < k)%nat then l !! n
    else if decide (n = k) then Some x else l !! (n - 1)%nat.
Proof.
  intros Hk. destruct (decide (n < k)%nat) as [Hlt|Hge].
  - rewrite lookup_app_l by (rewrite length_take; lia). by rewrite lookup_take_lt.
  - rewrite lookup_app_r by (rewrite length_take; lia).
    rewrite length_take. replace (k `min` length l)%nat with k by lia.
    destruct (decide (n = k)) as [->|Hne].
    + by replace (k - k)%nat with 0%nat by lia.
    + destruct (n - k)%nat as [|d] eqn:Hd; [lia|]. simpl.
      rewrite lookup_drop. f_equal. lia.
Qed.

(** Where [top_insert] puts a pair: after the pairs with a greater count. *)
Lemma top_insert_split x l :
  ∃ k : nat, (k ≤ length l)%nat ∧ top_insert x l = take k l ++ x :: drop k l ∧
    (∀ j y, (j < k)%nat → l !! j = Some y → x.1 < y.1) ∧
    (∀ y, l !! k = Some y → y.1 ≤ x.1).
Proof.
  induction l as [|y l IH]; simpl.
  - exists 0%nat. split_and!; [done|done|intros; lia|done].
  - destruct (Z.ltb_spec x.1 y.1) as [Hlt|Hge].
    + destruct IH as (k & Hk & -> & Hgt & Hle). exists (S k).
      split_and!; [simpl; lia|done| |done].
      intros [|j] z Hj; simpl; [by intros [= <-]|]. apply Hgt. lia.
    + exists 0%nat. split_and!; [lia|done|intros; lia|]. simpl. by intros ? [= <-].
Qed.

Lemma top_insert_length x l : length (top_insert x l) = S (length l).
Proof.
  induction l as [|y l IH]; simpl; [done|]. destruct (x.1 <? y.1); simpl; lia.
Qed.

Lemma top_insert_perm x l : top_insert x l ≡ₚ x :: l.
Proof.
  induction l as [|y l IH]; simpl; [done|].
  destruct (x.1 <? y.1); [|done]. rewrite IH. apply Permutation_swap.
Qed.

Lemma top_insert_descending x l : descending l → descending (top_insert x l).
Proof.
  intros Hl. destruct (top_insert_split x l) as (k & Hk & -> & Hgt & Hle).
  intros i j a b Hij. rewrite !lookup_insert_at by done.
  destruct (decide (i < k)%nat) as [Hik|Hik].
  - intros Ha. destruct (decide (j < k)%nat) as [Hjk|Hjk].
    + intros Hb. by apply (Hl i j).
    + destruct (decide (j = k)) as [->|Hne].
      * intros [= <-]. specialize (Hgt i a Hik Ha). lia.
      * intros Hb. apply (Hl i (j - 1)%nat); [lia|done|done].
  - destruct (decide (i = k)) as [->|Hne].
    + intros [= <-]. rewrite decide_False by lia. rewrite decide_False by lia.
      intros Hb. destruct (lookup_lt_is_Some_2 l k) as [y Hy].
      { apply lookup_lt_Some in Hb. lia. }
      specialize (Hle y Hy). destruct (decide (j - 1 = k)%nat) as [Heq|Hne].
      * rewrite Heq, Hy in Hb. injection Hb as <-. done.
      * pose proof (Hl k (j - 1)%nat y b ltac:(lia) Hy Hb). lia.
    + intros Ha. rewrite decide_False by lia. rewrite decide_False by lia.
      intros Hb. apply (Hl (i - 1)%nat (j - 1)%nat); [lia|done|done].
Qed.

(** One pass of the while loop of main over the two arrays, which hold the
    twenty highest pairs so far: the new pair is inserted and the lowest
    pair drops out. *)
Lemma main_place_spec count p l :
  length l = Z.to_nat TOP_COUNTS → descending l →
  main_place count p (l.*1) (l.*2)
  = Done ((take (Z.to_nat TOP_COUNTS) (top_insert (count, p) l)).*1,
          (take (Z.to_nat TOP_COUNTS) (top_insert (count, p) l)).*2).
Proof.
  unfold TOP_COUNTS. change (Z.to_nat 20) with 20%nat. intros Hlen Hdesc.
  unfold main_place, TOP_COUNTS. change (Z.to_nat 20) with 20%nat.
  destruct (main_slot_spec 21 20 count (l.*1)) as (k & Hslot & Hk & Hgt & Hle);
    [rewrite length_fmap; lia|lia|].
  change (20 - 1) with (Z.of_nat 20 - 1). rewrite Hslot, bind_done. cbv zeta.
  replace (Z.of_nat k - 1 + 1) with (Z.of_nat k) by lia.
  destruct (top_insert_split (count, p) l) as (k' & Hk' & -> & Hgt' & Hle').
  simpl in Hgt', Hle'.
  assert (k' = k) as ->.
  { destruct (lt_eq_lt_dec k k') as [[Hlt|Heq]|Hlt]; [|done|].
    - destruct (lookup_lt_is_Some_2 l k) as [y Hy]; [lia|].
      specialize (Hgt' k y Hlt Hy). specialize (Hle k y.1).
      rewrite list_lookup_fmap, Hy in Hle. simpl in Hle.
      assert (y.1 ≤ count) by (apply Hle; [lia|done]). lia.
    - destruct (lookup_lt_is_Some_2 l k') as [y Hy]; [lia|].
      specialize (Hle' y Hy).
      destruct (lookup_lt_is_Some_2 l (k - 1)) as [z Hz]; [lia|].
      specialize (Hgt z.1). rewrite list_lookup_fmap, Hz in Hgt. simpl in Hgt.
      assert (count < z.1) by (apply Hgt; [lia|done]).
      destruct (decide (k' = k - 1)%nat) as [Heq|Hne].
      + rewrite Heq, Hz in Hy. injection Hy as <-. lia.
      + pose proof (Hdesc k' (k - 1)%nat y z ltac:(lia) Hy Hz). lia. }
  destruct (Z.ltb_spec (Z.of_nat k) 20) as [Hlt|Hge].
  - destruct (main_shift_spec 20 19 k (l.*1) (l.*2))
      as (tc' & ts' & Hshift & Hlc & Hls & Htc & Hts);
      [lia|rewrite length_fmap; lia|rewrite length_fmap; lia|lia|].
    change (Z.of_nat 20 - 1) with (Z.of_nat 19). rewrite Hshift, bind_done.
    rewrite length_fmap in Hlc, Hls.
    cbv beta iota.
    rewrite (array_set_ok tc' k count) by lia. rewrite bind_done.
    rewrite (array_set_ok ts' k p) by lia. rewrite bind_done.
    f_equal. f_equal.
    + apply list_eq. intros n. rewrite list_lookup_fmap, lookup_take.
      rewrite lookup_insert_at by lia.
      destruct (decide (n = k)) as [->|Hne].
      * rewrite list_lookup_insert_eq by lia. repeat case_decide; try lia; done.
      * rewrite list_lookup_insert_ne by done. rewrite Htc, !list_lookup_fmap.
        case_bool_decide; repeat case_decide; try lia; try done.
        by rewrite (lookup_ge_None_2 l n) by lia.
    + apply list_eq. intros n. rewrite list_lookup_fmap, lookup_take.
      rewrite lookup_insert_at by lia.
      destruct (decide (n = k)) as [->|Hne].
      * rewrite list_lookup_insert_eq by lia. repeat case_decide; try lia; done.
      * rewrite list_lookup_insert_ne by done. rewrite Hts, !list_lookup_fmap.
        case_bool_decide; repeat case_decide; try lia; try done.
        by rewrite (lookup_ge_None_2 l n) by lia.
  - assert (k = 20%nat) as -> by lia.
    rewrite take_app_le by (rewrite length_take; lia).
    rewrite take_take. replace (20 `min` 20)%nat with 20%nat by lia.
    rewrite take_ge by lia. done.
Qed.

End Top.

Section Report.

Implicit Types (h : hashtable_s) (m : memory) (l : list (Z * Z)).

(** The contents of the output slot matter to symtabNext only when it
    returns NULL. *)
Lemma symtabNext_slot h m it rd rd' k it' out :
  symtabNext h m it rd = Ok (k, it', out) →
  ∃ out', symtabNext h m it rd' = Ok (k, it', out') ∧ (k ≠ NULL → out' = out).
Proof.
  unfold symtabNext. cbv zeta.
  destruct (load_entry m (elem it)) as [e|]; [rewrite !bind_ok|done].
  assert (∀ it0 : hash_elem_it_s,
    (if elem it0 =? NULL then Ok (NULL, it0, rd)
     else e0 ← load_entry m (elem it0); Ok (key e0, it0, value e0))
      = Ok (k, it', out) →
    ∃ out', (if elem it0 =? NULL then Ok (NULL, it0, rd')
             else e0 ← load_entry m (elem it0); Ok (key e0, it0, value e0))
            = Ok (k, it', out') ∧ (k ≠ NULL → out' = out)) as Hfin.
  { intros it0. destruct (elem it0 =? NULL).
    - intros [= <- <- <-]. by exists rd'.
    - destruct (load_entry m (elem it0)) as [e0|]; [rewrite !bind_ok|done].
      intros [= <- <- <-]. by eexists. }
  destruct (negb (next e =? NULL)); [apply Hfin|].
  destruct (u32 (index it + 1) >=? u32 (size h)).
  { intros [= <- <- <-]. by exists rd'. }
  destruct (table_get h _) as [el|]; [rewrite !bind_ok|done].
  destruct (skip_empty _ _ _ _ _) as [[idx el']|]; [rewrite !bind_ok|done].
  apply Hfin.
Qed.


Lemma descending_take l n : descending l → descending (take n l).
Proof.
  intros Hl i j x y Hij. rewrite !lookup_take.
  repeat case_decide; try done. by apply Hl.
Qed.

Lemma top_step_length acc x :
  length acc = Z.to_nat TOP_COUNTS → length (top_step acc x) = Z.to_nat TOP_COUNTS.
Proof.
  intros Hl. unfold top_step. rewrite length_take, top_insert_length. lia.
Qed.

Lemma top_step_descending acc x : descending acc → descending (top_step acc x).
Proof. intros. by apply descending_take, top_insert_descending. Qed.

(** The while loop of main does on the pairs that symtabNext returns what
    [iterate] records, and keeps the twenty highest. *)
Lemma main_while_iterate n h m it ls :
  iterate n h m it = Ok (ls, true) →
  ∃ items : list (Z * Z),
    Forall2 (λ x sd, x.1 = u32 sd.2 ∧ x.2 ≠ NULL ∧ chars m !! x.2 = Some sd.1) items ls ∧
    ∀ rd acc, length acc = Z.to_nat TOP_COUNTS → descending acc →
      ('(p, it', out) ← lift (symtabNext h m it rd);
       main_while n h m it' p out (acc.*1) (acc.*2))
      = Done ((foldl top_step acc items).*1, (foldl top_step acc items).*2).
Proof.
  revert it ls. induction n as [|n IH]; intros it ls; [done|].
  cbn [iterate]. destruct (symtabNext h m it 0) as [[[k it1] data]|] eqn:Hn; [|done].
  rewrite bind_ok. destruct (Z.eqb_spec k NULL) as [->|Hk].
  - intros [= <-]. exists []. split; [constructor|]. intros rd acc _ _.
    destruct (symtabNext_slot _ _ _ _ rd _ _ _ Hn) as (out' & -> & _).
    cbn [lift]. by rewrite bind_done.
  - destruct (load_string m k) as [s|] eqn:Hs; [rewrite bind_ok|done].
    destruct (iterate n h m it1) as [[rest fin]|] eqn:Hrest; [rewrite bind_ok|done].
    intros [= <- ->]. destruct (IH it1 rest Hrest) as (items & Hall & Hrun).
    exists ((u32 data, k) :: items). split.
    + constructor; [|done]. simpl. split_and!; [done|done|].
      unfold load_string in Hs. apply Z.eqb_neq in Hk. rewrite Hk in Hs.
      destruct (chars m !! k); [|done]. by injection Hs as <-.
    + intros rd acc Hl Hd.
      destruct (symtabNext_slot _ _ _ _ rd _ _ _ Hn) as (out' & -> & Hout).
      rewrite (Hout Hk). cbn [lift]. rewrite bind_done. cbn [main_while].
      apply Z.eqb_neq in Hk as Hk'. rewrite Hk'.
      rewrite (main_place_spec _ _ acc Hl Hd), bind_done.
      fold (top_step acc (u32 data, k)).
      rewrite (Hrun data (top_step acc (u32 data, k)));
        [done|by apply top_step_length|by apply top_step_descending].
Qed.

(** The output loop prints the pairs before the first NULL symbol. *)
Lemma main_print_spec fuel m (real pad : list (Z * Z)) (i : nat) :
  length (real ++ pad) = Z.to_nat TOP_COUNTS →
  Forall (λ x, x.2 ≠ NULL ∧ is_Some (chars m !! x.2)) real →
  Forall (λ x, x.2 = NULL) pad →
  (i ≤ length real)%nat → (Z.to_nat TOP_COUNTS - i < fuel)%nat →
  main_print fuel m (Z.of_nat i) ((real ++ pad).*1) ((real ++ pad).*2)
  = Done ((λ x, (key_string m x.2, int_of_uint x.1)) <$> drop i real).
Proof.
  unfold TOP_COUNTS. change (Z.to_nat 20) with 20%nat. intros Hlen Hreal Hpad.
  revert i. induction fuel as [|fuel IH]; intros i Hi Hf; [lia|].
  cbn [main_print]. unfold TOP_COUNTS.
  destruct (Z.ltb_spec (Z.of_nat i) 20) as [Hlt|Hge].
  - destruct (lookup_lt_is_Some_2 (real ++ pad) i) as [[c p] Hx]; [lia|].
    rewrite (array_get_ok ((real ++ pad).*2) i p) by (by rewrite list_lookup_fmap, Hx).
    rewrite bind_done.
    destruct (decide (i < length real)%nat) as [Hin|Hout].
    + rewrite lookup_app_l in Hx by done.
      rewrite Forall_forall in Hreal.
      destruct (Hreal (c, p)) as [Hp [s Hs]]; [by eapply list_elem_of_lookup_2|].
      simpl in Hp, Hs. apply Z.eqb_neq in Hp as Hp'. rewrite Hp'.
      unfold load_string. rewrite Hp', Hs. cbn [lift]. rewrite bind_done.
      rewrite (array_get_ok ((real ++ pad).*1) i c)
        by (by rewrite list_lookup_fmap, lookup_app_l, Hx by done).
      rewrite bind_done. replace (Z.of_nat i + 1) with (Z.of_nat (S i)) by lia.
      rewrite IH by lia. rewrite bind_done.
      rewrite (drop_S real (c, p) i Hx). simpl. unfold key_string. by rewrite Hs.
    + rewrite lookup_app_r in Hx by lia.
      rewrite Forall_forall in Hpad.
      assert (p = NULL) as -> by (apply (Hpad (c, p)); by eapply list_elem_of_lookup_2).
      simpl. by rewrite drop_ge by lia.
  - rewrite length_app in Hlen. by rewrite drop_ge by lia.
Qed.

Lemma take_cons_take {A} (y : A) (l : list A) n :
  take n (y :: take n l) = take n (y :: l).
Proof. destruct n as [|n]; simpl; [done|]. f_equal. rewrite take_take. f_equal. lia. Qed.

Lemma take_top_insert n x l :
  take n (top_insert x (take n l)) = take n (top_insert x l).
Proof.
  revert n. induction l as [|y l IH]; intros n; [by rewrite take_nil|].
  destruct n as [|n]; [done|]. cbn [take top_insert].
  destruct (x.1 <? y.1).
  - cbn [take]. by rewrite IH.
  - cbn [take]. f_equal. apply take_cons_take.
Qed.

Lemma foldl_top_step l items :
  foldl top_step (take (Z.to_nat TOP_COUNTS) l) items
  = take (Z.to_nat TOP_COUNTS) (foldl (λ acc x, top_insert x acc) l items).
Proof.
  revert l. induction items as [|x items IH]; intros l; simpl; [done|].
  unfold top_step at 2. rewrite take_top_insert. apply IH.
Qed.

Lemma top_insert_pad x l n :
  0 ≤ x.1 → top_insert x (l ++ replicate n (0, NULL)) = top_insert x l ++ replicate n (0, NULL).
Proof.
  intros Hx. induction l as [|y l IH]; simpl.
  - destruct n as [|n]; simpl; [done|].
    by replace (x.1 <? 0) with false by (symmetry; apply Z.ltb_ge; lia).
  - destruct (x.1 <? y.1); [|done]. simpl. by rewrite IH.
Qed.

Lemma foldl_top_insert_pad l items n :
  Forall (λ x, 0 ≤ x.1) items →
  foldl (λ acc x, top_insert x acc) (l ++ replicate n (0, NULL)) items
  = foldl (λ acc x, top_insert x acc) l items ++ replicate n (0, NULL).
Proof.
  intros Hall. revert l. induction Hall as [|x items Hx _ IH]; intros l; simpl; [done|].
  rewrite top_insert_pad by done. apply IH.
Qed.

Lemma foldl_top_insert_perm l items :
  foldl (λ acc x, top_insert x acc) l items ≡ₚ items ++ l.
Proof.
  revert l. induction items as [|x items IH]; intros l; simpl; [done|].
  rewrite IH, top_insert_perm. by rewrite Permutation_middle.
Qed.

Lemma foldl_top_insert_descending l items :
  descending l → descending (foldl (λ acc x, top_insert x acc) l items).
Proof.
  revert l. induction items as [|x items IH]; intros l Hl; simpl; [done|].
  by apply IH, top_insert_descending.
Qed.

Lemma descending_by_count m l :
  descending l → by_count ((λ x, (key_string m x.2, x.1)) <$> l).
Proof.
  intros Hl i j x y Hij. rewrite !list_lookup_fmap.
  destruct (l !! i) as [a|] eqn:Ha; [|done]. destruct (l !! j) as [b|] eqn:Hb; [|done].
  intros [= <-] [= <-]. simpl. by apply (Hl i j).
Qed.

(** The second half of main on a table with chains [bs], when the walk over
    the buckets stays inside the array: the output is the first twenty of
    the pairs of the table in descending order of count. *)
Lemma main_report_spec fuel h m bs :
  table_inv h m bs → granted 2 m → overrun bs = false →
  (length (concat bs) < fuel)%nat →
  ∃ sorted : list (string * Z),
    main_report fuel h m
      = Done ((λ sc, (sc.1, int_of_uint sc.2)) <$> take (Z.to_nat TOP_COUNTS) sorted) ∧
    sorted ≡ₚ (λ sv, (sv.1, u32 sv.2)) <$> pairs (concat bs) ∧
    by_count sorted.
Proof.
  intros Hinv Hg Hover Hf.
  pose proof (iterate_table_spec h m bs fuel Hinv Hg Hf) as Hit. rewrite Hover in Hit.
  unfold iterate_table in Hit. rewrite bind_ok in Hit.
  destruct (symtabCreateIterator h m) as [[oit m']|] eqn:Hci; [|done].
  rewrite bind_ok in Hit. destruct oit as [it|]; [|done].
  destruct (main_while_iterate _ _ _ _ _ Hit) as (items & Hall & Hrun).
  set (pad := replicate (Z.to_nat TOP_COUNTS) ((0, NULL) : Z * Z)).
  set (srt := foldl (λ acc x, top_insert x acc) [] items).
  assert (Forall (λ x : Z * Z, 0 ≤ x.1) items) as Hpos.
  { clear -Hall. induction Hall as [|x sd items ls (Hc & _) _ IH]; constructor; [|done].
    rewrite Hc. unfold u32. apply Z.mod_pos_bound. lia. }
  assert (foldl top_step pad items = take (Z.to_nat TOP_COUNTS) srt ++
            take (Z.to_nat TOP_COUNTS - length srt) pad) as HL.
  { rewrite <- (take_ge pad (Z.to_nat TOP_COUNTS)) at 1
      by (unfold pad; rewrite length_replicate; lia).
    rewrite foldl_top_step.
    change pad with ([] ++ pad) at 1. unfold pad at 1.
    rewrite foldl_top_insert_pad by done. fold pad. fold srt. apply take_app. }
  exists ((λ x, (key_string m' x.2, x.1)) <$> srt). split_and!.
  - unfold main_report. rewrite Hci. cbn [lift]. rewrite bind_done. cbv zeta.
    change (replicate (Z.to_nat TOP_COUNTS) 0) with (replicate (Z.to_nat TOP_COUNTS) (((0, NULL) : Z * Z).1)).
    change (replicate (Z.to_nat TOP_COUNTS) NULL) with (replicate (Z.to_nat TOP_COUNTS) (((0, NULL) : Z * Z).2)).
    rewrite <- !fmap_replicate. fold pad.
    transitivity
      (('(p, it', out) ← lift (symtabNext h m' it indeterminate);
        main_while fuel h m' it' p out (pad.*1) (pad.*2))
       ≫= λ '(topCounts, topSymbols),
            main_print (S (Z.to_nat TOP_COUNTS)) m' 0 topCounts topSymbols).
    { by destruct (symtabNext h m' it indeterminate) as [[[? ?] ?]|]. }
    rewrite (Hrun indeterminate pad).
    2:{ unfold pad. by rewrite length_replicate. }
    2:{ intros i j x y _ [-> _]%lookup_replicate [-> _]%lookup_replicate. done. }
    rewrite bind_done, HL.
    change 0 with (Z.of_nat 0) at 1.
    rewrite main_print_spec.
    + rewrite drop_0, <- fmap_take, <- list_fmap_compose. done.
    + rewrite length_app, !length_take. unfold pad. rewrite length_replicate. lia.
    + apply Forall_take. unfold srt.
      rewrite (foldl_top_insert_perm [] items), app_nil_r.
      clear -Hall. induction Hall as [|y sd items ls (_ & Hp & Hc) _ IH];
        constructor; [by eauto|done].
    + apply Forall_take. unfold pad. apply Forall_forall.
      by intros x [-> _]%elem_of_replicate.
    + rewrite length_take. lia.
    + unfold TOP_COUNTS. simpl. lia.
  - unfold srt. rewrite (foldl_top_insert_perm [] items), app_nil_r.
    replace ((λ sv : string * Z, (sv.1, u32 sv.2)) <$> pairs (concat bs))
      with ((λ x : Z * Z, (key_string m' x.2, x.1)) <$> items); [done|].
    clear -Hall. revert Hall. generalize (pairs (concat bs)). intros ls Hall.
    induction Hall as [|x sd items ls (Hc & _ & Hs) _ IH]; [done|].
    rewrite !fmap_cons, IH. f_equal. unfold key_string. rewrite Hs, Hc. done.
  - apply descending_by_count. unfold srt. apply foldl_top_insert_descending.
    intros i j x y _. by rewrite lookup_nil.
Qed.

End Report.

Section Main.

Implicit Types (h : hashtable_s) (m : memory) (bs : list (list node)).

Lemma filter_absent (ws : list string) k : k ∉ ws → filter (λ w, w = k) ws = [].
Proof.
  intros Hk. destruct (filter (λ w, w = k) ws) as [|x l] eqn:Hf; [done|].
  assert (x ∈ filter (λ w, w = k) ws) as Hx by (rewrite Hf; set_solver).
  apply list_elem_of_filter in Hx as [-> Hx]. done.
Qed.

(** [count_words] counts: a word of the list goes up by the number of its
    occurrences, the other keys stay. *)
Lemma count_words_lookup (ws : list string) (tm : gmap string Z) (k : string) :
  count_words ws tm !! k
  = if decide (k ∈ ws)
    then Some (default 0 (tm !! k) + Z.of_nat (length (filter (λ w, w = k) ws)))
    else tm !! k.
Proof.
  revert tm. induction ws as [|w ws IH]; intros tm; [done|].
  unfold count_words in *. cbn [foldl]. rewrite IH. unfold count_one.
  rewrite filter_cons. destruct (decide (k = w)) as [->|Hne].
  - rewrite lookup_insert_eq. rewrite (decide_True (P := w = w)) by done. simpl.
    rewrite (decide_True (P := w ∈ w :: ws)) by set_solver.
    destruct (decide (w ∈ ws)) as [Hin|Hnin].
    + f_equal. lia.
    + f_equal. rewrite (filter_absent ws w Hnin). simpl. lia.
  - rewrite lookup_insert_ne by done. rewrite (decide_False (P := w = k)) by done.
    destruct (decide (k ∈ ws)) as [Hin|Hnin].
    + by rewrite decide_True by set_solver.
    + by rewrite decide_False by set_solver.
Qed.

Lemma count_words_app ws1 ws2 tm :
  count_words (ws1 ++ ws2) tm = count_words ws2 (count_words ws1 tm).
Proof. unfold count_words. apply foldl_app. Qed.

Lemma filter_length_pos (ws : list string) k :
  k ∈ ws → (0 < length (filter (λ w, w = k) ws))%nat.
Proof.
  intros Hk. assert (k ∈ filter (λ w, w = k) ws) as Hin by (by apply list_elem_of_filter).
  destruct (filter (λ w, w = k) ws); [by apply elem_of_nil in Hin|simpl; lia].
Qed.

Lemma nodes_length h m bs :
  table_inv h m bs → (length (concat bs) < Z.to_nat (brk m + 3))%nat.
Proof.
  intros Hinv. pose proof (inv_brk _ _ _ Hinv) as Hbrk.
  destruct (bounded_nodup_length (n_addr <$> concat bs) (brk m)) as [Hl|Hl].
  - by apply (inv_nodup _ _ _ Hinv).
  - intros x Hx. by destruct (inv_concat_node _ _ _ _ Hinv Hx) as (e & _ & ? & _).
  - rewrite length_fmap in Hl. lia.
  - apply fmap_nil_inv in Hl as ->. simpl. lia.
Qed.

(** Whether a complete iteration stays inside the bucket array, by the
    buckets that the keys select. *)
Lemma overrun_by_keys h m bs :
  table_inv h m bs → 2 ≤ size h →
  (∃ k, k ∈ n_key <$> concat bs ∧ hash h k = size h - 1) ∨
  (∀ k, k ∈ n_key <$> concat bs → hash h k ≠ size h - 2) →
  overrun bs = false.
Proof.
  intros Hinv Hsz Hcase. pose proof (inv_size _ _ _ Hinv) as Hs.
  pose proof (inv_length _ _ _ Hinv) as Hlen.
  pose proof (Forall2_length _ _ _ (inv_chain _ _ _ Hinv)) as Hlen'.
  destruct Hcase as [(k & Hk & Hh)|Hnone].
  - destruct (inv_bucket h m bs k Hinv) as (p & b & _ & Hb & _).
    apply (overrun_last_nonempty bs b).
    + rewrite last_lookup. rewrite <- Hb. f_equal. rewrite Hh. lia.
    + apply (key_in_bucket h m bs k b Hinv Hb) in Hk. intros ->. set_solver.
  - apply overrun_false; [lia|].
    destruct (lookup_lt_is_Some_2 bs (length bs - 2)) as [b Hb]; [lia|].
    rewrite Hb. f_equal. destruct b as [|n b]; [done|].
    destruct (Hnone (n_key n)).
    + apply list_elem_of_fmap. exists n. split; [done|]. apply elem_of_concat.
      exists (n :: b). split; [set_solver|]. by eapply list_elem_of_lookup_2.
    + rewrite (inv_hash _ _ _ Hinv _ _ n Hb) by set_solver. lia.
Qed.

(** The loop of main over the files, on a table in which no two of the
    words and keys at hand share a bucket. *)
Lemma main_files_spec fs files h m bs :
  table_inv h m bs → keys_bounded m → oracle m = [] →
  (∀ f fp, f ∈ files → fs !! f = Some fp → Z.of_nat (length fp) < 2 ^ 31) →
  collision_free h (all_words fs files ++ (n_key <$> concat bs)) →
  Z.of_nat (length (all_words fs files)) < 2 ^ 32 →
  (∀ k v, (list_to_map (pairs (concat bs)) : gmap string Z) !! k = Some v →
          0 < v ∧ v + Z.of_nat (length (all_words fs files)) < 2 ^ 32) →
  ∃ h' m' bs',
    main_files fs files h m = Done (open_errors fs files, h', m') ∧
    table_inv h' m' bs' ∧ keys_bounded m' ∧ oracle m' = [] ∧ size h' = size h ∧
    (list_to_map (pairs (concat bs')) : gmap string Z)
      = count_words (all_words fs files) (list_to_map (pairs (concat bs))).
Proof.
  revert h m bs. induction files as [|f files IH];
    intros h m bs Hinv Hkb Ho Hlen Hcf Htot Hcnt.
  { exists h, m, bs. by split_and!. }
  cbn [main_files all_words open_errors] in *. unfold processFile.
  destruct (fs !! f) as [fp|] eqn:Hf.
  - rewrite length_app in Htot, Hcnt.
    destruct (processFile_words (word_fuel fp) fp h m bs)
      as (h1 & m1 & bs1 & Hrun & Hinv1 & Hkb1 & Ho1 & Hsz1 & Hmap1);
      [done|done|done|unfold word_fuel; lia|apply (Hlen f); [set_solver|done]| | |].
    { intros k1 k2 Hk1 Hk2. apply Hcf; set_solver. }
    { intros k v Hk. destruct (Hcnt k v Hk). lia. }
    assert (('(word, fp0, m0) ← getWord (word_fuel fp) fp m;
             '(h0, m2) ← processFile_loop (word_fuel fp) fp0 h m0 word;
             Done ([], h0, m2)) = Done (([] : list string), h1, m1)) as Hpf.
    { destruct (getWord (word_fuel fp) fp m) as [[[w0 fp0] m0]|]; [|done].
      cbn [mbind run_bind] in Hrun |- *. by rewrite Hrun. }
    rewrite Hpf, bind_done. clear Hpf.
    destruct (IH h1 m1 bs1) as (h' & m' & bs' & Hrun' & Hinv' & Hkb' & Ho' & Hsz' & Hmap');
      [done|done|done| | |lia| |].
    + intros f' fp' Hf'. apply Hlen. set_solver.
    + intros k1 k2 Hk1 Hk2. rewrite !(hash_same_size h h1) by done.
      assert (∀ k, k ∈ all_words fs files ++ (n_key <$> concat bs1) →
                   k ∈ (words fp ++ all_words fs files) ++ (n_key <$> concat bs)) as Hsub.
      { intros k [Hk|Hk]%elem_of_app; [set_solver|].
        apply (map_lookup_keys bs1 k (keys_nodup _ _ _ Hinv1)) in Hk.
        rewrite Hmap1, count_words_lookup in Hk.
        destruct (decide (k ∈ words fp)); [set_solver|].
        apply (map_lookup_keys bs k (keys_nodup _ _ _ Hinv)) in Hk. set_solver. }
      apply Hcf; by apply Hsub.
    + intros k v. rewrite Hmap1, count_words_lookup.
      pose proof (length_filter (λ w, w = k) (words fp)) as Hfl.
      destruct (decide (k ∈ words fp)) as [Hin|Hnin].
      * intros [= <-]. pose proof (filter_length_pos _ _ Hin) as Hpos.
        destruct (list_to_map (pairs (concat bs)) !! k) as [c|] eqn:Hc; simpl.
        -- destruct (Hcnt k c Hc). lia.
        -- lia.
      * intros Hk. destruct (Hcnt k v Hk). lia.
    + exists h', m', bs'. rewrite Hrun', bind_done.
      split_and!; [done|done|done|done|lia|].
      by rewrite Hmap', Hmap1, count_words_app.
  - rewrite bind_done.
    destruct (IH h m bs) as (h' & m' & bs' & Hrun' & Hinv' & Hkb' & Ho' & Hsz' & Hmap');
      [done|done|done| |done|done|done|].
    + intros f' fp' Hf'. apply Hlen. set_solver.
    + exists h', m', bs'. rewrite Hrun', bind_done. by split_and!.
Qed.

End Main.

(** * Properties of the word counter *)

Section Program.

Implicit Types (h : hashtable_s) (m : memory) (bs : list (list node)).

Lemma table_map_inv h m bs :
  table_inv h m bs → table_map h m = list_to_map (pairs (concat bs)).
Proof. intros Hinv. unfold table_map. by rewrite (contents_inv _ _ _ Hinv). Qed.

Lemma table_map_keys h m bs s :
  table_inv h m bs → is_Some (table_map h m !! s) ↔ s ∈ n_key <$> concat bs.
Proof.
  intros Hinv. rewrite (table_map_inv _ _ _ Hinv).
  apply map_lookup_keys. by eapply keys_nodup.
Qed.

(** X13: the body of the loop of processFile, for the word [s] that getWord
    has left in a new buffer.  With [v] the result of [lookup] for [s]:
    - a word that is in the table is stored again with the count 1 when the
      low 32 bits of [v] are zero and with those bits plus 1 otherwise; in
      particular a word that is in the table behind the head of its chain,
      for which [lookup] returns NULL, restarts at 1;
    - a word that is not in the table is installed with count 1 when malloc
      grants the entry node and the key buffer; when malloc refuses the node
      the program leaves by exit(-1) with the message of the initial
      install, and when it refuses the key buffer strcpy writes through NULL.
    The exit of the re-install branch is never taken. *)
Theorem processFile_body_cases (h : hashtable_s) (m0 : memory)
    (bs : list (list node)) (s : string) (o : list bool) (v : Z) :
  table_inv h m0 bs → keys_bounded m0 → lookup h m0 s = Ok v →
  let m := {| entries := entries m0; chars := <[brk m0 := s]> (chars m0);
              brk := brk m0 + 1; oracle := o |} in
  (is_Some (table_map h m0 !! s) →
     ∃ h' m', processFile_body h m (brk m0) = Done (h', m') ∧
              table_map h' m' = <[s := next_count v]> (table_map h m0) ∧
              oracle m' = o) ∧
  (table_map h m0 !! s = None → head o = Some false →
     processFile_body h m (brk m0)
       = Stop (Exit (-1) ("symtabInstall failed on initial install - aborting!" +:+ nl))) ∧
  (table_map h m0 !! s = None → head o ≠ Some false → head (tail o) ≠ Some false →
     ∃ h' m', processFile_body h m (brk m0) = Done (h', m') ∧
              table_map h' m' = <[s := 1]> (table_map h m0) ∧
              oracle m' = drop 2 o) ∧
  (table_map h m0 !! s = None → head o ≠ Some false → head (tail o) = Some false →
     processFile_body h m (brk m0) = Stop (Undefined NullDeref)) ∧
  (∀ st, processFile_body h m (brk m0) = Stop st →
     st ≠ Exit (-1) ("symtabInstall failed on re-install - aborting!" +:+ nl)).
Proof.
  intros Hinv Hkb Hl m.
  destruct (processFile_body_spec h m0 bs s o v Hinv Hkb Hl)
    as (Habs & Hdone & Hexit & Hnull).
  fold m in Hdone, Hexit, Hnull.
  pose proof (table_map_keys h m0 bs s Hinv) as Hkeys.
  assert (table_map h m0 !! s = None → s ∉ n_key <$> concat bs) as Hnone.
  { intros Hn Hin. apply Hkeys in Hin. rewrite Hn in Hin. by destruct Hin. }
  split_and!.
  - intros Hin%Hkeys.
    destruct Hdone as (h' & m' & bs' & Hrun & Hinv' & _ & _ & Ho & Hmap); [by left|].
    exists h', m'. split_and!; [done| |by rewrite decide_True in Ho].
    by rewrite (table_map_inv _ _ _ Hinv'), (table_map_inv _ _ _ Hinv).
  - intros Hn%Hnone. by apply Hexit.
  - intros Hn%Hnone Hg1 Hg2.
    destruct Hdone as (h' & m' & bs' & Hrun & Hinv' & _ & _ & Ho & Hmap); [by right|].
    exists h', m'. split_and!; [done| |by rewrite decide_False in Ho].
    rewrite (table_map_inv _ _ _ Hinv'), (table_map_inv _ _ _ Hinv), Hmap.
    by rewrite (Habs Hn).
  - intros Hn%Hnone. by apply Hnull.
  - intros st Hst.
    destruct (decide (s ∈ n_key <$> concat bs)) as [Hin|Hnin].
    { destruct Hdone as (h' & m' & bs' & Hrun & _); [by left|]. congruence. }
    destruct (decide (head o = Some false)) as [Ho|Ho].
    { rewrite (Hexit Hnin Ho) in Hst. injection Hst as <-. intros [=]. }
    destruct (decide (head (tail o) = Some false)) as [Ho2|Ho2].
    { rewrite (Hnull Hnin Ho Ho2) in Hst. by injection Hst as <-. }
    destruct Hdone as (h' & m' & bs' & Hrun & _); [by right|]. congruence.
Qed.

(** X14: processFile counts the words of a file.  On a table in which no
    two of the words of the file and of the keys stored share a bucket, with
    malloc never refusing and all counts staying below 2^32, the call
    returns and the map of the table is the former map with every word of
    the file counted once for each of its occurrences; nothing is written to
    stderr. *)
Theorem processFile_counts (fs : gmap string (list ascii)) (filename : string)
    (fp : list ascii) (h : hashtable_s) (m : memory) (bs : list (list node)) :
  fs !! filename = Some fp →
  table_inv h m bs → keys_bounded m → oracle m = [] →
  Z.of_nat (length fp) < 2 ^ 31 →
  collision_free h (words fp ++ (n_key <$> concat bs)) →
  (∀ k v, table_map h m !! k = Some v →
          0 < v ∧ v + Z.of_nat (length (words fp)) < 2 ^ 32) →
  ∃ h' m',
    processFile fs filename h m = Done ([], h', m') ∧
    table_map h' m' = count_words (words fp) (table_map h m) ∧
    table_inv h' m' (contents h' m') ∧ keys_bounded m' ∧ oracle m' = [] ∧
    size h' = size h.
Proof.
  intros Hf Hinv Hkb Ho Hlen Hcf Hcnt.
  rewrite (table_map_inv _ _ _ Hinv) in Hcnt |- *.
  destruct (processFile_words (word_fuel fp) fp h m bs)
    as (h1 & m1 & bs1 & Hrun & Hinv1 & Hkb1 & Ho1 & Hsz1 & Hmap1);
    [done|done|done|unfold word_fuel; lia|done|done|done|].
  exists h1, m1. unfold processFile. rewrite Hf. split_and!; try done.
  - destruct (getWord (word_fuel fp) fp m) as [[[w0 fp0] m0]|]; [|done].
    cbn [mbind run_bind] in Hrun |- *. by rewrite Hrun.
  - by rewrite (table_map_inv _ _ _ Hinv1).
  - by rewrite (contents_inv _ _ _ Hinv1).
Qed.

(** X15: one pass of the while loop of main over the arrays topCounts and
    topSymbols, which hold twenty (count, symbol) pairs in descending order
    of count.  The search from the bottom, the shift and the two stores stay
    inside the arrays; the new pair is put before the first pair whose count
    is not greater, the pairs from there on move down by one and the last
    one is dropped; the arrays are again twenty pairs in descending order. *)
Theorem main_place_top (count p : Z) (l : list (Z * Z)) :
  length l = Z.to_nat TOP_COUNTS → descending l →
  ∃ k : nat,
    (∀ j y, (j < k)%nat → l !! j = Some y → count < y.1) ∧
    (∀ y, l !! k = Some y → y.1 ≤ count) ∧
    main_place count p (l.*1) (l.*2)
      = Done ((take (Z.to_nat TOP_COUNTS) (take k l ++ (count, p) :: drop k l)).*1,
              (take (Z.to_nat TOP_COUNTS) (take k l ++ (count, p) :: drop k l)).*2) ∧
    length (take (Z.to_nat TOP_COUNTS) (take k l ++ (count, p) :: drop k l))
      = Z.to_nat TOP_COUNTS ∧
    descending (take (Z.to_nat TOP_COUNTS) (take k l ++ (count, p) :: drop k l)).
Proof.
  intros Hlen Hdesc.
  destruct (top_insert_split (count, p) l) as (k & Hk & Hins & Hgt & Hle).
  exists k. rewrite <- Hins. split_and!; [done|done| | |].
  - by apply main_place_spec.
  - by apply top_step_length.
  - by apply top_step_descending.
Qed.

(** X16: the second half of main (the arrays, the iteration, the output) on
    a table of the interface for which a complete iteration stays inside the
    bucket array, malloc granting the iterator: the lines printed are the
    first twenty of the (key, count) pairs of the table arranged in
    descending order of count, the count being the low 32 bits of the stored
    value, printed as an int. *)
Theorem main_report_top (fuel : nat) (h : hashtable_s) (m : memory)
    (bs : list (list node)) :
  table_inv h m bs → granted 2 m → overrun bs = false →
  (length (concat bs) < fuel)%nat →
  ∃ sorted : list (string * Z),
    main_report fuel h m
      = Done ((λ sc, (sc.1, int_of_uint sc.2)) <$> take (Z.to_nat TOP_COUNTS) sorted) ∧
    sorted ≡ₚ (λ sv, (sv.1, u32 sv.2)) <$> pairs (concat bs) ∧
    by_count sorted.
Proof. apply main_report_spec. Qed.

Lemma int_of_uint_id v : 0 ≤ v < 2 ^ 31 → int_of_uint v = v.
Proof.
  intros Hv. unfold int_of_uint. rewrite u32_small by lia.
  by rewrite (proj2 (Z.ltb_lt v (2 ^ 31))) by lia.
Qed.

(** X17: main, from the command line to the output.  Let [ws] be the words
    of the files named on the command line that can be opened.  If every
    such file has less than 2^31 bytes, there are less than 2^31 words, no
    two different words select the same of the 10000 buckets, malloc never
    refuses, and some word selects the last bucket or none selects the
    bucket before it, then main returns 0, writes to stderr one message for
    each file that cannot be opened, and prints the first twenty of the
    (word, number of occurrences) pairs arranged in descending order of the
    number of occurrences. *)
Theorem main_counts (argv : list string) (fs : gmap string (list ascii)) :
  (2 ≤ length argv)%nat →
  (∀ f fp, f ∈ tail argv → fs !! f = Some fp → Z.of_nat (length fp) < 2 ^ 31) →
  Z.of_nat (length (all_words fs (tail argv))) < 2 ^ 31 →
  collision_free main_table (all_words fs (tail argv)) →
  (∃ w, w ∈ all_words fs (tail argv) ∧ hash main_table w = 9999) ∨
  (∀ w, w ∈ all_words fs (tail argv) → hash main_table w ≠ 9998) →
  ∃ sorted : list (string * Z),
    main argv fs []
      = Done (open_errors fs (tail argv), take (Z.to_nat TOP_COUNTS) sorted, 0) ∧
    sorted ≡ₚ map_to_list (count_words (all_words fs (tail argv)) ∅) ∧
    by_count sorted.
Proof.
  intros Hargc Hlen Htot Hcf Hlast.
  set (ws := all_words fs (tail argv)) in *.
  set (m0 := {| entries := ∅; chars := ∅; brk := 3; oracle := [] |} : memory).
  assert (symtabCreate 10000 (empty_memory []) = (Some main_table, m0)) as Hcreate.
  { destruct (symtabCreate_cases 10000 (empty_memory []))
      as [[? _]|[(_ & Hng & _)|(_ & _ & ->)]]; [simpl; lia|lia| |done].
    destruct Hng. apply granted_2. by simpl. }
  pose proof (table_inv_create 10000 [] main_table m0 ltac:(lia) Hcreate) as Hinv0.
  assert (main argv fs []
          = ('(err, symtab, m) ← main_files fs (tail argv) main_table m0;
             out ← main_report (Z.to_nat (brk m + 3)) symtab m;
             Done (err, out, 0))) as Hmain.
  { unfold main. replace (Z.of_nat (length argv) <? 2) with false
      by (symmetry; apply Z.ltb_ge; lia).
    by rewrite Hcreate. }
  clear Hcreate.
  set (bs0 := replicate (Z.to_nat 10000) ([] : list node)) in *.
  assert (concat bs0 = []) as Hnil by apply concat_replicate_nil.
  destruct (main_files_spec fs (tail argv) main_table m0 bs0)
    as (h1 & m1 & bs1 & Hrun & Hinv1 & Hkb1 & Ho1 & Hsz1 & Hmap1);
    [done|by intros a e; simpl; rewrite lookup_empty|done|done| |fold ws; lia| |].
  { rewrite Hnil, fmap_nil, app_nil_r. exact Hcf. }
  { rewrite Hnil. change (pairs []) with ([] : list (string * Z)).
    rewrite list_to_map_nil. intros k v. by rewrite lookup_empty. }
  rewrite Hnil in Hmap1. change (pairs []) with ([] : list (string * Z)) in Hmap1.
  rewrite list_to_map_nil in Hmap1. fold ws in Hmap1, Hrun.
  assert (∀ k, k ∈ n_key <$> concat bs1 ↔ k ∈ ws) as Hkeys.
  { intros k. rewrite <- (map_lookup_keys bs1 k (keys_nodup _ _ _ Hinv1)).
    rewrite Hmap1, count_words_lookup. destruct (decide (k ∈ ws)) as [Hin|Hnin].
    - split; [done|]. by eexists.
    - rewrite lookup_empty. split; [by intros [? ?]|done]. }
  destruct (main_report_spec (Z.to_nat (brk m1 + 3)) h1 m1 bs1)
    as (sorted & Hrep & Hperm & Hsorted); [done| | |by eapply nodes_length|].
  { apply granted_2. by rewrite Ho1. }
  { assert (size main_table = 10000) as Hsz0 by reflexivity.
    apply (overrun_by_keys h1 m1 bs1 Hinv1); [rewrite Hsz1, Hsz0; lia|].
    rewrite Hsz1, Hsz0. change (10000 - 1) with 9999. change (10000 - 2) with 9998.
    destruct Hlast as [(w & Hw & Hh)|Hnone]; [left|right].
    - exists w. split; [by apply Hkeys|]. by rewrite (hash_same_size main_table h1).
    - intros k Hk%Hkeys. rewrite (hash_same_size main_table h1) by done.
      by apply Hnone. }
  assert (pairs (concat bs1) ≡ₚ map_to_list (count_words ws ∅)) as Hpairs.
  { rewrite <- Hmap1. symmetry. apply map_to_list_to_map.
    rewrite pairs_keys. by eapply keys_nodup. }
  assert (∀ sv, sv ∈ pairs (concat bs1) → 0 ≤ sv.2 < 2 ^ 31) as Hrange.
  { intros [k v] Hkv. rewrite Hpairs in Hkv. apply elem_of_map_to_list in Hkv.
    rewrite count_words_lookup in Hkv. simpl.
    pose proof (length_filter (λ w, w = k) ws) as Hfl.
    destruct (decide (k ∈ ws)); [|by rewrite lookup_empty in Hkv].
    rewrite lookup_empty in Hkv. injection Hkv as <-. simpl. lia. }
  assert ((λ sv : string * Z, (sv.1, u32 sv.2)) <$> pairs (concat bs1)
          = pairs (concat bs1)) as Hid.
  { rewrite <- (list_fmap_id (pairs (concat bs1))) at 2.
    apply list_fmap_ext. intros i [k v] Hkv. simpl.
    rewrite u32_small; [done|]. apply list_elem_of_lookup_2 in Hkv.
    apply Hrange in Hkv. simpl in Hkv. lia. }
  rewrite Hid in Hperm.
  exists sorted. split_and!; [|by rewrite Hperm|done].
  rewrite Hmain, Hrun, bind_done, Hrep, bind_done. do 3 f_equal.
  rewrite <- (list_fmap_id (take (Z.to_nat TOP_COUNTS) sorted)) at 2.
  apply list_fmap_ext. intros i [k v] Hkv. simpl.
  rewrite int_of_uint_id; [done|].
  apply list_elem_of_lookup_2, elem_of_take in Hkv as (j & Hj & _).
  apply list_elem_of_lookup_2 in Hj. rewrite Hperm in Hj.
  apply Hrange in Hj. done.
Qed.

(** X18: main gives up before any file is read in two cases.  Without a
    file name on the command line it writes a message and returns -1.  When
    malloc refuses one of the two allocations of symtabCreate it writes
    another message and returns -1.  In both cases nothing is printed. *)
Theorem main_gives_up (argv : list string) (fs : gmap string (list ascii))
    (o : list bool) :
  ((length argv < 2)%nat →
     main argv fs o = Done (["no filenames given!" +:+ nl], [], -1)) ∧
  ((2 ≤ length argv)%nat →
     head o = Some false ∨ head (tail o) = Some false →
     main argv fs o = Done (["symtabCreate failed!" +:+ nl], [], -1)).
Proof.
  split.
  - intros Hargc. unfold main.
    by replace (Z.of_nat (length argv) <? 2) with true by (symmetry; apply Z.ltb_lt; lia).
  - intros Hargc Ho. unfold main.
    replace (Z.of_nat (length argv) <? 2) with false by (symmetry; apply Z.ltb_ge; lia).
    destruct (symtabCreate_cases 10000 (empty_memory o))
      as [[? _]|[(_ & _ & m' & ->)|(_ & Hg & _)]]; [simpl; lia|lia|done|].
    apply granted_2 in Hg as [Hg1 Hg2]. simpl in Hg1, Hg2. by destruct Ho.
Qed.

End Program.

Section ProgramWitnesses.

Lemma collision_free_nodup h (ks : list string) :
  NoDup (hash h <$> remove_dups ks) → collision_free h ks.
Proof.
  intros Hnd k1 k2 Hk1 Hk2 Hh.
  apply elem_of_remove_dups, list_elem_of_lookup in Hk1 as [i Hi].
  apply elem_of_remove_dups, list_elem_of_lookup in Hk2 as [j Hj].
  assert (i = j) as ->.
  { apply (NoDup_lookup _ i j (hash h k1) Hnd).
    - by rewrite list_lookup_fmap, Hi.
    - by rewrite list_lookup_fmap, Hj, Hh. }
  congruence.
Qed.

Lemma getWord_first_word_witness :
  match words sample_file with
  | [] => getWord (word_fuel sample_file) sample_file memory_a = Done (NULL, [], memory_a)
  | w :: ws =>
      ∃ file',
        getWord (word_fuel sample_file) sample_file memory_a
          = Done (brk memory_a, file',
                  {| entries := entries memory_a;
                     chars := <[brk memory_a := w]> (chars memory_a);
                     brk := brk memory_a + 1; oracle := tail (oracle memory_a) |}) ∧
        words file' = ws ∧ (length file' < length sample_file)%nat
  end.
Proof.
  apply (getWord_first_word sample_file memory_a).
  - vm_compute. reflexivity.
  - simpl. lia.
  - simpl. congruence.
Defined.

Lemma getWord_safe_witness :
  (∀ st, getWord (word_fuel sample_file) sample_file memory_a = Stop st →
     st = Undefined NullDeref ∧ head (oracle memory_a) = Some false) ∧
  (∀ p file' m', getWord (word_fuel sample_file) sample_file memory_a
                 = Done (p, file', m') →
     (p = NULL ∧ file' = [] ∧ m' = memory_a) ∨
     (p = brk memory_a ∧ entries m' = entries memory_a ∧ brk m' = brk memory_a + 1 ∧
      oracle m' = tail (oracle memory_a) ∧
      ∃ s, chars m' = <[p := s]> (chars memory_a) ∧
           (6 ≤ String.length s ≤ 50)%nat ∧
           Forall (λ a, (97 ≤ N_of_ascii a ≤ 122)%N) (String.list_ascii_of_string s))).
Proof.
  apply (getWord_safe (word_fuel sample_file) sample_file memory_a).
  - unfold word_fuel. lia.
  - vm_compute. reflexivity.
  - simpl. lia.
Defined.

Lemma processFile_body_cases_witness :
  let h := table_2a in
  let m0 := memory_2ac in
  let s := "c"%string in
  let o : list bool := [] in
  let v := NULL in
  let m := {| entries := entries m0; chars := <[brk m0 := s]> (chars m0);
              brk := brk m0 + 1; oracle := o |} in
  (is_Some (table_map h m0 !! s) →
     ∃ h' m', processFile_body h m (brk m0) = Done (h', m') ∧
              table_map h' m' = <[s := next_count v]> (table_map h m0) ∧
              oracle m' = o) ∧
  (table_map h m0 !! s = None → head o = Some false →
     processFile_body h m (brk m0)
       = Stop (Exit (-1) ("symtabInstall failed on initial install - aborting!" +:+ nl))) ∧
  (table_map h m0 !! s = None → head o ≠ Some false → head (tail o) ≠ Some false →
     ∃ h' m', processFile_body h m (brk m0) = Done (h', m') ∧
              table_map h' m' = <[s := 1]> (table_map h m0) ∧
              oracle m' = drop 2 o) ∧
  (table_map h m0 !! s = None → head o ≠ Some false → head (tail o) = Some false →
     processFile_body h m (brk m0) = Stop (Undefined NullDeref)) ∧
  (∀ st, processFile_body h m (brk m0) = Stop st →
     st ≠ Exit (-1) ("symtabInstall failed on re-install - aborting!" +:+ nl)).
Proof.
  apply (processFile_body_cases table_2a memory_2ac (contents table_2a memory_2ac)
           "c" [] NULL).
  - apply (reachable_table_inv ["c"; "a"]%string). exact reach_2ac.
  - apply (reachable_keys_bounded ["c"; "a"]%string table_2a). exact reach_2ac.
  - vm_compute. reflexivity.
Defined.

Lemma processFile_counts_witness :
  ∃ h' m',
    processFile sample_files "notes.txt" two_buckets (fresh_memory []) = Done ([], h', m') ∧
    table_map h' m'
      = count_words (words sample_file) (table_map two_buckets (fresh_memory [])) ∧
    table_inv h' m' (contents h' m') ∧ keys_bounded m' ∧ oracle m' = [] ∧
    size h' = size two_buckets.
Proof.
  apply (processFile_counts sample_files "notes.txt" sample_file two_buckets
           (fresh_memory []) (contents two_buckets (fresh_memory []))).
  - vm_compute. reflexivity.
  - apply (reachable_table_inv []).
    apply (reach_create 2 []); [lia|]. vm_compute. reflexivity.
  - apply (reachable_keys_bounded [] two_buckets).
    apply (reach_create 2 []); [lia|]. vm_compute. reflexivity.
  - reflexivity.
  - vm_compute. reflexivity.
  - apply collision_free_nodup. apply (bool_decide_unpack _). vm_compute. exact I.
  - intros k v. change (table_map two_buckets (fresh_memory [])) with (∅ : gmap string Z).
    rewrite lookup_empty. discriminate.
Defined.

Lemma main_place_top_witness :
  ∃ k : nat,
    (∀ j y, (j < k)%nat → replicate 20 (0, NULL) !! j = Some y → 3 < y.1) ∧
    (∀ y, replicate 20 (0, NULL) !! k = Some y → y.1 ≤ 3) ∧
    main_place 3 4 ((replicate 20 (0, NULL)).*1) ((replicate 20 (0, NULL)).*2)
      = Done ((take (Z.to_nat TOP_COUNTS)
                 (take k (replicate 20 (0, NULL)) ++ (3, 4) :: drop k (replicate 20 (0, NULL)))).*1,
              (take (Z.to_nat TOP_COUNTS)
                 (take k (replicate 20 (0, NULL)) ++ (3, 4) :: drop k (replicate 20 (0, NULL)))).*2) ∧
    length (take (Z.to_nat TOP_COUNTS)
              (take k (replicate 20 (0, NULL)) ++ (3, 4) :: drop k (replicate 20 (0, NULL))))
      = Z.to_nat TOP_COUNTS ∧
    descending (take (Z.to_nat TOP_COUNTS)
                  (take k (replicate 20 (0, NULL)) ++ (3, 4) :: drop k (replicate 20 (0, NULL)))).
Proof.
  apply (main_place_top 3 4 (replicate 20 (0, NULL))).
  - reflexivity.
  - intros i j x y _ [-> _]%lookup_replicate [-> _]%lookup_replicate. simpl. lia.
Defined.

Lemma main_report_top_witness :
  ∃ sorted : list (string * Z),
    main_report 4 table_2acb memory_2acb
      = Done ((λ sc, (sc.1, int_of_uint sc.2)) <$> take (Z.to_nat TOP_COUNTS) sorted) ∧
    sorted ≡ₚ (λ sv, (sv.1, u32 sv.2)) <$> pairs (concat (contents table_2acb memory_2acb)) ∧
    by_count sorted.
Proof.
  apply (main_report_top 4 table_2acb memory_2acb (contents table_2acb memory_2acb)).
  - apply (reachable_table_inv ["b"; "c"; "a"]%string). exact reach_2acb.
  - vm_compute. constructor.
  - vm_compute. reflexivity.
  - vm_compute. lia.
Defined.

Lemma main_counts_witness :
  ∃ sorted : list (string * Z),
    main ["wordcount"; "notes.txt"]%string sample_files []
      = Done (open_errors sample_files (tail ["wordcount"; "notes.txt"]%string),
              take (Z.to_nat TOP_COUNTS) sorted, 0) ∧
    sorted ≡ₚ map_to_list
                (count_words
                   (all_words sample_files (tail ["wordcount"; "notes.txt"]%string)) ∅) ∧
    by_count sorted.
Proof.
  apply (main_counts ["wordcount"; "notes.txt"]%string sample_files).
  - simpl. lia.
  - intros f fp Hf%list_elem_of_singleton Hfp. rewrite Hf in Hfp.
    vm_compute in Hfp. injection Hfp as <-. vm_compute. reflexivity.
  - vm_compute. reflexivity.
  - apply collision_free_nodup. apply (bool_decide_unpack _). vm_compute. exact I.
  - right. apply Forall_forall. apply (bool_decide_unpack _). vm_compute. exact I.
Defined.

Lemma main_gives_up_witness :
  ((length ["wordcount"%string] < 2)%nat →
     main ["wordcount"%string] sample_files [] = Done (["no filenames given!" +:+ nl], [], -1)) ∧
  ((2 ≤ length ["wordcount"%string])%nat →
     head ([] : list bool) = Some false ∨ head (tail ([] : list bool)) = Some false →
     main ["wordcount"%string] sample_files []
       = Done (["symtabCreate failed!" +:+ nl], [], -1)).
Proof. apply (main_gives_up ["wordcount"%string] sample_files []). Defined.

End ProgramWitnesses.

End Symtab.
